(** * RUL labelling and min-max normalisation of the turbofan notebook

    A shallow embedding of the data preparation cells of
    [source/notebooks/sagemaker_predictive_maintenance.ipynb]: the training
    cell (normalise every variant, then label it) and the test cell (label
    every variant from its reference file, then normalise it).

    - A data frame is the list of its rows, in row order.  The columns [id]
      and [cycle] hold whole numbers, which pandas reads as int64; the 24
      columns [columns[2:]] hold the channel values; the columns that a
      merge or an assignment adds are the [ext] field of a row.
    - The labels are computed as pandas computes them: in int64, modulo
      [2^64], or in float64, rounded, once a left merge has left a NaN
      ([None]) in the column.
    - The arithmetic of the channel columns is an interface ([Arith]).  Its
      instance for the notebook is binary64; an instance of exact
      rationals gives the formula without rounding and overflow.
    - An exception ends the cell that raises it: the loops run in an error
      monad over the list they append to. *)

From stdpp Require Import base option list strings pretty gmap.
From Stdlib Require Import ZArith QArith Qminmax Lqa Lia Floats.

Set Default Proof Using "Type".

#[local] Close Scope Q_scope.
#[local] Open Scope Z_scope.

(** ** Channel arithmetic *)

(** What line 76 (and 128) needs of a number: [-], [+], [/], the
    comparison behind [min()] and [max()], the test for NaN, which
    [min()] and [max()] skip, and the constant [eps]. *)
Class Arith (num : Type) := {
  nsub : num → num → num;
  nadd : num → num → num;
  ndiv : num → num → num;
  nleb : num → num → bool;
  nisnan : num → bool;
  eps : num;
}.

(** The arithmetic of the notebook: binary64, with [eps = 0.000001] as the
    binary64 number that Python reads it as. *)
#[export] Instance binary64_arith : Arith float := {|
  nsub := PrimFloat.sub; nadd := PrimFloat.add; ndiv := PrimFloat.div;
  nleb := PrimFloat.leb; nisnan := PrimFloat.is_nan;
  eps := 0x1.0c6f7a0b5ed8dp-20%float;
|}.

(** The formula in exact arithmetic: rationals, without rounding, overflow,
    infinities or NaN.  It is not the arithmetic of the notebook; what is
    proved with it is stated as such. *)
#[export] Instance Q_arith : Arith Q := {|
  nsub := Qminus; nadd := Qplus; ndiv := Qdiv; nleb := Qle_bool;
  nisnan := λ _, false;
  eps := (1 # 1000000)%Q;
|}.

(** What [min()] and [max()] rely on: the comparison orders the numbers
    that are not NaN. *)
Class Ordered (num : Type) `{Arith num} : Prop := {
  nleb_total (a b : num) :
    nisnan a = false → nisnan b = false → nleb a b = true ∨ nleb b a = true;
  nleb_trans (a b c : num) :
    nisnan a = false → nisnan b = false → nisnan c = false →
    nleb a b = true → nleb b c = true → nleb a c = true;
}.

(** ** Column names (line 51) *)

Definition columns : list string :=
  ["id"; "cycle"; "setting1"; "setting2"; "setting3"; "s1"; "s2"; "s3"; "s4";
   "s5"; "s6"; "s7"; "s8"; "s9"; "s10"; "s11"; "s12"; "s13"; "s14"; "s15";
   "s16"; "s17"; "s18"; "s19"; "s20"; "s21"]%string.

(** [columns[2:]]: the channels, three settings and twenty-one sensors. *)
Definition channels : list string := drop 2 columns.

Section Frames.
Context {num : Type} `{Arith num}.

(** ** Data frames *)

(** One row of a frame whose columns are [columns] followed by the
    columns of [E]: [chans] holds the values of [channels], in order. *)
Record row (E : Type) := Row {
  id : Z;
  cycle : Z;
  chans : list num;
  ext : E;
}.
#[global] Arguments Row {E} _ _ _ _.
#[global] Arguments id {E} _.
#[global] Arguments cycle {E} _.
#[global] Arguments chans {E} _.
#[global] Arguments ext {E} _.

(** A data frame: its rows, in order. *)
#[local] Abbreviation frame E := (list (row E)).

(** ** Normalisation (lines 76 and 128) *)

Definition nmin (a b : num) : num := if nleb a b then a else b.
Definition nmax (a b : num) : num := if nleb a b then b else a.

(** [df[c]]: the values of channel [j], one per row. *)
Definition column {E} (j : nat) (df : frame E) : list num :=
  omap (λ r, chans r !! j) df.

(** [.min()] and [.max()] of a column: pandas skips the NaN cells
    ([skipna=True]); of a column that holds nothing else the result is NaN,
    here [None]. *)
Definition col_min (col : list num) : option num :=
  match filter (λ x, nisnan x = false) col with
  | [] => None
  | x :: xs => Some (foldl nmin x xs)
  end.

Definition col_max (col : list num) : option num :=
  match filter (λ x, nisnan x = false) col with
  | [] => None
  | x :: xs => Some (foldl nmax x xs)
  end.

(** [(v - min + eps) / (max - min + eps)] *)
Definition scale (lo hi v : num) : num :=
  ndiv (nadd (nsub v lo) eps) (nadd (nsub hi lo) eps).

(** The new value of a cell of channel [j].  Where the statistics are
    NaN the channel holds only NaN, and the cell stays NaN. *)
Definition scale_cell {E} (df : frame E) (j : nat) (v : num) : num :=
  match col_min (column j df), col_max (column j df) with
  | Some lo, Some hi => scale lo hi v
  | _, _ => v
  end.

(** [df[columns[2:]] = (df[columns[2:]] - df[columns[2:]].min() + eps)
      / (df[columns[2:]].max() - df[columns[2:]].min() + eps)] *)
Definition normalize {E} (df : frame E) : frame E :=
  (λ r, Row (id r) (cycle r) (imap (scale_cell df) (chans r)) (ext r)) <$> df.

(** ** The arithmetic of the label columns *)

(** The columns [id], [cycle], [max] and the reference values are int64.
    The column [RUL_end] is int64 as long as the left merge finds a
    reference for every row; with one missing it is float64, and so is
    what is computed from it.  A cell of either kind of column is a whole
    number, or NaN ([None]) in a float64 column. *)

(** int64 keeps a sum or a difference modulo [2^64], in [[-2^63, 2^63)]. *)
Definition wrap64 (z : Z) : Z := (z + 2 ^ 63) mod 2 ^ 64 - 2 ^ 63.

(** float64 keeps of a whole number the nearest binary64 number, the one
    with the even significand when two are as near: whole numbers below
    [2^53] in magnitude are kept, larger ones lose their low bits.  (The
    numbers met here are far below the largest binary64 number;
    [round64_binary64_conversion] and [float64_label_binary64] relate
    the definition to the binary64 operations of the Standard Library.) *)
Definition round64 (z : Z) : Z :=
  let a := Z.abs z in
  if a <? 2 ^ 53 then z
  else
    let e := Z.log2 a - 52 in
    let q := a / 2 ^ e in
    let r := a mod 2 ^ e in
    let half := 2 ^ (e - 1) in
    let q' := if (half <? r) || ((r =? half) && Z.odd q) then q + 1 else q in
    Z.sgn z * (q' * 2 ^ e).

(** [a + b] and [a - b] on two int64 columns, and on two float64 columns
    of whole numbers and NaN. *)
Definition nan_lift (f : Z → Z → Z) (a b : option Z) : option Z :=
  x ← a; y ← b; Some (f x y).

Definition int64_add : option Z → option Z → option Z :=
  nan_lift (λ x y, wrap64 (x + y)).
Definition int64_sub : option Z → option Z → option Z :=
  nan_lift (λ x y, wrap64 (x - y)).
Definition float64_add : option Z → option Z → option Z :=
  nan_lift (λ x y, round64 (x + y)).
Definition float64_sub : option Z → option Z → option Z :=
  nan_lift (λ x y, round64 (x - y)).

(** An int64 column taken into a float64 operation. *)
Definition astype_float64 (a : option Z) : option Z := round64 <$> a.

(** ** Group-by and left merge *)

(** [df.groupby('id')['cycle'].max()]: the series that maps every id of
    [df] to the largest cycle among its rows. *)
Definition group_max {E} (df : frame E) : gmap Z Z :=
  foldr (λ r m, <[id r := match m !! id r with
                          | Some c => Z.max c (cycle r)
                          | None => cycle r
                          end]> m) ∅ df.

(** [pd.DataFrame(...).reset_index()] with [columns = ['id', 'max']]: one
    row per id.  (pandas lists them by increasing id; the left merges
    below keep the order of the left frame, so that the order of the
    right one does not show.) *)
Definition reset_index (s : gmap Z Z) : list (Z * Z) := map_to_list s.

(** [df.merge(right, on=['id'], how='left')]: every row of [df], in order,
    once per row of [right] with its id, and once with NaN when [right]
    has none. *)
Definition merge_left {E V} (right : list (Z * V)) (df : frame E)
  : frame (E * option V) :=
  df ≫= λ r,
    match filter (λ kv, kv.1 = id r) right with
    | [] => [Row (id r) (cycle r) (chans r) (ext r, None)]
    | ms => (λ kv, Row (id r) (cycle r) (chans r) (ext r, Some kv.2)) <$> ms
    end.

(** ** Train labelling (lines 81 to 85) *)

(** [df['max'] - df['cycle']], two int64 columns. *)
Definition train_rul (df : frame unit) : frame (option Z) :=
  let rul := reset_index (group_max df) in
  let df := merge_left rul df in
  (λ r, Row (id r) (cycle r) (chans r)
          (int64_sub (ext r).2 (Some (cycle r)))) <$> df.

(** ** Test labelling (lines 116 to 125) *)

(** [df_rul.index += 1]: the reference values, keyed 1, 2, ... *)
Definition index_from_1 (df_rul : list Z) : list (Z * Z) :=
  imap (λ k v, (Z.of_nat k + 1, v)) df_rul.

(** [max + RUL_end - cycle] on one row: in int64 when [RUL_end] is an
    int64 column, in float64, to which [max] and [cycle] are then
    converted, when it is a float64 column. *)
Definition test_label (RUL_end_is_float64 : bool) (max RUL_end : option Z)
    (cycle : Z) : option Z :=
  if RUL_end_is_float64
  then float64_sub (float64_add (astype_float64 max) (astype_float64 RUL_end))
                   (astype_float64 (Some cycle))
  else int64_sub (int64_add max RUL_end) (Some cycle).

(** [df['RUL'] = df['max'] + df['RUL_end'] - df['cycle']] after the two
    merges.  The column [RUL_end] is float64 exactly when the first merge
    left a NaN in it. *)
Definition test_rul (df_rul : list Z) (df : frame unit) : frame (option Z) :=
  let df := merge_left (index_from_1 df_rul) df in
  let rul := reset_index (group_max df) in
  let df := merge_left rul df in
  let RUL_end_is_float64 := bool_decide (None ∈ (λ r, (ext r).1.2) <$> df) in
  (λ r, Row (id r) (cycle r) (chans r)
          (test_label RUL_end_is_float64 (ext r).2 (ext r).1.2 (cycle r))) <$> df.

(** ** The two cells *)

(** What a cell can raise.  The first four are pandas'; the notebook has
    no [raise] and no [try] of its own, and the last one is the error the
    specification names for a reference that is missing. *)
Inductive exn :=
| FileNotFoundError
| ParserError
| IndexError
| ValueError
| MissingRulReferenceError (run : Z).

Inductive result (A : Type) :=
| Ok (a : A)
| Raise (e : exn).
#[global] Arguments Ok {A} _.
#[global] Arguments Raise {A} _.

Definition bind {A B} (m : result A) (k : A → result B) : result B :=
  match m with
  | Ok a => k a
  | Raise e => Raise e
  end.

(** The folder [data/], as the cells read it: for [train_FD00i.txt] what
    [read_csv], the [drop] of the two empty trailing columns and the naming
    of the 26 others give (lines 73 to 75), for [test_FD00i.txt] what
    [read_csv] and the [drop] give (lines 110 and 111), and for
    [RUL_FD00i.txt] what [read_csv] and the [drop] of its empty column give
    (lines 114 and 115): a frame, or the exception that one of these calls
    raises.  A frame has the columns [columns]: a test file with another
    number of columns, at which the naming of line 120 would raise after
    the reference file is read, is no frame of this model. *)
Record data_folder := {
  train_FD : nat → result (frame unit);
  test_FD : nat → result (frame unit);
  RUL_FD : nat → result (list Z);
}.

(** [for i in l: df = body(i); acc.append(df)]: the list as the loop
    leaves it, and the exception that ended it, if any. *)
Fixpoint for_append {B} (body : nat → result B) (l : list nat) (acc : list B)
  : list B * option exn :=
  match l with
  | [] => (acc, None)
  | i :: l =>
      match body i with
      | Ok df => for_append body l (acc ++ [df])
      | Raise e => (acc, Some e)
      end
  end.

(** Body of the loop of lines 72 to 77. *)
Definition train_variant (d : data_folder) (i : nat) : result (frame unit) :=
  bind (train_FD d i) (λ df, Ok (normalize df)).

(** Body of the loop of lines 108 to 129. *)
Definition test_variant (d : data_folder) (i : nat) : result (frame (option Z)) :=
  bind (test_FD d i) (λ df,
  bind (RUL_FD d i) (λ df_rul,
  Ok (normalize (test_rul df_rul df)))).

(** How the training cell ends: [train_df] and the exception, when its
    first loop raises; otherwise [train_df] after the second loop, which
    replaces every frame by its labelled frame ([train_df[i] = df]). *)
Inductive train_cell_end :=
| Aborted (train_df : list (frame unit)) (e : exn)
| Done (train_df : list (frame (option Z))).

(** [range(1,5)] *)
Definition variants : list nat := seq 1 4.

Definition train_cell (d : data_folder) : train_cell_end :=
  match for_append (train_variant d) variants [] with
  | (train_df, Some e) => Aborted train_df e
  | (train_df, None) => Done (train_rul <$> train_df)
  end.

(** How the test cell ends: [test_df], and the exception if it raised. *)
Definition test_cell (d : data_folder) : list (frame (option Z)) * option exn :=
  for_append (test_variant d) variants [].

(** ** Vocabulary of the statements *)

(** [m] is the largest cycle among the rows of run [k] in [df]. *)
Definition is_max_cycle {E} (df : frame E) (k m : Z) : Prop :=
  (∃ r, r ∈ df ∧ id r = k ∧ cycle r = m)
  ∧ ∀ r, r ∈ df → id r = k → cycle r ≤ m.

(** The reference value of run [k]: the entry at position [k], counted
    from 1, of the reference file. *)
Definition reference_of (df_rul : list Z) (k : Z) : option Z :=
  if decide (1 ≤ k) then df_rul !! Z.to_nat (k - 1) else None.

(** Some run of the series has no reference value. *)
Definition missing_reference {E} (df_rul : list Z) (df : frame E) : bool :=
  bool_decide (Exists (λ r, reference_of df_rul (id r) = None) df).


(** The value of row [i] in channel [j]. *)
Definition cell {E} (df : frame E) (i j : nat) : option num :=
  r ← df !! i; chans r !! j.

(** [lo] is the least value of channel [j] over all the rows of [df], and
    [hi] the greatest, NaN cells left aside. *)
Definition channel_min {E} (df : frame E) (j : nat) (lo : num) : Prop :=
  nisnan lo = false
  ∧ (∃ r, r ∈ df ∧ chans r !! j = Some lo)
  ∧ ∀ r x, r ∈ df → chans r !! j = Some x → nisnan x = false →
           nleb lo x = true.

Definition channel_max {E} (df : frame E) (j : nat) (hi : num) : Prop :=
  nisnan hi = false
  ∧ (∃ r, r ∈ df ∧ chans r !! j = Some hi)
  ∧ ∀ r x, r ∈ df → chans r !! j = Some x → nisnan x = false →
           nleb x hi = true.

End Frames.

Arguments row : clear implicits.

(** A data frame over the numbers [num], with the extra columns [E]. *)
Abbreviation frame num E := (list (row num E)).

Arguments data_folder : clear implicits.
Arguments train_cell_end : clear implicits.

(** ** The upload cell (lines 156 to 186) *)

Definition bucket : string := "sagemaker-predictive-maintenance".
Definition prefix : string := "pred-maintenance-artifacts".

(** [s.startswith(p)] and [s.endswith(p)] *)
Definition startswith (s p : string) : bool := String.prefix p s.
Definition endswith (s p : string) : bool :=
  String.prefix (String.rev p) (String.rev s).

(** [os.path.join(a, *p)] of [posixpath]: a component that starts with
    the separator replaces what precedes it; otherwise it is appended,
    after a separator unless the path is empty or ends with one. *)
Definition join_step (path b : string) : string :=
  if startswith b "/" then b
  else if bool_decide (path = ""%string) || endswith path "/" then path +:+ b
  else path +:+ "/" +:+ b.

Definition path_join (a : string) (p : list string) : string :=
  foldl join_step a p.

(** ['data/test-{}.csv'.format(i)] and the three other names. *)
Definition local_test_file (i : nat) : string :=
  "data/test-" +:+ pretty i +:+ ".csv".
Definition s3_test_file (i : nat) : string :=
  path_join prefix ["data"; "test-" +:+ pretty i +:+ ".csv"]%string.
Definition local_train_file (i : nat) : string :=
  "data/train-" +:+ pretty i +:+ ".csv".
Definition s3_train_file (i : nat) : string :=
  path_join prefix ["train"; "train-" +:+ pretty i +:+ ".csv"]%string.

(** ['s3://{}/{}/{}'.format(bucket, prefix, 'train')] *)
Definition s3_train_data : string :=
  "s3://" +:+ bucket +:+ "/" +:+ prefix +:+ "/" +:+ "train".

(** The files of the working directory and the objects of the bucket,
    each a map from a path or a key to the text it holds.  The working
    directory is one in which the folder [data/] exists, as the cells that
    read it require, and the bucket is one that takes what is uploaded:
    what the upload cell does without them is not modelled. *)
Record store := Store {
  disk : gmap string string;
  s3 : gmap string string;
}.

(** [s3_bucket_resource.Object(key).upload_file(filename)] *)
Definition upload_file (key filename : string) (st : store) : result store :=
  match disk st !! filename with
  | Some text => Ok (Store (disk st) (<[key := text]> (s3 st)))
  | None => Raise FileNotFoundError
  end.

(** The files that [os.walk(data_folder)] finds, each as
    [os.path.join(subdir, file)]: the files below [data/]. *)
Definition walk (st : store) : list string :=
  (map_to_list (filter (λ kv, startswith kv.1 "data/" = true) (disk st))).*1.

(** [for x in l: body(x)] on the store. *)
Fixpoint for_each {A} (body : A → store → result store) (l : list A) (st : store)
  : result store :=
  match l with
  | [] => Ok st
  | x :: l => bind (body x st) (for_each body l)
  end.

Section Upload.
Context {num : Type}.

(** [df.to_csv(path)] writes the text of the frame; the text itself is
    pandas' and is left open. *)
Variable to_csv : frame num (option Z) → string.

(** Lines 164 to 169. *)
Definition upload_raw (st : store) : result store :=
  for_each (λ full_path, upload_file (path_join prefix [full_path]) full_path)
    (walk st) st.

(** Lines 171 to 176 with the test names, lines 178 to 183 with the train
    names. *)
Definition upload_frames (local_file s3_file : nat → string)
    (dfs : list (frame num (option Z))) (st : store) : result store :=
  for_each (λ i st,
      match dfs !! i with
      | Some df =>
          let st := Store (<[local_file i := to_csv df]> (disk st)) (s3 st) in
          upload_file (s3_file i) (local_file i) st
      | None => Raise IndexError
      end)
    (seq 0 (length dfs)) st.

Definition upload_cell (test_df train_df : list (frame num (option Z)))
    (st : store) : result store :=
  bind (upload_raw st) (λ st,
  bind (upload_frames local_test_file s3_test_file test_df st)
       (upload_frames local_train_file s3_train_file train_df)).

(** ['num-datasets' : len(train_df)] of the hyperparameters (line 259). *)
Definition num_datasets (train_df : list (frame num (option Z))) : nat :=
  length train_df.

End Upload.

Arguments num_datasets {num} train_df.

(** ** A small data folder *)

(** Two runs with two channels; the second channel is constant. *)
Definition fd_train : frame float unit :=
  [Row 1 1 [10; 5]%float tt; Row 1 2 [20; 5]%float tt; Row 2 1 [15; 5]%float tt;
   Row 1 3 [30; 5]%float tt; Row 2 2 [12; 5]%float tt].

Definition fd_train_3 : frame float unit :=
  [Row 1 1 [1]%float tt; Row 1 2 [2]%float tt; Row 1 3 [3]%float tt].

(** Three truncated runs, and a reference file with two entries: run 3
    has none. *)
Definition fd_test : frame float unit :=
  [Row 1 100 [10; 5]%float tt; Row 2 1 [15; 5]%float tt;
   Row 1 120 [30; 5]%float tt; Row 3 7 [12; 5]%float tt].

(** Two truncated runs that both have a reference value in [fd_rul]. *)
Definition fd_test_2 : frame float unit :=
  [Row 1 100 [10; 5]%float tt; Row 2 1 [15; 5]%float tt;
   Row 1 120 [30; 5]%float tt].

Definition fd_test_3 : frame float unit :=
  [Row 1 1 [1]%float tt; Row 1 2 [3]%float tt].

Definition fd_rul : list Z := [30; 5].

(** A folder in which the files of the second variant do not parse. *)
Definition folder : data_folder float := {|
  train_FD i :=
    match i with
    | 2%nat => Raise ParserError
    | 3%nat => Ok fd_train_3
    | _ => Ok fd_train
    end;
  test_FD i :=
    match i with
    | 2%nat => Raise ParserError
    | 3%nat => Ok fd_test_3
    | _ => Ok fd_test
    end;
  RUL_FD i := Ok fd_rul;
|}.

(** A folder in which every file loads. *)
Definition folder_ok : data_folder float := {|
  train_FD i := Ok fd_train;
  test_FD i := Ok fd_test;
  RUL_FD i := Ok fd_rul;
|}.


(** A run that ends at cycle [2^53 + 1], a run without a reference value,
    and the reference file, of one entry. *)
Definition fd_large : frame float unit :=
  [Row 1 1 [] tt; Row 1 (2 ^ 53 + 1) [] tt; Row 3 7 [] tt].

Definition fd_large_rul : list Z := [0].

(** A channel whose range [1e308 - (-1e308)] is above the largest
    binary64 number. *)
Definition fd_wide : frame float unit :=
  [Row 1 1 [0x1.1ccf385ebc8ap+1023%float] tt;
   Row 1 2 [(-0x1.1ccf385ebc8ap+1023)%float] tt;
   Row 1 3 [0%float] tt].

(** A channel that holds infinity in every row. *)
Definition fd_infinity : frame float unit :=
  [Row 1 1 [infinity] tt; Row 1 2 [infinity] tt].

(** A frame whose channel is constant, and two in which a channel has a
    NaN cell. *)
Definition fd_binary64 : frame float unit :=
  [Row 1 1 [5%float] tt; Row 1 2 [5%float] tt].

Definition fd_nan : frame float unit :=
  [Row 1 1 [10%float] tt; Row 1 2 [nan] tt; Row 1 3 [30%float] tt].

Definition fd_constant_nan : frame float unit :=
  [Row 1 1 [5%float] tt; Row 1 2 [nan] tt; Row 1 3 [5%float] tt].

(** A frame of rationals. *)
Definition fd_exact : frame Q unit :=
  [Row 1 1 [10; 5]%Q tt; Row 1 2 [20; 5]%Q tt; Row 2 1 [15; 5]%Q tt;
   Row 1 3 [30; 5]%Q tt; Row 2 2 [12; 5]%Q tt].

(** A stand-in for the text that [to_csv] writes: the number of rows. *)
Definition row_count_text (df : frame float (option Z)) : string :=
  pretty (length df).

(** A working directory that holds one raw file, and an empty bucket. *)
Definition fresh_store : store :=
  Store {[ "data/readme.txt"%string := "raw"%string ]} ∅.

(** The store after one run of the upload cell on one training frame. *)
Definition store_after_run : store :=
  Store (<[ "data/train-0.csv"%string := "5"%string ]>
           {[ "data/readme.txt"%string := "raw"%string ]})
        (<[ "pred-maintenance-artifacts/train/train-0.csv"%string := "5"%string ]>
           {[ "pred-maintenance-artifacts/data/readme.txt"%string := "raw"%string ]}).

(** ** Binary64 numbers in order *)

(** The number that binary64 keeps of a whole number, by the conversion of
    the Standard Library: what [round64] is checked against. *)
Definition binary64_of_Z (z : Z) : spec_float :=
  binary_normalize prec emax z 0 false.

Definition Z_of_binary64 (x : spec_float) : option Z :=
  match x with
  | S754_zero _ => Some 0
  | S754_finite s m e =>
      Some (cond_Zopp s (if 0 <=? e then Z.pos m * 2 ^ e else Z.pos m / 2 ^ (- e)))
  | _ => None
  end.

(** The place of a binary64 number that is not NaN in the order of
    [<=]: by sign, then exponent, then significand; the two zeros have one
    place. *)
Definition SFkey (x : spec_float) : Z * Z * Z :=
  match x with
  | S754_nan => (0, 0, 0)
  | S754_zero _ => (0, 0, 0)
  | S754_infinity true => (-2, 0, 0)
  | S754_infinity false => (2, 0, 0)
  | S754_finite true m e => (-1, - e, - Z.pos m)
  | S754_finite false m e => (1, e, Z.pos m)
  end.

Definition key_le (a b : Z * Z * Z) : Prop :=
  a.1.1 < b.1.1
  ∨ (a.1.1 = b.1.1 ∧ (a.1.2 < b.1.2 ∨ (a.1.2 = b.1.2 ∧ a.2 ≤ b.2))).

(** Two binary64 numbers that are equal as numbers: the same number, or
    the two zeros. *)
Definition same_number (x y : float) : Prop :=
  is_nan x = false ∧ is_nan y = false
  ∧ SFkey (Prim2SF x) = SFkey (Prim2SF y).

(** ** Rounding to binary64 *)

(** The finite numbers of binary64 are the whole multiples of [2^-1074]
    that have at most 53 binary digits, below [2^1024].  [SFnum x] is the
    finite number [x] counted in units of [2^-1074]. *)
Definition SFnum (x : spec_float) : Z :=
  match x with
  | S754_finite s m e => cond_Zopp s (Z.pos m * 2 ^ (e + 1074))
  | _ => 0
  end.

Definition SFfinite (x : spec_float) : bool :=
  match x with
  | S754_zero _ | S754_finite _ _ _ => true
  | _ => false
  end.

(** Rounding to nearest, ties to even, of [z] units, [z] positive.  The
    low [rn_K z] digits of [z] are dropped, so that at most 53 are left;
    [rn_up] tells from them whether the rest goes up; [rn_round z] is
    what is left, [rn_pair z] its exponent, over [-1074], and
    significand once a carry into a 54th digit is taken back, and [RN z]
    the number of binary64, infinity from the exponent 972 on. *)
Definition rn_up (H rem m' : Z) : bool :=
  (H <? 2 * rem) || ((2 * rem =? H) && Z.odd m').

Definition rn_K (z : Z) : Z := Z.max (Z.log2 z - 52) 0.

Definition rn_round (z : Z) : Z :=
  let m' := z / 2 ^ rn_K z in
  if rn_up (2 ^ rn_K z) (z mod 2 ^ rn_K z) m' then m' + 1 else m'.

Definition rn_pair (z : Z) : Z * Z :=
  if 2 ^ 53 <=? rn_round z then (rn_K z + 1, rn_round z / 2)
  else (rn_K z, rn_round z).

Definition RN (z : Z) : spec_float :=
  match (rn_pair z).2 with
  | Z.pos m =>
      if (rn_pair z).1 - 1074 <=? 971
      then S754_finite false m ((rn_pair z).1 - 1074)
      else S754_infinity false
  | _ => S754_zero false
  end.

(** The same for [z] that is not negative. *)
Definition RNz (z : Z) : spec_float :=
  if decide (0 < z) then RN z else S754_zero false.

(** Rounding of a number of either sign. *)
Definition RNs (z : Z) : spec_float :=
  match z with
  | 0 => S754_zero false
  | Z.pos _ => RN z
  | Z.neg _ => SFopp (RN (- z))
  end.

(** A float of binary64 that holds the whole number [w], zero as [+0]. *)
Definition whole64 (x : spec_float) (w : Z) : Prop :=
  valid_binary x = true ∧ SFfinite x = true ∧ x ≠ S754_zero true
  ∧ SFnum x = w * 2 ^ 1074.

Definition lex_le (a b : Z * Z) : Prop := a.1 < b.1 ∨ (a.1 = b.1 ∧ a.2 ≤ b.2).

(** * Properties *)

Section Frame_properties.
Context {num : Type} `{Arith num}.

Lemma normalize_length {E} (df : frame num E) : length (normalize df) = length df.
Proof. unfold normalize. by rewrite length_fmap. Qed.

Lemma normalize_lookup {E} (df : frame num E) (i : nat) :
  normalize df !! i
  = (λ r, Row (id r) (cycle r) (imap (scale_cell df) (chans r)) (ext r)) <$> df !! i.
Proof. unfold normalize. by rewrite list_lookup_fmap. Qed.

Lemma cell_Some {E} (df : frame num E) (i j : nat) (v : num) :
  cell df i j = Some v ↔ ∃ r, df !! i = Some r ∧ chans r !! j = Some v.
Proof. unfold cell. apply bind_Some. Qed.

Lemma elem_of_column {E} (df : frame num E) (j : nat) (x : num) :
  x ∈ column j df ↔ ∃ r, r ∈ df ∧ chans r !! j = Some x.
Proof. unfold column. apply list_elem_of_omap. Qed.

(** A channel that holds one value [v] in every row: its statistics are
    [v], whatever the comparison answers. *)
Lemma nmin_diag (v : num) : nmin v v = v.
Proof. unfold nmin. by destruct (nleb v v). Qed.

Lemma nmax_diag (v : num) : nmax v v = v.
Proof. unfold nmax. by destruct (nleb v v). Qed.

Lemma foldl_constant (f : num → num → num) (v : num) (xs : list num) :
  f v v = v → (∀ x, x ∈ xs → x = v) → foldl f v xs = v.
Proof.
  intros Hf. induction xs as [|x xs IH]; intros Hxs; [done|]. simpl.
  rewrite (Hxs x) by left. rewrite Hf. apply IH. intros y Hy. apply Hxs. by right.
Qed.

Lemma col_statistics_constant (col : list num) (v : num) :
  nisnan v = false → v ∈ col → (∀ x, x ∈ col → x = v) →
  col_min col = Some v ∧ col_max col = Some v.
Proof.
  intros Hv Hin Hcol. unfold col_min, col_max.
  destruct col as [|x xs]; [by apply elem_of_nil in Hin|].
  rewrite (Hcol x) by left. rewrite filter_cons_True by done.
  assert (∀ y, y ∈ filter (λ x, nisnan x = false) xs → y = v) as Hrest.
  { intros y [_ Hy]%list_elem_of_filter. apply Hcol. by right. }
  by rewrite !foldl_constant by auto using nmin_diag, nmax_diag.
Qed.

Lemma normalize_constant_channel {E} (df : frame num E) (i j : nat) (v : num) :
  nisnan v = false →
  (∀ r x, r ∈ df → chans r !! j = Some x → x = v) →
  cell df i j = Some v →
  cell (normalize df) i j = Some (scale v v v).
Proof.
  intros Hnan Hconst (r & Hi & Hv)%cell_Some.
  destruct (col_statistics_constant (column j df) v) as [Hmin Hmax]; [done | | |].
  { apply elem_of_column. exists r. split; [by eapply list_elem_of_lookup_2 | done]. }
  { intros x (r' & Hr' & Hx)%elem_of_column. eauto. }
  apply cell_Some. eexists. rewrite normalize_lookup, Hi. split; [done|]. simpl.
  rewrite list_lookup_imap, Hv. simpl. f_equal. unfold scale_cell.
  by rewrite Hmin, Hmax.
Qed.

(** C9: normalisation leaves the columns [id] and [cycle] of any frame as
    they are, and every other column that is not a channel: in the test
    variant, where it runs on the labelled frame, the column [RUL].  Only
    the values of the channels change; there are as many of them as
    before. *)
Theorem normalize_frame_property :
  (∀ E (df : frame num E),
      id <$> normalize df = id <$> df
      ∧ cycle <$> normalize df = cycle <$> df
      ∧ ext <$> normalize df = ext <$> df
      ∧ (λ r, length (chans r)) <$> normalize df = (λ r, length (chans r)) <$> df)
  ∧ (∀ d i df df_rul,
      test_FD d i = Ok df → RUL_FD d i = Ok df_rul →
      ∃ out, test_variant d i = Ok out
             ∧ id <$> out = id <$> test_rul df_rul df
             ∧ cycle <$> out = cycle <$> test_rul df_rul df
             ∧ ext <$> out = ext <$> test_rul df_rul df).
Proof.
  assert (Hcols : ∀ E (df : frame num E),
      id <$> normalize df = id <$> df
      ∧ cycle <$> normalize df = cycle <$> df
      ∧ ext <$> normalize df = ext <$> df
      ∧ (λ r, length (chans r)) <$> normalize df = (λ r, length (chans r)) <$> df).
  { intros E df. unfold normalize. rewrite <- !list_fmap_compose.
    repeat split; apply list_fmap_ext; intros ? r ?; simpl; try done.
    by rewrite length_imap. }
  split; [exact Hcols|].
  intros d i df df_rul Hdf Hrul. unfold test_variant. rewrite Hdf, Hrul. simpl.
  eexists. split; [done|]. destruct (Hcols _ (test_rul df_rul df)) as (?&?&?&?).
  done.
Qed.

(** ** The group-by series *)

Lemma group_max_cons {E} (r : row num E) (df : frame num E) (k : Z) :
  group_max (r :: df) !! k
  = if decide (id r = k)
    then Some (match group_max df !! k with
               | Some c => Z.max c (cycle r)
               | None => cycle r
               end)
    else group_max df !! k.
Proof.
  unfold group_max at 1. simpl. fold (group_max df).
  rewrite lookup_insert. case_decide; by subst.
Qed.

Lemma group_max_None {E} (df : frame num E) (k : Z) :
  group_max df !! k = None ↔ ∀ r, r ∈ df → id r ≠ k.
Proof.
  induction df as [|r df IH].
  - split; [intros _ r Hr; by apply elem_of_nil in Hr | done].
  - rewrite group_max_cons. case_decide as Hk.
    + split; [done|]. intros Hno. exfalso. apply (Hno r); [left | done].
    + rewrite IH. split.
      * intros Hno r' [->|Hr']%elem_of_cons; auto.
      * intros Hno r' Hr'. apply Hno. by right.
Qed.

Lemma group_max_Some {E} (df : frame num E) (k m : Z) :
  group_max df !! k = Some m ↔ is_max_cycle df k m.
Proof.
  revert m. induction df as [|r df IH]; intros m.
  - split; [done|]. intros [(r & Hr & _) _]. by apply elem_of_nil in Hr.
  - rewrite group_max_cons. case_decide as Hk.
    + destruct (group_max df !! k) as [c|] eqn:Hc.
      * destruct (proj1 (IH c) eq_refl) as [(r0 & Hr0 & Hid0 & Hc0) Hle]. split.
        -- intros [= <-]. split.
           ++ destruct (Z.max_spec c (cycle r)) as [[_ ->]|[_ ->]].
              ** exists r. split; [left | done].
              ** exists r0. split; [by right | done].
           ++ intros r' [->|Hr']%elem_of_cons Hid'; [lia|].
              specialize (Hle r' Hr' Hid'). lia.
        -- intros [(r1 & Hr1 & Hid1 & Hc1) Hmax]. f_equal.
           assert (cycle r ≤ m) by (apply Hmax; [left | done]).
           assert (c ≤ m) by (subst c; apply Hmax; [by right | done]).
           apply elem_of_cons in Hr1 as [->|Hr1]; [lia|].
           specialize (Hle r1 Hr1 Hid1). lia.
      * pose proof (proj1 (group_max_None df k) Hc) as Hno. split.
        -- intros [= <-]. split.
           ++ exists r. split; [left | done].
           ++ intros r' [->|Hr']%elem_of_cons Hid'; [lia|].
              by destruct (Hno r' Hr').
        -- intros [(r1 & Hr1 & Hid1 & Hc1) _]. f_equal.
           apply elem_of_cons in Hr1 as [->|Hr1]; [done|].
           by destruct (Hno r1 Hr1).
    + rewrite IH. unfold is_max_cycle. split.
      * intros [(r0 & Hr0 & Hid0 & Hc0) Hle]. split.
        -- exists r0. split; [by right | done].
        -- intros r' [->|Hr']%elem_of_cons Hid'; [done | by apply Hle].
      * intros [(r0 & Hr0 & Hid0 & Hc0) Hle]. split.
        -- exists r0. apply elem_of_cons in Hr0 as [->|Hr0]; [done|]. done.
        -- intros r' Hr' Hid'. apply Hle; [by right | done].
Qed.

Lemma group_max_is_Some {E} (df : frame num E) (r : row num E) :
  r ∈ df → ∃ m, group_max df !! id r = Some m.
Proof.
  intros Hr. destruct (group_max df !! id r) as [m|] eqn:Hm; [by exists m|].
  by destruct (proj1 (group_max_None df (id r)) Hm r Hr).
Qed.

Lemma is_max_cycle_unique {E} (df : frame num E) (k m1 m2 : Z) :
  is_max_cycle df k m1 → is_max_cycle df k m2 → m1 = m2.
Proof.
  intros [(r1 & Hr1 & Hid1 & Hc1) Hle1] [(r2 & Hr2 & Hid2 & Hc2) Hle2].
  specialize (Hle1 r2 Hr2 Hid2). specialize (Hle2 r1 Hr1 Hid1). lia.
Qed.

Lemma group_max_fmap {E F} (f : row num E → row num F) (df : frame num E) :
  (∀ r, id (f r) = id r) → (∀ r, cycle (f r) = cycle r) →
  group_max (f <$> df) = group_max df.
Proof.
  intros Hid Hcycle. induction df as [|r df IH]; [done|].
  rewrite fmap_cons. unfold group_max in *. simpl. by rewrite IH, Hid, Hcycle.
Qed.

(** ** Left merge against a frame whose keys are all different *)

Lemma filter_key_absent {V} (l : list (Z * V)) (k : Z) :
  k ∉ l.*1 → filter (λ kv, kv.1 = k) l = [].
Proof.
  induction l as [|[k' v] l IH]; [done|]. rewrite fmap_cons, not_elem_of_cons.
  simpl. intros [Hne Hl]. rewrite filter_cons_False by (simpl; congruence). auto.
Qed.

Lemma filter_key_unique {V} (l : list (Z * V)) (k : Z) :
  NoDup l.*1 →
  filter (λ kv, kv.1 = k) l
  = match (list_to_map l : gmap Z V) !! k with
    | Some v => [(k, v)]
    | None => []
    end.
Proof.
  induction l as [|[k' v] l IH]; [done|]. rewrite fmap_cons, NoDup_cons.
  simpl. intros [Hk' Hl]. rewrite lookup_insert. case_decide as Hk.
  - subst k'. rewrite filter_cons_True by done.
    by rewrite filter_key_absent.
  - rewrite filter_cons_False by done. auto.
Qed.

Lemma merge_left_unique {E V} (right : list (Z * V)) (df : frame num E) :
  NoDup right.*1 →
  merge_left right df
  = (λ r, Row (id r) (cycle r) (chans r)
            (ext r, (list_to_map right : gmap Z V) !! id r)) <$> df.
Proof.
  intros Hright. unfold merge_left. induction df as [|r df IH]; [done|].
  rewrite bind_cons, fmap_cons, IH, (filter_key_unique _ _ Hright).
  by destruct (list_to_map right !! id r).
Qed.

Lemma index_from_1_keys (df_rul : list Z) : NoDup (index_from_1 df_rul).*1.
Proof.
  apply NoDup_alt. intros i j k. unfold index_from_1.
  rewrite !list_lookup_fmap, !list_lookup_imap.
  destruct (df_rul !! i), (df_rul !! j); simpl; try done.
  intros [= <-] [= Hij]. lia.
Qed.

Lemma index_from_1_lookup (df_rul : list Z) (k : Z) :
  (list_to_map (index_from_1 df_rul) : gmap Z Z) !! k = reference_of df_rul k.
Proof.
  unfold reference_of. case_decide as Hk.
  - destruct (df_rul !! Z.to_nat (k - 1)) as [v|] eqn:Hv.
    + apply elem_of_list_to_map_1; [apply index_from_1_keys|].
      apply elem_of_lookup_imap. exists (Z.to_nat (k - 1)), v.
      split; [f_equal; lia | done].
    + apply not_elem_of_list_to_map_1.
      intros ([k' v] & -> & (i & y & [= -> ->] & Hy)%elem_of_lookup_imap)%list_elem_of_fmap.
      simpl in Hv. replace (Z.to_nat (Z.of_nat i + 1 - 1)) with i in Hv by lia.
      congruence.
  - apply not_elem_of_list_to_map_1.
    intros ([k' v] & -> & (i & y & [= -> ->] & Hy)%elem_of_lookup_imap)%list_elem_of_fmap.
    simpl in Hk. lia.
Qed.

(** ** int64 and float64 *)

Lemma wrap64_range (z : Z) : - 2 ^ 63 ≤ wrap64 z < 2 ^ 63.
Proof.
  unfold wrap64. pose proof (Z.mod_pos_bound (z + 2 ^ 63) (2 ^ 64)). lia.
Qed.

Lemma wrap64_small (z : Z) : - 2 ^ 63 ≤ z < 2 ^ 63 → wrap64 z = z.
Proof. intros Hz. unfold wrap64. rewrite Z.mod_small by lia. lia. Qed.

Lemma wrap64_congruent (a b : Z) :
  a mod 2 ^ 64 = b mod 2 ^ 64 → wrap64 a = wrap64 b.
Proof.
  intros Hab. unfold wrap64.
  by rewrite <- (Zplus_mod_idemp_l a), Hab, Zplus_mod_idemp_l.
Qed.

Lemma wrap64_mod (z : Z) : wrap64 z mod 2 ^ 64 = z mod 2 ^ 64.
Proof.
  unfold wrap64. rewrite Zminus_mod_idemp_l. f_equal. lia.
Qed.

Lemma wrap64_sub_l (a c : Z) : wrap64 (wrap64 a - c) = wrap64 (a - c).
Proof.
  apply wrap64_congruent.
  by rewrite <- Zminus_mod_idemp_l, wrap64_mod, Zminus_mod_idemp_l.
Qed.

Lemma wrap64_add_l (a t : Z) : wrap64 (wrap64 a + t) = wrap64 (a + t).
Proof.
  apply wrap64_congruent.
  by rewrite <- Zplus_mod_idemp_l, wrap64_mod, Zplus_mod_idemp_l.
Qed.


Lemma round64_small (z : Z) : Z.abs z < 2 ^ 53 → round64 z = z.
Proof. intros Hz. unfold round64. by destruct (Z.ltb_spec (Z.abs z) (2 ^ 53)); [|lia]. Qed.

(** Away from the bounds of int64 and of the whole numbers that float64
    keeps, either arithmetic gives [max + RUL_end - cycle]. *)
Lemma test_label_exact (b : bool) (m t c : Z) :
  0 ≤ c ≤ m → 0 ≤ t → m + t < 2 ^ 53 →
  test_label b (Some m) (Some t) c = Some (m + t - c).
Proof.
  intros Hc Ht Hm. unfold test_label.
  destruct b; unfold float64_sub, float64_add, int64_sub, int64_add, nan_lift; csimpl.
  - rewrite (round64_small m), (round64_small t), (round64_small c) by lia.
    by rewrite (round64_small (m + t)), round64_small by lia.
  - rewrite (wrap64_small (m + t)) by lia. by rewrite wrap64_small by lia.
Qed.

Lemma test_label_None (b : bool) (m : option Z) (c : Z) : test_label b m None c = None.
Proof. by destruct b, m. Qed.

(** ** The labelled frames, row by row *)

Lemma train_rul_rows (df : frame num unit) :
  train_rul df
  = (λ r, Row (id r) (cycle r) (chans r)
            ((λ m, wrap64 (m - cycle r)) <$> group_max df !! id r)) <$> df.
Proof.
  unfold train_rul, reset_index.
  rewrite merge_left_unique by apply NoDup_fst_map_to_list.
  rewrite list_to_map_to_list, <- list_fmap_compose.
  apply list_fmap_ext. intros i r _. simpl.
  by destruct (group_max df !! id r).
Qed.

Lemma missing_reference_true {E} (df_rul : list Z) (df : frame num E) :
  missing_reference df_rul df = true
  ↔ ∃ r, r ∈ df ∧ reference_of df_rul (id r) = None.
Proof. unfold missing_reference. by rewrite bool_decide_eq_true, Exists_exists. Qed.

Lemma missing_reference_false {E} (df_rul : list Z) (df : frame num E) :
  missing_reference df_rul df = false
  ↔ ∀ r, r ∈ df → is_Some (reference_of df_rul (id r)).
Proof.
  rewrite <- not_true_iff_false, missing_reference_true. split.
  - intros Hno r Hr. destruct (reference_of df_rul (id r)) eqn:Href; [done|].
    destruct Hno. eauto.
  - intros Hall (r & Hr & Href). destruct (Hall r Hr) as [t Ht]. congruence.
Qed.

Lemma missing_reference_ext {E F} (a b : list Z) (df : frame num E) (df' : frame num F) :
  (∀ k, (∃ r, r ∈ df ∧ id r = k) ↔ (∃ r, r ∈ df' ∧ id r = k)) →
  (∀ r, r ∈ df → reference_of a (id r) = reference_of b (id r)) →
  missing_reference a df = missing_reference b df'.
Proof.
  intros Hids Hagree. apply eq_true_iff_eq. rewrite !missing_reference_true. split.
  - intros (r & Hr & Href). destruct (proj1 (Hids (id r))) as (r' & Hr' & Hid); [eauto|].
    exists r'. split; [done|]. by rewrite Hid, <- (Hagree r Hr).
  - intros (r' & Hr' & Href). destruct (proj2 (Hids (id r'))) as (r & Hr & Hid); [eauto|].
    exists r. split; [done|]. by rewrite (Hagree r Hr), Hid.
Qed.

Lemma test_rul_rows (df_rul : list Z) (df : frame num unit) :
  test_rul df_rul df
  = (λ r, Row (id r) (cycle r) (chans r)
            (test_label (missing_reference df_rul df)
               (group_max df !! id r) (reference_of df_rul (id r)) (cycle r))) <$> df.
Proof.
  unfold test_rul, reset_index. cbv zeta.
  rewrite (merge_left_unique (index_from_1 df_rul)) by apply index_from_1_keys.
  rewrite merge_left_unique by apply NoDup_fst_map_to_list.
  rewrite list_to_map_to_list, group_max_fmap by done.
  rewrite <- !list_fmap_compose.
  apply list_fmap_ext. intros i r _. simpl.
  rewrite index_from_1_lookup. do 2 f_equal.
  apply eq_true_iff_eq. rewrite bool_decide_eq_true, missing_reference_true.
  rewrite list_elem_of_fmap. split.
  - intros (r' & Href & Hr'). exists r'. split; [done|].
    simpl in Href. by rewrite index_from_1_lookup in Href.
  - intros (r' & Hr' & Href). exists r'. split; [|done].
    simpl. by rewrite index_from_1_lookup.
Qed.

Lemma group_max_Permutation {E} (df df' : frame num E) :
  df ≡ₚ df' → group_max df = group_max df'.
Proof.
  intros Hperm. apply map_eq. intros k.
  destruct (group_max df' !! k) as [m|] eqn:Hm.
  - apply group_max_Some. apply group_max_Some in Hm.
    destruct Hm as [(r & Hr & Hid & Hc) Hle]. split.
    + exists r. by rewrite Hperm.
    + intros r' Hr'. apply Hle. by rewrite <- Hperm.
  - apply group_max_None. intros r Hr.
    apply (proj1 (group_max_None df' k) Hm). by rewrite <- Hperm.
Qed.

(** ** Loops that append *)

Lemma for_append_all {B} (body : nat → result B) (l : list nat) (acc outs : list B) :
  Forall2 (λ i out, body i = Ok out) l outs →
  for_append body l acc = (acc ++ outs, None).
Proof.
  intros Hall. revert acc.
  induction Hall as [|i out l outs Hi _ IH]; intros acc; simpl.
  - by rewrite app_nil_r.
  - by rewrite Hi, IH, <- app_assoc.
Qed.


Lemma test_cell_all_variants (d : data_folder num) (outs : list (frame num (option Z))) :
  Forall2 (λ i out, test_variant d i = Ok out) variants outs →
  test_cell d = (outs, None).
Proof. intros Hall. unfold test_cell. by rewrite (for_append_all _ _ _ _ Hall). Qed.

Lemma train_cell_all_variants (d : data_folder num) (outs : list (frame num unit)) :
  Forall2 (λ i out, train_variant d i = Ok out) variants outs →
  train_cell d = Done (train_rul <$> outs).
Proof. intros Hall. unfold train_cell. by rewrite (for_append_all _ _ _ _ Hall). Qed.

(** ** Labelling *)


(** C2, in the arithmetic of pandas: test labelling keeps every record, in
    place, and gives the record of run [id r] at cycle [cycle r] the
    label [max_cycle + true_rul - cycle r], where [max_cycle] is the
    largest cycle among the records of the run and [true_rul] is the
    entry of the reference file at position [id r], counted from 1.  The
    label is computed in int64 when every run of the series has a
    reference value and in float64 otherwise; it is
    [max_cycle + true_rul - cycle r] itself when the cycle and the
    reference value are not negative and [max_cycle + true_rul] is below
    [2^53]. *)
Theorem test_rul_label (df_rul : list Z) (df : frame num unit)
    (i : nat) (r : row num unit) (true_rul : Z) :
  df !! i = Some r →
  reference_of df_rul (id r) = Some true_rul →
  length (test_rul df_rul df) = length df
  ∧ ∃ max_cycle,
      is_max_cycle df (id r) max_cycle
      ∧ test_rul df_rul df !! i
        = Some (Row (id r) (cycle r) (chans r)
                  (Some (if missing_reference df_rul df
                         then round64 (round64 (round64 max_cycle + round64 true_rul)
                                       - round64 (cycle r))
                         else wrap64 (wrap64 (max_cycle + true_rul) - cycle r))))
      ∧ (0 ≤ cycle r → 0 ≤ true_rul → max_cycle + true_rul < 2 ^ 53 →
         test_rul df_rul df !! i
         = Some (Row (id r) (cycle r) (chans r)
                   (Some (max_cycle + true_rul - cycle r)))).
Proof.
  intros Hi Hrul. rewrite test_rul_rows, length_fmap. split; [done|].
  assert (r ∈ df) as Hr by (by eapply list_elem_of_lookup_2).
  destruct (group_max_is_Some df r Hr) as [m Hm].
  pose proof (proj1 (group_max_Some df _ _) Hm) as [_ Hle].
  exists m. split; [by apply group_max_Some|].
  rewrite list_lookup_fmap, Hi; simpl; rewrite Hm, Hrul.
  split.
  - unfold test_label. by destruct (missing_reference df_rul df).
  - intros Hc Ht Hsmall. rewrite test_label_exact; [done | | done..].
    specialize (Hle r Hr eq_refl). lia.
Qed.


(** C10: the train labels do not depend on the order of the rows: when
    [df'] holds the rows of [df] in another order, a record has the same
    labelled row in both, wherever it stands, and the labelled frames hold
    the same rows. *)
Theorem train_rul_order_independent (df df' : frame num unit) :
  df ≡ₚ df' →
  train_rul df ≡ₚ train_rul df'
  ∧ ∀ i j r, df !! i = Some r → df' !! j = Some r →
             train_rul df !! i = train_rul df' !! j.
Proof.
  intros Hperm. rewrite !train_rul_rows.
  rewrite <- (group_max_Permutation df df' Hperm). split.
  - by apply fmap_Permutation.
  - intros i j r Hi Hj. by rewrite !list_lookup_fmap, Hi, Hj.
Qed.

(** C4, as the notebook has it: a run of the series without an entry in
    the reference file raises nothing.  The variant is labelled and
    normalised all the same, every record kept in place, and the records
    of that run have no label (NaN). *)
Theorem test_variant_missing_reference (d : data_folder num)
    (i : nat) (df : frame num unit) (df_rul : list Z) (k : nat) (r : row num unit) :
  test_FD d i = Ok df → RUL_FD d i = Ok df_rul →
  df !! k = Some r → reference_of df_rul (id r) = None →
  ∃ out r',
    test_variant d i = Ok out
    ∧ length out = length df
    ∧ out !! k = Some r'
    ∧ id r' = id r ∧ cycle r' = cycle r ∧ ext r' = None.
Proof.
  intros Hdf Hrul Hk Hnone. unfold test_variant. rewrite Hdf, Hrul. simpl.
  eexists _, _. split; [done|].
  rewrite normalize_length, normalize_lookup, test_rul_rows, length_fmap.
  rewrite list_lookup_fmap, Hk. simpl. rewrite Hnone.
  repeat split. apply test_label_None.
Qed.


End Frame_properties.

(** ** The statistics of a channel *)

Section Ordered_channels.
Context {num : Type} `{Ordered num}.
Set Default Proof Using "All".

Lemma nleb_refl (a : num) : nisnan a = false → nleb a a = true.
Proof. intros Ha. by destruct (nleb_total a a Ha Ha). Qed.

Lemma nmin_spec (a b : num) :
  nisnan a = false → nisnan b = false →
  (nmin a b = a ∨ nmin a b = b)
  ∧ nleb (nmin a b) a = true ∧ nleb (nmin a b) b = true.
Proof.
  intros Ha Hb. unfold nmin. destruct (nleb a b) eqn:Hab.
  - split; [by left|]. split; [by apply nleb_refl | done].
  - destruct (nleb_total a b Ha Hb) as [?|Hba]; [congruence|].
    split; [by right|]. split; [done | by apply nleb_refl].
Qed.

Lemma nmax_spec (a b : num) :
  nisnan a = false → nisnan b = false →
  (nmax a b = a ∨ nmax a b = b)
  ∧ nleb a (nmax a b) = true ∧ nleb b (nmax a b) = true.
Proof.
  intros Ha Hb. unfold nmax. destruct (nleb a b) eqn:Hab.
  - split; [by right|]. split; [done | by apply nleb_refl].
  - destruct (nleb_total a b Ha Hb) as [?|Hba]; [congruence|].
    split; [by left|]. split; [by apply nleb_refl | done].
Qed.

Lemma foldl_nmin (x : num) (xs : list num) :
  (∀ y, y ∈ x :: xs → nisnan y = false) →
  foldl nmin x xs ∈ x :: xs
  ∧ ∀ y, y ∈ x :: xs → nleb (foldl nmin x xs) y = true.
Proof.
  revert x. induction xs as [|z xs IH]; intros x Hnan; simpl.
  - split; [left|]. intros y ->%list_elem_of_singleton. apply nleb_refl, Hnan. left.
  - assert (nisnan x = false) as Hx by (apply Hnan; left).
    assert (nisnan z = false) as Hz by (apply Hnan; right; left).
    destruct (nmin_spec x z Hx Hz) as (Hcases & Hlex & Hlez).
    assert (nisnan (nmin x z) = false) as Hxz by (by destruct Hcases as [-> | ->]).
    destruct (IH (nmin x z)) as [Hin Hle].
    { intros y [->|Hy]%elem_of_cons; [done|]. apply Hnan. by do 2 right. }
    set (m := foldl nmin (nmin x z) xs) in *. clearbody m.
    assert (nisnan m = false) as Hm.
    { apply elem_of_cons in Hin as [->|Hin]; [done|]. apply Hnan. by do 2 right. }
    assert (nleb m (nmin x z) = true) as Hmxz by (apply Hle; left).
    split.
    + apply elem_of_cons in Hin as [->|Hin]; [|by do 2 right].
      destruct Hcases as [-> | ->]; [left | right; left].
    + intros y [->|[->|Hy]%elem_of_cons]%elem_of_cons.
      * by apply (nleb_trans m (nmin x z) x).
      * by apply (nleb_trans m (nmin x z) z).
      * apply Hle. by right.
Qed.

Lemma foldl_nmax (x : num) (xs : list num) :
  (∀ y, y ∈ x :: xs → nisnan y = false) →
  foldl nmax x xs ∈ x :: xs
  ∧ ∀ y, y ∈ x :: xs → nleb y (foldl nmax x xs) = true.
Proof.
  revert x. induction xs as [|z xs IH]; intros x Hnan; simpl.
  - split; [left|]. intros y ->%list_elem_of_singleton. apply nleb_refl, Hnan. left.
  - assert (nisnan x = false) as Hx by (apply Hnan; left).
    assert (nisnan z = false) as Hz by (apply Hnan; right; left).
    destruct (nmax_spec x z Hx Hz) as (Hcases & Hlex & Hlez).
    assert (nisnan (nmax x z) = false) as Hxz by (by destruct Hcases as [-> | ->]).
    destruct (IH (nmax x z)) as [Hin Hle].
    { intros y [->|Hy]%elem_of_cons; [done|]. apply Hnan. by do 2 right. }
    set (m := foldl nmax (nmax x z) xs) in *. clearbody m.
    assert (nisnan m = false) as Hm.
    { apply elem_of_cons in Hin as [->|Hin]; [done|]. apply Hnan. by do 2 right. }
    assert (nleb (nmax x z) m = true) as Hmxz by (apply Hle; left).
    split.
    + apply elem_of_cons in Hin as [->|Hin]; [|by do 2 right].
      destruct Hcases as [-> | ->]; [left | right; left].
    + intros y [->|[->|Hy]%elem_of_cons]%elem_of_cons.
      * by apply (nleb_trans x (nmax x z) m).
      * by apply (nleb_trans z (nmax x z) m).
      * apply Hle. by right.
Qed.

(** The statistics of a channel that holds a number in some row: the
    least and the greatest of its numbers. *)
Lemma column_statistics {E} (df : frame num E) (j : nat) (r : row num E) (v : num) :
  r ∈ df → chans r !! j = Some v → nisnan v = false →
  ∃ lo hi, col_min (column j df) = Some lo ∧ col_max (column j df) = Some hi
           ∧ channel_min df j lo ∧ channel_max df j hi.
Proof.
  intros Hr Hv Hnan. unfold col_min, col_max.
  assert (v ∈ filter (λ x, nisnan x = false) (column j df)) as Hcol.
  { apply list_elem_of_filter. split; [done|]. apply elem_of_column. eauto. }
  destruct (filter (λ x, nisnan x = false) (column j df)) as [|x xs] eqn:Hxs;
    [by apply elem_of_nil in Hcol|].
  assert (∀ y, y ∈ x :: xs ↔ nisnan y = false ∧ ∃ r, r ∈ df ∧ chans r !! j = Some y)
    as Hmem.
  { intros y. by rewrite <- Hxs, list_elem_of_filter, elem_of_column. }
  destruct (foldl_nmin x xs) as [Hmin_in Hmin_le]; [intros y Hy; by apply Hmem|].
  destruct (foldl_nmax x xs) as [Hmax_in Hmax_le]; [intros y Hy; by apply Hmem|].
  apply Hmem in Hmin_in as [Hmin_nan Hmin_row].
  apply Hmem in Hmax_in as [Hmax_nan Hmax_row].
  exists (foldl nmin x xs), (foldl nmax x xs).
  split; [done|]. split; [done|]. split.
  - split; [done|]. split; [done|]. intros r' y Hr' Hy Hynan.
    apply Hmin_le, Hmem. eauto.
  - split; [done|]. split; [done|]. intros r' y Hr' Hy Hynan.
    apply Hmax_le, Hmem. eauto.
Qed.

(** The statistics of a channel that holds only NaN. *)
Lemma column_statistics_nan {E} (df : frame num E) (j : nat) :
  (∀ r x, r ∈ df → chans r !! j = Some x → nisnan x = true) →
  col_min (column j df) = None ∧ col_max (column j df) = None.
Proof.
  intros Hnan. unfold col_min, col_max.
  destruct (filter (λ x, nisnan x = false) (column j df)) as [|x xs] eqn:Hxs; [done|].
  assert (x ∈ filter (λ x, nisnan x = false) (column j df)) as Hx
    by (rewrite Hxs; left).
  apply list_elem_of_filter in Hx as [Hx (r & Hr & Hv)%elem_of_column].
  rewrite (Hnan r x Hr Hv) in Hx. done.
Qed.

(** The cell of row [i] and channel [j] after normalisation. *)
Lemma normalize_cell {E} (df : frame num E) (i j : nat) (v : num) :
  cell df i j = Some v →
  (∃ lo hi,
      channel_min df j lo ∧ channel_max df j hi
      ∧ cell (normalize df) i j = Some (scale lo hi v))
  ∨ ((∀ r x, r ∈ df → chans r !! j = Some x → nisnan x = true)
     ∧ cell (normalize df) i j = Some v).
Proof.
  intros (r & Hi & Hv)%cell_Some.
  assert (cell (normalize df) i j = Some (scale_cell df j v)) as Hcell.
  { apply cell_Some. eexists. rewrite normalize_lookup, Hi. split; [done|]. simpl.
    by rewrite list_lookup_imap, Hv. }
  rewrite Hcell. unfold scale_cell.
  destruct (filter (λ x, nisnan x = false) (column j df)) as [|x xs] eqn:Hxs.
  - right.
    assert (∀ r x, r ∈ df → chans r !! j = Some x → nisnan x = true) as Hnan.
    { intros r' x Hr' Hx. destruct (nisnan x) eqn:Hxnan; [done|].
      assert (x ∈ filter (λ x, nisnan x = false) (column j df)) as Hin.
      { apply list_elem_of_filter. split; [done|]. apply elem_of_column. eauto. }
      rewrite Hxs in Hin. by apply elem_of_nil in Hin. }
    split; [done|]. destruct (column_statistics_nan df j Hnan) as [Hmin _].
    by rewrite Hmin.
  - left.
    assert (x ∈ filter (λ x, nisnan x = false) (column j df)) as Hx
      by (rewrite Hxs; left).
    apply list_elem_of_filter in Hx as [Hx (r' & Hr' & Hv')%elem_of_column].
    destruct (column_statistics df j r' x Hr' Hv' Hx)
      as (lo & hi & -> & -> & Hmin & Hmax).
    by exists lo, hi.
Qed.

End Ordered_channels.

Set Default Proof Using "Type".

(** ** The order of binary64 *)

Lemma SFleb_key (x y : spec_float) :
  x ≠ S754_nan → y ≠ S754_nan →
  (SFleb x y = true ↔ key_le (SFkey x) (SFkey y)).
Proof.
  intros Hx Hy. unfold SFleb, key_le.
  destruct x as [sx|[]| |[] mx ex], y as [sy|[]| |[] my ey]; simpl; try done;
    try (split; [intros _; lia | done]); try (split; [done | intros ?; lia]).
  all: rewrite ?Pos.compare_cont_spec; simpl.
  all: destruct (Z.compare_spec ex ey); simpl;
       try (split; [intros _; lia | done]); try (split; [done | intros ?; lia]).
  all: destruct (Pos.compare_spec mx my); simpl;
       try (split; [intros _; lia | done]); try (split; [done | intros ?; lia]).
Qed.

Lemma SFeqb_key (x y : spec_float) :
  x ≠ S754_nan → y ≠ S754_nan →
  (SFeqb x y = true ↔ SFkey x = SFkey y).
Proof.
  intros Hx Hy. unfold SFeqb.
  destruct x as [sx|[]| |[] mx ex], y as [sy|[]| |[] my ey]; simpl; try done.
  all: rewrite ?Pos.compare_cont_spec; simpl.
  all: destruct (Z.compare_spec ex ey); simpl;
       try (split; [done | intros [=]; lia]).
  all: destruct (Pos.compare_spec mx my); simpl;
       try (split; [done | intros [=]; lia]); try (split; [intros _; by subst | done]).
Qed.

Lemma SFkey_inj (x y : spec_float) :
  x ≠ S754_nan → y ≠ S754_nan → SFkey x = SFkey y →
  x = y ∨ ∃ s s', x = S754_zero s ∧ y = S754_zero s'.
Proof.
  intros Hx Hy.
  destruct x as [sx|[]| |[] mx ex], y as [sy|[]| |[] my ey]; simpl; try done;
    try (right; by eauto); try (by left).
  - intros [= He Hm]. left. assert (ex = ey) as -> by lia. by subst.
  - intros [= He Hm]. left. by subst.
Qed.

Lemma key_le_antisym (a b : Z * Z * Z) : key_le a b → key_le b a → a = b.
Proof.
  unfold key_le. destruct a as [[a1 a2] a3], b as [[b1 b2] b3]. simpl.
  intros Hab Hba. repeat f_equal; lia.
Qed.

(** ** Rounding to nearest in binary64 *)

(** The operations of binary64 are specified by the algorithms of
    [SpecFloat].  What follows shows that their rounding is [RN], which
    is plain arithmetic, and that [RN] keeps the order. *)

Lemma digits2_pos_log2 (m : positive) :
  Z.pos (digits2_pos m) = Z.log2 (Z.pos m) + 1.
Proof.
  assert (∀ p, digits2_pos p = Pos.size p) as Hsize
    by (intros p; induction p; simpl; congruence).
  destruct m; simpl; rewrite ?Hsize; lia.
Qed.

Lemma iter_pos_iter {A} (f : A → A) (p : positive) (x : A) :
  iter_pos f p x = Pos.iter f x p.
Proof.
  revert x. induction p as [p IH|p IH|]; intros x; simpl; [|by rewrite !IH|done].
  rewrite !IH. by rewrite !Pos.iter_swap.
Qed.

Lemma iter_pos_nat {A} (f : A → A) (p : positive) (x : A) :
  iter_pos f p x = Nat.iter (Pos.to_nat p) f x.
Proof. rewrite iter_pos_iter. apply Pos2Nat.inj_iter. Qed.

(** One step of [shr_1] on a mantissa that is not negative. *)
Lemma shr_1_spec (m : Z) (r s : bool) :
  0 ≤ m →
  shr_1 (Build_shr_record m r s) = Build_shr_record (m / 2) (Z.odd m) (r || s).
Proof.
  intros Hm. rewrite <- Z.div2_div.
  destruct m as [|[p|p|]|p]; simpl; try done; lia.
Qed.

Lemma shr_m_iter (n : nat) (mrs : shr_record) :
  0 ≤ shr_m mrs →
  shr_m (Nat.iter n shr_1 mrs) = shr_m mrs / 2 ^ Z.of_nat n.
Proof.
  intros Hm. induction n as [|n IH].
  - simpl. by rewrite Z.div_1_r.
  - rewrite Nat2Z.inj_succ, Z.pow_succ_r by lia. simpl.
    destruct (Nat.iter n shr_1 mrs) as [m r s] eqn:Hit. simpl in IH.
    assert (0 ≤ m) by (subst m; apply Z.div_pos; lia).
    rewrite shr_1_spec by done. simpl. subst m.
    rewrite Z.div_div by lia. f_equal. lia.
Qed.

(** [n] steps of [shr_1] from a mantissa without round and sticky bits. *)
Lemma shr_iter_exact (n : nat) (m : Z) :
  0 ≤ m →
  let H := 2 ^ Z.of_nat n in
  let rem := m mod H in
  Nat.iter n shr_1 (Build_shr_record m false false)
  = Build_shr_record (m / H) (H <=? 2 * rem)
      (negb (rem =? 0) && negb (2 * rem =? H)).
Proof.
  intros Hm. induction n as [|n IH]; cbv zeta in *.
  - simpl. rewrite Z.div_1_r, Z.mod_1_r. done.
  - rewrite Nat2Z.inj_succ, Z.pow_succ_r by lia.
    set (H := 2 ^ Z.of_nat n) in *.
    assert (0 < H) as HH by (apply Z.pow_pos_nonneg; lia).
    change (Nat.iter (S n) shr_1 ?x) with (shr_1 (Nat.iter n shr_1 x)).
    rewrite IH, shr_1_spec by (apply Z.div_pos; lia).
    pose proof (Z.mod_pos_bound m H HH) as Hrem.
    rewrite (Z.mul_comm 2 H), Z.rem_mul_r by lia.
    rewrite <- (Z.div_div m H 2) by lia.
    rewrite (Zmod_odd (m / H)).
    f_equal.
    + destruct (Z.odd (m / H)); symmetry;
        [apply Z.leb_le | apply Z.leb_gt]; lia.
    + destruct (Z.odd (m / H));
        repeat match goal with
               | |- context [?a <=? ?b] => destruct (Z.leb_spec a b)
               | |- context [?a =? ?b] => destruct (Z.eqb_spec a b)
               end; simpl; try done; lia.
Qed.

Lemma round_shr_exact (m' H rem : Z) :
  0 < H → 0 ≤ rem < H →
  round_nearest_even m'
    (loc_of_shr_record
       (Build_shr_record m' (H <=? 2 * rem)
          (negb (rem =? 0) && negb (2 * rem =? H))))
  = if rn_up H rem m' then m' + 1 else m'.
Proof.
  intros HH Hrem. unfold rn_up, round_nearest_even, loc_of_shr_record.
  rewrite <- Z.negb_even.
  repeat match goal with
         | |- context [?a <=? ?b] => destruct (Z.leb_spec a b)
         | |- context [?a <? ?b] => destruct (Z.ltb_spec a b)
         | |- context [?a =? ?b] => destruct (Z.eqb_spec a b)
         end; simpl; try lia; try done.
  all: by destruct (Z.even m').
Qed.

Lemma shr_exact (m e k : Z) :
  0 ≤ m → 0 ≤ k →
  shr (Build_shr_record m false false) e k
  = (Build_shr_record (m / 2 ^ k) (2 ^ k <=? 2 * (m mod 2 ^ k))
       (negb (m mod 2 ^ k =? 0) && negb (2 * (m mod 2 ^ k) =? 2 ^ k)),
     e + k).
Proof.
  intros Hm Hk. unfold shr. destruct k as [|k|k]; [| |lia].
  - rewrite Z.add_0_r. simpl. by rewrite Z.div_1_r, Z.mod_1_r.
  - rewrite iter_pos_nat, shr_iter_exact by done.
    by rewrite positive_nat_Z.
Qed.

Lemma fexp64 (x : Z) : fexp prec emax x = Z.max (x - 53) (-1074).
Proof. reflexivity. Qed.

Lemma Zdigits2_log2 (z : Z) : 0 < z → Zdigits2 z = Z.log2 z + 1.
Proof. destruct z as [|p|p]; [lia| |lia]. intros _. apply digits2_pos_log2. Qed.

Lemma rn_up_scale (H rem m' c : Z) :
  0 < c → rn_up (H * c) (rem * c) m' = rn_up H rem m'.
Proof.
  intros Hc. unfold rn_up.
  repeat match goal with
         | |- context [?a <? ?b] => destruct (Z.ltb_spec a b)
         | |- context [?a =? ?b] => destruct (Z.eqb_spec a b)
         end; simpl; try done; nia.
Qed.

Lemma binary_round_aux_exact (m : positive) (e : Z) :
  -1074 ≤ e →
  0 ≤ fexp prec emax (Z.pos (digits2_pos m) + e) - e →
  binary_round_aux prec emax false (Z.pos m) e loc_Exact
  = RN (Z.pos m * 2 ^ (e + 1074)).
Proof.
  intros He Hk.
  pose proof (digits2_pos_log2 m) as Hd.
  pose proof (Z.log2_spec (Z.pos m) ltac:(lia)) as Hlog.
  set (d := Z.pos (digits2_pos m)) in *.
  set (k := fexp prec emax (d + e) - e) in *.
  assert (0 < 2 ^ k) as H2k by (apply Z.pow_pos_nonneg; lia).
  assert (0 < 2 ^ (e + 1074)) as H2e by (apply Z.pow_pos_nonneg; lia).
  (* the side of [RN] *)
  unfold RN, rn_pair, rn_round, rn_K.
  rewrite Z.log2_mul_pow2 by lia.
  assert (Z.max (e + 1074 + Z.log2 (Z.pos m) - 52) 0 = k + (e + 1074)) as ->.
  { unfold k. rewrite fexp64. lia. }
  rewrite Z.pow_add_r by lia.
  rewrite Z.div_mul_cancel_r by lia.
  rewrite Z.mul_mod_distr_r by lia.
  rewrite rn_up_scale by lia.
  (* the side of the algorithm *)
  unfold binary_round_aux, shr_fexp.
  change (Zdigits2 (Z.pos m)) with d. fold k.
  change (shr_record_of_loc (Z.pos m) loc_Exact)
    with (Build_shr_record (Z.pos m) false false).
  rewrite shr_exact by lia.
  pose proof (Z.mod_pos_bound (Z.pos m) (2 ^ k) H2k) as Hrem.
  cbn [shr_m]. rewrite round_shr_exact by lia.
  change (shr_record_of_loc ?x loc_Exact) with (Build_shr_record x false false).
  destruct (decide (k = 0)) as [Hk0|Hk0].
  - (* no shift: the mantissa is in place *)
    assert (d ≤ 53) as Hd53 by (unfold k in Hk0; rewrite fexp64 in Hk0; lia).
    assert (Z.pos m < 2 ^ 53) as Hm53.
    { eapply Z.lt_le_trans; [apply Hlog|]. apply Z.pow_le_mono_r; lia. }
    rewrite Hk0. change (2 ^ 0) with 1. rewrite Z.div_1_r, Z.mod_1_r.
    change (rn_up 1 0 (Z.pos m)) with false. cbv iota.
    change (Zdigits2 (Z.pos m)) with d. rewrite Z.add_0_r. fold k. rewrite Hk0.
    rewrite shr_exact by lia. change (2 ^ 0) with 1. rewrite Z.div_1_r.
    cbn [shr_m]. destruct (Z.leb_spec (2 ^ 53) (Z.pos m)) as [?|_]; [lia|].
    cbn [fst snd]. rewrite Z.add_0_r. replace (0 + (e + 1074) - 1074) with e by lia. done.
  - (* a shift by [k = d - 53] *)
    assert (k = d - 53) as Hkd by (unfold k in *; rewrite fexp64 in *; lia).
    set (m' := Z.pos m / 2 ^ k) in *.
    assert (2 ^ 52 ≤ m' < 2 ^ 53) as Hm'.
    { split.
      - apply Z.div_le_lower_bound; [lia|].
        rewrite <- Z.pow_add_r by lia. replace (k + 52) with (Z.log2 (Z.pos m)) by lia.
        apply Hlog.
      - apply Z.div_lt_upper_bound; [lia|].
        rewrite <- Z.pow_add_r by lia. replace (k + 53) with (Z.succ (Z.log2 (Z.pos m))) by lia.
        apply Hlog. }
    set (m1 := if rn_up (2 ^ k) (Z.pos m mod 2 ^ k) m' then m' + 1 else m').
    assert (2 ^ 52 ≤ m1 ≤ 2 ^ 53) as Hm1 by (unfold m1; destruct (rn_up _ _ _); lia).
    destruct (Z.leb_spec (2 ^ 53) m1) as [Hcarry|Hnocarry].
    + assert (m1 = 2 ^ 53) as -> by lia.
      change (Zdigits2 (2 ^ 53)) with 54.
      assert (fexp prec emax (54 + (e + k)) - (e + k) = 1) as ->
        by (rewrite fexp64; lia).
      rewrite shr_exact by lia. cbn [shr_m].
      change (2 ^ 53 / 2 ^ 1) with (2 ^ 52). change (2 ^ 53 / 2) with (2 ^ 52).
      cbn [fst snd].
      replace (k + (e + 1074) + 1 - 1074) with (e + k + 1) by lia. done.
    + assert (Z.log2 m1 = 52) as Hlog1 by (apply Z.log2_unique; lia).
      rewrite Zdigits2_log2, Hlog1 by lia.
      assert (fexp prec emax (52 + 1 + (e + k)) - (e + k) = 0) as ->
        by (rewrite fexp64; lia).
      rewrite shr_exact by lia. change (2 ^ 0) with 1. rewrite Z.div_1_r.
      cbn [shr_m fst snd]. rewrite Z.add_0_r.
      replace (k + (e + 1074) - 1074) with (e + k) by lia.
      clearbody m1. destruct m1 as [|mm|mm]; [lia | done | lia].
Qed.

Lemma iter_xO (m d : positive) : Z.pos (Pos.iter xO m d) = Z.pos m * 2 ^ Z.pos d.
Proof.
  rewrite Pos2Nat.inj_iter, <- (positive_nat_Z d).
  induction (Pos.to_nat d) as [|n IH]; [simpl; lia|].
  rewrite Nat2Z.inj_succ, Z.pow_succ_r by lia. simpl.
  rewrite Pos2Z.inj_xO, IH. lia.
Qed.

Lemma shl_align_fst (m : positive) (e e' : Z) :
  e' ≤ e → Z.pos (fst (shl_align m e e')) = Z.pos m * 2 ^ (e - e').
Proof.
  intros He. unfold shl_align. destruct (e' - e) as [|d|d] eqn:Hd; simpl.
  - replace (e - e') with 0 by lia. lia.
  - lia.
  - rewrite iter_xO. do 2 f_equal. lia.
Qed.

Lemma binary_round_RN (m : positive) (e : Z) :
  -1074 ≤ e →
  binary_round prec emax false m e = RN (Z.pos m * 2 ^ (e + 1074)).
Proof.
  intros He. unfold binary_round.
  pose proof (digits2_pos_log2 m) as Hd.
  set (d := Z.pos (digits2_pos m)) in *.
  set (E := fexp prec emax (d + e)).
  assert (-1074 ≤ E) as HE by (unfold E; rewrite fexp64; lia).
  destruct (Z.le_gt_cases e E) as [HeE|HeE].
  - assert (shl_align m e E = (m, e)) as ->.
    { unfold shl_align. destruct (E - e) eqn:?; [done | done | lia]. }
    apply binary_round_aux_exact; [done|]. fold d. fold E. lia.
  - pose proof (shl_align_fst m e E ltac:(lia)) as Hfst.
    assert (snd (shl_align m e E) = E) as Hsnd.
    { unfold shl_align. destruct (E - e) eqn:?; [lia | lia | done]. }
    destruct (shl_align m e E) as [mz ez]. simpl in Hfst, Hsnd. subst ez.
    assert (0 < 2 ^ (e - E)) by (apply Z.pow_pos_nonneg; lia).
    rewrite binary_round_aux_exact.
    + f_equal. rewrite Hfst, <- Z.mul_assoc, <- Z.pow_add_r by lia.
      do 2 f_equal. lia.
    + done.
    + rewrite digits2_pos_log2, Hfst, Z.log2_mul_pow2 by lia.
      replace (e - E + Z.log2 (Z.pos m) + 1 + E) with (d + e) by lia.
      fold E. lia.
Qed.

Lemma rn_K_nonneg (z : Z) : 0 ≤ rn_K z.
Proof. unfold rn_K. lia. Qed.

Lemma rn_round_bounds (z : Z) :
  0 < z →
  (rn_K z = 0 → rn_round z = z ∧ z < 2 ^ 53)
  ∧ (0 < rn_K z → 2 ^ 52 ≤ rn_round z ≤ 2 ^ 53).
Proof.
  intros Hz. pose proof (Z.log2_spec z Hz) as Hlog. unfold rn_round. split.
  - intros HK. rewrite HK. change (2 ^ 0) with 1.
    rewrite Z.div_1_r, Z.mod_1_r. change (rn_up 1 0 z) with false.
    split; [done|]. apply Z.log2_lt_pow2; [done|]. unfold rn_K in HK. lia.
  - intros HK. assert (rn_K z = Z.log2 z - 52) as HKz by (unfold rn_K in *; lia).
    assert (0 < 2 ^ rn_K z) by (apply Z.pow_pos_nonneg; lia).
    assert (2 ^ 52 ≤ z / 2 ^ rn_K z < 2 ^ 53) as Hm'.
    { split.
      - apply Z.div_le_lower_bound; [lia|].
        rewrite <- Z.pow_add_r by lia.
        replace (rn_K z + 52) with (Z.log2 z) by lia. apply Hlog.
      - apply Z.div_lt_upper_bound; [lia|].
        rewrite <- Z.pow_add_r by lia.
        replace (rn_K z + 53) with (Z.succ (Z.log2 z)) by lia. apply Hlog. }
    destruct (rn_up _ _ _); lia.
Qed.

Lemma rn_round_mono (z1 z2 : Z) :
  0 < z1 ≤ z2 → rn_K z1 = rn_K z2 → rn_round z1 ≤ rn_round z2.
Proof.
  intros Hz HK. unfold rn_round. rewrite <- HK.
  set (H := 2 ^ rn_K z1).
  assert (0 < H) as HH by (apply Z.pow_pos_nonneg, rn_K_nonneg; lia).
  pose proof (Z.div_mod z1 H ltac:(lia)) as Hz1.
  pose proof (Z.div_mod z2 H ltac:(lia)) as Hz2.
  pose proof (Z.mod_pos_bound z1 H HH) as Hr1.
  pose proof (Z.mod_pos_bound z2 H HH) as Hr2.
  assert (z1 / H ≤ z2 / H) as Hdiv by (apply Z.div_le_mono; lia).
  destruct (decide (z1 / H = z2 / H)) as [Heq|Hne].
  - rewrite <- Heq in *. assert (z1 mod H ≤ z2 mod H) as Hrem by nia.
    unfold rn_up.
    repeat match goal with
           | |- context [?a <? ?b] => destruct (Z.ltb_spec a b)
           | |- context [?a =? ?b] => destruct (Z.eqb_spec a b)
           end; simpl; try lia; destruct (Z.odd (z1 / H)); lia.
  - do 2 destruct (rn_up _ _ _); lia.
Qed.

Lemma rn_pair_spec (z : Z) :
  0 < z →
  0 ≤ (rn_pair z).1 ∧ 0 < (rn_pair z).2 < 2 ^ 53
  ∧ (0 < (rn_pair z).1 → 2 ^ 52 ≤ (rn_pair z).2).
Proof.
  intros Hz. destruct (rn_round_bounds z Hz) as [H0 Hpos].
  pose proof (rn_K_nonneg z) as HK. unfold rn_pair.
  destruct (Z.leb_spec (2 ^ 53) (rn_round z)) as [Hcarry|Hno]; cbn [fst snd].
  - assert (rn_round z = 2 ^ 53) as -> by lia.
    change (2 ^ 53 / 2) with (2 ^ 52). lia.
  - destruct (decide (rn_K z = 0)) as [HK0|HK0]; [|lia].
    destruct (H0 HK0) as [-> ?]. lia.
Qed.

Lemma rn_pair_mono (z1 z2 : Z) :
  0 < z1 ≤ z2 → lex_le (rn_pair z1) (rn_pair z2).
Proof.
  intros Hz.
  assert (rn_K z1 ≤ rn_K z2) as HK.
  { unfold rn_K. pose proof (Z.log2_le_mono z1 z2 ltac:(lia)). lia. }
  destruct (rn_round_bounds z1 ltac:(lia)) as [H10 H1pos].
  destruct (rn_round_bounds z2 ltac:(lia)) as [H20 H2pos].
  pose proof (rn_K_nonneg z1) as HK1.
  unfold lex_le, rn_pair.
  destruct (decide (rn_K z1 = rn_K z2)) as [Heq|Hlt].
  - pose proof (rn_round_mono z1 z2 Hz Heq) as Hmono.
    assert (rn_round z1 ≤ 2 ^ 53 ∧ rn_round z2 ≤ 2 ^ 53) as [Hb1 Hb2].
    { destruct (decide (rn_K z1 = 0)) as [HK0|HK0].
      - destruct (H10 HK0) as [-> ?]. rewrite Heq in HK0.
        destruct (H20 HK0) as [-> ?]. lia.
      - split; [apply H1pos | apply H2pos]; lia. }
    destruct (Z.leb_spec (2 ^ 53) (rn_round z1)), (Z.leb_spec (2 ^ 53) (rn_round z2));
      cbn [fst snd]; try lia.
    assert (rn_round z1 = 2 ^ 53) as -> by lia.
    assert (rn_round z2 = 2 ^ 53) as -> by lia. lia.
  - assert (0 < rn_K z2) as HK2 by lia. specialize (H2pos HK2).
    assert (rn_round z1 ≤ 2 ^ 53) as Hb1.
    { destruct (decide (rn_K z1 = 0)) as [HK0|HK0].
      - destruct (H10 HK0) as [-> ?]. lia.
      - apply H1pos. lia. }
    destruct (Z.leb_spec (2 ^ 53) (rn_round z1)), (Z.leb_spec (2 ^ 53) (rn_round z2));
      cbn [fst snd]; try lia.
    assert (rn_round z1 = 2 ^ 53) as -> by lia. change (2 ^ 53 / 2) with (2 ^ 52). lia.
Qed.

(** [RN] of a positive number: a positive number, or infinity. *)
Lemma RN_cases (z : Z) :
  0 < z →
  (∃ m, (rn_pair z).2 = Z.pos m ∧ (rn_pair z).1 - 1074 ≤ 971
        ∧ RN z = S754_finite false m ((rn_pair z).1 - 1074))
  ∨ (971 < (rn_pair z).1 - 1074 ∧ RN z = S754_infinity false).
Proof.
  intros Hz. destruct (rn_pair_spec z Hz) as (HK & Hm & _). unfold RN.
  destruct ((rn_pair z).2) as [|m|m]; [lia| |lia].
  destruct (Z.leb_spec ((rn_pair z).1 - 1074) 971); [left | right]; eauto.
Qed.

Lemma RN_mono (z1 z2 : Z) :
  0 < z1 ≤ z2 → key_le (SFkey (RN z1)) (SFkey (RN z2)).
Proof.
  intros Hz. pose proof (rn_pair_mono z1 z2 Hz) as Hlex. unfold lex_le in Hlex.
  destruct (RN_cases z1 ltac:(lia)) as [(m1 & Hm1 & Hb1 & ->)|[Hb1 ->]],
           (RN_cases z2 ltac:(lia)) as [(m2 & Hm2 & Hb2 & ->)|[Hb2 ->]];
    unfold key_le; simpl; lia.
Qed.

(** A positive number of binary64 is its own rounding. *)
Lemma valid_finite (s : bool) (m : positive) (e : Z) :
  valid_binary (S754_finite s m e) = true →
  e = Z.max (Z.log2 (Z.pos m) + 1 + e - 53) (-1074) ∧ e ≤ 971.
Proof.
  intros Hvalid. unfold valid_binary, bounded, canonical_mantissa in Hvalid.
  apply andb_true_iff in Hvalid as [Hcan Hbound].
  apply Z.eqb_eq in Hcan. apply Z.leb_le in Hbound.
  rewrite fexp64, digits2_pos_log2 in Hcan. change (emax - prec) with 971 in Hbound.
  lia.
Qed.

Lemma RN_round_trip (m : positive) (e : Z) :
  valid_binary (S754_finite false m e) = true →
  RN (Z.pos m * 2 ^ (e + 1074)) = S754_finite false m e.
Proof.
  intros [Hcan Hbound]%valid_finite.
  assert (-1074 ≤ e) as He by lia.
  pose proof (Z.log2_spec (Z.pos m) ltac:(lia)) as Hlog.
  assert (0 < 2 ^ (e + 1074)) as H2e by (apply Z.pow_pos_nonneg; lia).
  assert (Z.pos m < 2 ^ 53) as Hm53.
  { eapply Z.lt_le_trans; [apply Hlog|]. apply Z.pow_le_mono_r; lia. }
  unfold RN, rn_pair, rn_round, rn_K.
  rewrite Z.log2_mul_pow2 by lia.
  assert (Z.max (e + 1074 + Z.log2 (Z.pos m) - 52) 0 = e + 1074) as -> by lia.
  rewrite Z.div_mul, Z.mod_mul by lia.
  assert (rn_up (2 ^ (e + 1074)) 0 (Z.pos m) = false) as ->.
  { unfold rn_up. destruct (Z.ltb_spec (2 ^ (e + 1074)) (2 * 0)); [lia|].
    destruct (Z.eqb_spec (2 * 0) (2 ^ (e + 1074))); [lia | done]. }
  destruct (Z.leb_spec (2 ^ 53) (Z.pos m)); [lia|]. cbn [fst snd].
  replace (e + 1074 - 1074) with e by lia.
  by destruct (Z.leb_spec e 971); [|lia].
Qed.

Lemma SFnum_finite_pos (m : positive) (e : Z) :
  -1074 ≤ e → 0 < Z.pos m * 2 ^ (e + 1074).
Proof. intros He. apply Z.mul_pos_pos; [lia|]. apply Z.pow_pos_nonneg; lia. Qed.

Lemma valid_emin (s : bool) (m : positive) (e : Z) :
  valid_binary (S754_finite s m e) = true → -1074 ≤ e.
Proof. intros [? ?]%valid_finite. lia. Qed.

Lemma positive_key_num (m1 m2 : positive) (e1 e2 : Z) :
  valid_binary (S754_finite false m1 e1) = true →
  valid_binary (S754_finite false m2 e2) = true →
  key_le (1, e1, Z.pos m1) (1, e2, Z.pos m2)
  ↔ Z.pos m1 * 2 ^ (e1 + 1074) ≤ Z.pos m2 * 2 ^ (e2 + 1074).
Proof.
  intros H1 H2.
  pose proof (SFnum_finite_pos m1 e1 (valid_emin _ _ _ H1)) as Hz1.
  pose proof (SFnum_finite_pos m2 e2 (valid_emin _ _ _ H2)) as Hz2.
  assert (∀ ma ea mb eb,
    valid_binary (S754_finite false ma ea) = true →
    valid_binary (S754_finite false mb eb) = true →
    Z.pos ma * 2 ^ (ea + 1074) ≤ Z.pos mb * 2 ^ (eb + 1074) →
    key_le (1, ea, Z.pos ma) (1, eb, Z.pos mb)) as Hmono.
  { intros ma ea mb eb Ha Hb Hle.
    pose proof (SFnum_finite_pos ma ea (valid_emin _ _ _ Ha)).
    pose proof (RN_mono _ _ (conj ltac:(done) Hle)) as Hkey.
    by rewrite !RN_round_trip in Hkey. }
  split; [|by apply Hmono].
  intros Hkey.
  destruct (Z.le_gt_cases (Z.pos m1 * 2 ^ (e1 + 1074)) (Z.pos m2 * 2 ^ (e2 + 1074)))
    as [?|Hgt]; [done|].
  pose proof (Hmono m2 e2 m1 e1 H2 H1 ltac:(lia)) as Hkey'.
  pose proof (key_le_antisym _ _ Hkey Hkey') as [= -> ->]. lia.
Qed.

(** For the numbers of binary64 the order of the keys is the order of
    the numbers. *)
Lemma key_le_num (x y : spec_float) :
  valid_binary x = true → valid_binary y = true →
  SFfinite x = true → SFfinite y = true →
  key_le (SFkey x) (SFkey y) ↔ SFnum x ≤ SFnum y.
Proof.
  intros Hx Hy Hfx Hfy.
  destruct x as [sx| | |sx mx ex], y as [sy| | |sy my ey]; try done.
  - unfold key_le; simpl; lia.
  - pose proof (SFnum_finite_pos my ey (valid_emin _ _ _ Hy)).
    destruct sy; unfold key_le; simpl; lia.
  - pose proof (SFnum_finite_pos mx ex (valid_emin _ _ _ Hx)).
    destruct sx; unfold key_le; simpl; lia.
  - pose proof (SFnum_finite_pos mx ex (valid_emin _ _ _ Hx)).
    pose proof (SFnum_finite_pos my ey (valid_emin _ _ _ Hy)).
    destruct sx, sy; simpl.
    + rewrite <- Z.opp_le_mono, <- (positive_key_num my mx ey ex) by done.
      unfold key_le; simpl; lia.
    + unfold key_le; simpl; lia.
    + unfold key_le; simpl; lia.
    + by apply positive_key_num.
Qed.

Lemma RNz_mono (z1 z2 : Z) :
  0 ≤ z1 ≤ z2 → key_le (SFkey (RNz z1)) (SFkey (RNz z2)).
Proof.
  intros Hz. unfold RNz.
  destruct (decide (0 < z1)), (decide (0 < z2)); try lia.
  - apply RN_mono. lia.
  - destruct (RN_cases z2 ltac:(lia)) as [(m2 & _ & _ & ->)|[_ ->]];
      unfold key_le; simpl; lia.
  - unfold key_le; simpl; lia.
Qed.

Lemma RNz_not_nan (z : Z) : RNz z ≠ S754_nan.
Proof.
  unfold RNz. destruct (decide (0 < z)) as [Hz|]; [|done].
  by destruct (RN_cases z Hz) as [(m & _ & _ & ->)|[_ ->]].
Qed.

Lemma RNz_nonneg (z : Z) : key_le (0, 0, 0) (SFkey (RNz z)).
Proof.
  unfold RNz. destruct (decide (0 < z)) as [Hz|]; [|unfold key_le; simpl; lia].
  destruct (RN_cases z Hz) as [(m & _ & _ & ->)|[_ ->]]; unfold key_le; simpl; lia.
Qed.

Lemma binary_normalize_RNz (M e : Z) :
  -1074 ≤ e → 0 ≤ M →
  binary_normalize prec emax M e false = RNz (M * 2 ^ (e + 1074)).
Proof.
  intros He HM. assert (0 < 2 ^ (e + 1074)) by (apply Z.pow_pos_nonneg; lia).
  unfold RNz. destruct M as [|p|p]; [| |lia].
  - by destruct (decide (0 < 0 * 2 ^ (e + 1074))); [lia|].
  - destruct (decide (0 < Z.pos p * 2 ^ (e + 1074))); [|lia].
    by apply binary_round_RN.
Qed.

Lemma cond_Zopp_mul (s : bool) (a b : Z) : cond_Zopp s a * b = cond_Zopp s (a * b).
Proof. destruct s; simpl; lia. Qed.

Lemma aligned_num (s : bool) (m : positive) (e ez : Z) :
  -1074 ≤ ez ≤ e →
  cond_Zopp s (Z.pos (fst (shl_align m e ez))) * 2 ^ (ez + 1074)
  = SFnum (S754_finite s m e).
Proof.
  intros He. rewrite shl_align_fst by lia. simpl.
  rewrite cond_Zopp_mul. f_equal. rewrite <- Z.mul_assoc, <- Z.pow_add_r by lia.
  do 2 f_equal. lia.
Qed.

(** A difference that is not negative is the rounding of the exact
    difference, but for the sign of a zero. *)
Lemma SFsub_value (x y : spec_float) :
  valid_binary x = true → valid_binary y = true →
  SFfinite x = true → SFfinite y = true →
  SFnum y ≤ SFnum x →
  SF64sub x y ≠ S754_nan
  ∧ SFkey (SF64sub x y) = SFkey (RNz (SFnum x - SFnum y)).
Proof.
  intros Hx Hy Hfx Hfy Hle.
  destruct x as [sx| | |sx mx ex], y as [sy| | |sy my ey]; try done.
  - by destruct sx, sy.
  - pose proof (SFnum_finite_pos my ey (valid_emin _ _ _ Hy)).
    destruct sy; simpl in *; [|lia]. split; [done|].
    unfold RNz. destruct (decide _); [|lia].
    replace (0 - - (Z.pos my * 2 ^ (ey + 1074))) with (Z.pos my * 2 ^ (ey + 1074)) by lia.
    by rewrite RN_round_trip.
  - pose proof (SFnum_finite_pos mx ex (valid_emin _ _ _ Hx)).
    destruct sx; simpl in *; [lia|]. split; [done|].
    unfold RNz. destruct (decide _); [|lia].
    rewrite Z.sub_0_r. by rewrite RN_round_trip.
  - pose proof (valid_emin _ _ _ Hx). pose proof (valid_emin _ _ _ Hy).
    unfold SF64sub, SFsub.
    set (ez := Z.min ex ey).
    set (M := _ - _).
    assert (M * 2 ^ (ez + 1074)
            = SFnum (S754_finite sx mx ex) - SFnum (S754_finite sy my ey)) as HM.
    { unfold M. rewrite Z.mul_sub_distr_r, !aligned_num by lia. done. }
    assert (0 < 2 ^ (ez + 1074)) by (apply Z.pow_pos_nonneg; lia).
    rewrite binary_normalize_RNz by (try nia; lia). rewrite HM.
    split; [apply RNz_not_nan | done].
Qed.

(** A sum of a number that is not negative and a positive one is the
    rounding of the exact sum. *)
Lemma SFadd_value (x y : spec_float) :
  valid_binary x = true → valid_binary y = true →
  SFfinite x = true → SFfinite y = true →
  0 ≤ SFnum x → 0 < SFnum y →
  SF64add x y = RN (SFnum x + SFnum y).
Proof.
  intros Hx Hy Hfx Hfy Hposx Hposy.
  destruct x as [sx| | |sx mx ex], y as [sy| | |sy my ey]; try done;
    try (simpl in Hposy; lia).
  - pose proof (SFnum_finite_pos my ey (valid_emin _ _ _ Hy)).
    destruct sy; [cbn [SFnum cond_Zopp] in Hposy; lia|].
    cbn [SFnum cond_Zopp]. rewrite Z.add_0_l, RN_round_trip by done. by destruct sx.
  - pose proof (valid_emin _ _ _ Hx). pose proof (valid_emin _ _ _ Hy).
    pose proof (SFnum_finite_pos mx ex ltac:(done)).
    pose proof (SFnum_finite_pos my ey ltac:(done)).
    unfold SF64add, SFadd.
    set (ez := Z.min ex ey).
    set (M := _ + _).
    assert (M * 2 ^ (ez + 1074)
            = SFnum (S754_finite sx mx ex) + SFnum (S754_finite sy my ey)) as HM.
    { unfold M. rewrite Z.mul_add_distr_r, !aligned_num by lia. done. }
    assert (0 < 2 ^ (ez + 1074)) by (apply Z.pow_pos_nonneg; lia).
    rewrite binary_normalize_RNz by (try nia; lia). rewrite HM.
    unfold RNz. by destruct (decide _); [|lia].
Qed.

(** ** Whole numbers in binary64 *)

Lemma binary_round_aux_opp (m e : Z) (l : location) :
  binary_round_aux prec emax true m e l
  = SFopp (binary_round_aux prec emax false m e l).
Proof.
  unfold binary_round_aux.
  destruct (shr_fexp prec emax m e l) as [mrs' e'].
  destruct (shr_fexp prec emax _ e' loc_Exact) as [mrs'' e''].
  destruct (shr_m mrs''); [done| |done]. by destruct (e'' <=? emax - prec).
Qed.

Lemma binary_normalize_RNs (M e : Z) :
  -1074 ≤ e →
  binary_normalize prec emax M e false = RNs (M * 2 ^ (e + 1074)).
Proof.
  intros He. assert (0 < 2 ^ (e + 1074)) as Hpow by (apply Z.pow_pos_nonneg; lia).
  destruct M as [|p|p].
  - done.
  - simpl binary_normalize. rewrite binary_round_RN by done.
    destruct (Z.pos p * 2 ^ (e + 1074)) eqn:Hz; [lia | done | lia].
  - simpl binary_normalize. unfold binary_round.
    destruct (shl_align p e _) as [mz ez] eqn:Hsh.
    rewrite binary_round_aux_opp.
    assert (binary_round prec emax false p e
            = binary_round_aux prec emax false (Z.pos mz) ez loc_Exact) as <-
      by (unfold binary_round; by rewrite Hsh).
    rewrite binary_round_RN by done.
    destruct (Z.neg p * 2 ^ (e + 1074)) eqn:Hz; [lia | lia |].
    simpl. do 2 f_equal. lia.
Qed.

Lemma RN_valid (z : Z) : 0 < z → valid_binary (RN z) = true.
Proof.
  intros Hz. destruct (rn_pair_spec z Hz) as (HK & Hm & Hnormal).
  destruct (RN_cases z Hz) as [(m & Hm3 & Hb & ->)|[_ ->]]; [|done].
  unfold valid_binary, bounded, canonical_mantissa.
  rewrite fexp64, digits2_pos_log2.
  apply andb_true_iff. split; [apply Z.eqb_eq | by apply Z.leb_le].
  rewrite Hm3 in Hm, Hnormal.
  destruct (decide ((rn_pair z).1 = 0)) as [HK0|HK0].
  - pose proof (proj1 (Z.log2_lt_pow2 (Z.pos m) 53 ltac:(lia)) ltac:(lia)). lia.
  - assert (Z.log2 (Z.pos m) = 52) as -> by (apply Z.log2_unique; lia). lia.
Qed.

Lemma RNs_valid (z : Z) : valid_binary (RNs z) = true.
Proof.
  destruct z as [|p|p]; [done | by apply RN_valid |].
  pose proof (RN_valid (Z.pos p) ltac:(lia)) as Hv.
  change (RNs (Z.neg p)) with (SFopp (RN (Z.pos p))).
  by destruct (RN (Z.pos p)).
Qed.

(** The rounding of a whole number [w]: [round64 w]. *)
Lemma RN_whole (w : Z) :
  0 < w < 2 ^ 1000 →
  SFfinite (RN (w * 2 ^ 1074)) = true
  ∧ SFnum (RN (w * 2 ^ 1074)) = round64 w * 2 ^ 1074.
Proof.
  intros Hw. pose proof (Z.log2_spec w ltac:(lia)) as Hlog.
  pose proof (Z.log2_nonneg w) as Hlog0.
  assert (Z.log2 w < 1000) as Hlog1 by (apply Z.log2_lt_pow2; lia).
  assert (0 < w * 2 ^ 1074) as Hz by lia.
  destruct (RN_cases (w * 2 ^ 1074) Hz) as [(m & Hm3 & Hb & HRN)|[Hover HRN]].
  2: { exfalso. revert Hover. unfold rn_pair, rn_K.
       rewrite Z.log2_mul_pow2 by lia.
       destruct (2 ^ 53 <=? _); cbn [fst snd]; lia. }
  rewrite HRN. split; [done|]. cbn [SFnum cond_Zopp]. rewrite <- Hm3.
  replace ((rn_pair (w * 2 ^ 1074)).1 - 1074 + 1074) with ((rn_pair (w * 2 ^ 1074)).1) by lia.
  clear HRN Hm3 Hb m.
  unfold rn_pair, rn_round, rn_K. rewrite Z.log2_mul_pow2 by lia.
  replace (Z.max (1074 + Z.log2 w - 52) 0) with (Z.log2 w + 1022) by lia.
  unfold round64. rewrite Z.abs_eq by lia. rewrite Z.sgn_pos by lia.
  destruct (Z.ltb_spec w (2 ^ 53)) as [Hsmall|Hbig].
  - (* below 2^53: kept *)
    assert (Z.log2 w < 53) as Hl by (apply Z.log2_lt_pow2; lia).
    assert (w * 2 ^ 1074 = (w * 2 ^ (52 - Z.log2 w)) * 2 ^ (Z.log2 w + 1022)) as Heq.
    { rewrite <- Z.mul_assoc, <- Z.pow_add_r by lia. do 2 f_equal. lia. }
    assert (0 < 2 ^ (Z.log2 w + 1022)) by (apply Z.pow_pos_nonneg; lia).
    assert (w * 2 ^ 1074 / 2 ^ (Z.log2 w + 1022) = w * 2 ^ (52 - Z.log2 w)) as Hdiv
      by (rewrite Heq; apply Z.div_mul; lia).
    assert ((w * 2 ^ 1074) mod 2 ^ (Z.log2 w + 1022) = 0) as Hmod
      by (rewrite Heq; apply Z.mod_mul; lia).
    rewrite !Hdiv, !Hmod.
    assert (rn_up (2 ^ (Z.log2 w + 1022)) 0 (w * 2 ^ (52 - Z.log2 w)) = false) as ->.
    { unfold rn_up. destruct (Z.ltb_spec (2 ^ (Z.log2 w + 1022)) (2 * 0)); [lia|].
      destruct (Z.eqb_spec (2 * 0) (2 ^ (Z.log2 w + 1022))); [lia | done]. }
    assert (w * 2 ^ (52 - Z.log2 w) < 2 ^ 53) as Hm.
    { replace 53 with (Z.succ (Z.log2 w) + (52 - Z.log2 w)) by lia.
      rewrite Z.pow_add_r by lia. apply Z.mul_lt_mono_pos_r; [|lia].
      apply Z.pow_pos_nonneg; lia. }
    destruct (Z.leb_spec (2 ^ 53) (w * 2 ^ (52 - Z.log2 w))); [lia|].
    cbn [fst snd]. by rewrite Heq.
  - (* from 2^53 on: the low digits are rounded *)
    assert (53 ≤ Z.log2 w) as Hl by (apply Z.log2_le_pow2; lia).
    set (e := Z.log2 w - 52) in *.
    assert (0 < 2 ^ e) by (apply Z.pow_pos_nonneg; lia).
    assert (0 < 2 ^ (e - 1)) by (apply Z.pow_pos_nonneg; lia).
    assert (2 ^ e = 2 * 2 ^ (e - 1)) as He2
      by (rewrite <- Z.pow_succ_r by lia; f_equal; lia).
    replace (Z.log2 w + 1022) with (e + 1074) by lia.
    rewrite (Z.pow_add_r 2 e 1074) by lia.
    rewrite Z.div_mul_cancel_r, Z.mul_mod_distr_r, rn_up_scale by lia.
    assert (rn_up (2 ^ e) (w mod 2 ^ e) (w / 2 ^ e)
            = (2 ^ (e - 1) <? w mod 2 ^ e)
              || ((w mod 2 ^ e =? 2 ^ (e - 1)) && Z.odd (w / 2 ^ e))) as ->.
    { unfold rn_up. rewrite He2.
      repeat match goal with
             | |- context [?a <? ?b] => destruct (Z.ltb_spec a b)
             | |- context [?a =? ?b] => destruct (Z.eqb_spec a b)
             end; simpl; try done; lia. }
    set (up := (2 ^ (e - 1) <? w mod 2 ^ e)
               || ((w mod 2 ^ e =? 2 ^ (e - 1)) && Z.odd (w / 2 ^ e))).
    set (q' := if up then w / 2 ^ e + 1 else w / 2 ^ e).
    assert (2 ^ 52 ≤ w / 2 ^ e < 2 ^ 53) as Hq.
    { split.
      - apply Z.div_le_lower_bound; [lia|]. rewrite <- Z.pow_add_r by lia.
        replace (e + 52) with (Z.log2 w) by lia. apply Hlog.
      - apply Z.div_lt_upper_bound; [lia|]. rewrite <- Z.pow_add_r by lia.
        replace (e + 53) with (Z.succ (Z.log2 w)) by lia. apply Hlog. }
    assert (2 ^ 52 ≤ q' ≤ 2 ^ 53) as Hq' by (unfold q'; destruct up; lia).
    rewrite Z.mul_1_l.
    destruct (Z.leb_spec (2 ^ 53) q'); cbn [fst snd].
    + assert (q' = 2 ^ 53) as -> by lia. change (2 ^ 53 / 2) with (2 ^ 52).
      replace (e + 1074 + 1) with (1 + e + 1074) by lia.
      rewrite !Z.pow_add_r by lia. change (2 ^ 53) with (2 ^ 52 * 2 ^ 1). ring.
    + rewrite Z.pow_add_r by lia. ring.
Qed.

Lemma round64_opp (w : Z) : round64 (- w) = - round64 w.
Proof.
  unfold round64. rewrite Z.abs_opp, Z.sgn_opp.
  destruct (Z.abs w <? 2 ^ 53); lia.
Qed.

Lemma round64_0 : round64 0 = 0.
Proof. reflexivity. Qed.

Lemma RNs_whole (w : Z) :
  Z.abs w < 2 ^ 1000 →
  SFfinite (RNs (w * 2 ^ 1074)) = true
  ∧ RNs (w * 2 ^ 1074) ≠ S754_zero true
  ∧ SFnum (RNs (w * 2 ^ 1074)) = round64 w * 2 ^ 1074.
Proof.
  intros Hw. destruct w as [|p|p].
  - done.
  - destruct (RN_whole (Z.pos p) ltac:(lia)) as [Hf Hn].
    change (Z.pos p * 2 ^ 1074) with (Z.pos (p * 2 ^ 1074)) in *. simpl RNs.
    split; [done|]. split; [|done].
    destruct (RN_cases (Z.pos (p * 2 ^ 1074)) ltac:(lia)) as [(m & _ & _ & ->)|[_ ->]]; done.
  - destruct (RN_whole (Z.pos p) ltac:(lia)) as [Hf Hn].
    change (Z.neg p * 2 ^ 1074) with (Z.neg (p * 2 ^ 1074)).
    change (Z.pos p * 2 ^ 1074) with (Z.pos (p * 2 ^ 1074)) in *.
    change (RNs (Z.neg (p * 2 ^ 1074))) with (SFopp (RN (Z.pos (p * 2 ^ 1074)))).
    change (Z.neg p) with (- Z.pos p). rewrite round64_opp.
    destruct (RN_cases (Z.pos (p * 2 ^ 1074)) ltac:(lia)) as [(m & _ & _ & HRN)|[_ HRN]];
      rewrite HRN in *; [|done].
    split; [done|]. split; [done|]. cbn [SFopp SFnum cond_Zopp negb] in *. lia.
Qed.

Lemma RNs_round_trip (x : spec_float) :
  valid_binary x = true → SFfinite x = true → x ≠ S754_zero true →
  RNs (SFnum x) = x.
Proof.
  intros Hx Hf H0. destruct x as [[]| | |s m e]; try done.
  pose proof (SFnum_finite_pos m e (valid_emin _ _ _ Hx)) as Hpos.
  cbn [SFnum]. destruct s; cbn [cond_Zopp].
  - destruct (Z.pos m * 2 ^ (e + 1074)) as [|p|p] eqn:Hz; [lia| |lia].
    change (- Z.pos p) with (Z.neg p).
    change (RNs (Z.neg p)) with (SFopp (RN (Z.pos p))).
    rewrite <- Hz, RN_round_trip; done.
  - destruct (Z.pos m * 2 ^ (e + 1074)) as [|p|p] eqn:Hz; [lia| |lia].
    change (RNs (Z.pos p)) with (RN (Z.pos p)). rewrite <- Hz. by apply RN_round_trip.
Qed.

Lemma SFadd_RNs (x y : spec_float) :
  valid_binary x = true → valid_binary y = true →
  SFfinite x = true → SFfinite y = true →
  x ≠ S754_zero true → y ≠ S754_zero true →
  SF64add x y = RNs (SFnum x + SFnum y).
Proof.
  intros Hx Hy Hfx Hfy Hx0 Hy0.
  destruct x as [[]| | |sx mx ex], y as [[]| | |sy my ey]; try done.
  - rewrite Z.add_0_l, RNs_round_trip; done.
  - change (SFnum (S754_zero false)) with 0. rewrite Z.add_0_r, RNs_round_trip; done.
  - pose proof (valid_emin _ _ _ Hx). pose proof (valid_emin _ _ _ Hy).
    unfold SF64add, SFadd.
    set (ez := Z.min ex ey).
    set (M := _ + _).
    assert (M * 2 ^ (ez + 1074)
            = SFnum (S754_finite sx mx ex) + SFnum (S754_finite sy my ey)) as HM.
    { unfold M. rewrite Z.mul_add_distr_r, !aligned_num by lia. done. }
    rewrite binary_normalize_RNs by lia. by rewrite HM.
Qed.

Lemma SFsub_RNs (x y : spec_float) :
  valid_binary x = true → valid_binary y = true →
  SFfinite x = true → SFfinite y = true →
  x ≠ S754_zero true → y ≠ S754_zero true →
  SF64sub x y = RNs (SFnum x - SFnum y).
Proof.
  intros Hx Hy Hfx Hfy Hx0 Hy0.
  destruct x as [[]| | |sx mx ex], y as [[]| | |sy my ey]; try done.
  - change (SF64sub (S754_zero false) (S754_finite sy my ey))
      with (S754_finite (negb sy) my ey).
    rewrite <- (RNs_round_trip (S754_finite (negb sy) my ey)) by done.
    f_equal. destruct sy; cbn [SFnum cond_Zopp negb]; lia.
  - change (SFnum (S754_zero false)) with 0. rewrite Z.sub_0_r, RNs_round_trip; done.
  - pose proof (valid_emin _ _ _ Hx). pose proof (valid_emin _ _ _ Hy).
    unfold SF64sub, SFsub.
    set (ez := Z.min ex ey).
    set (M := _ - _).
    assert (M * 2 ^ (ez + 1074)
            = SFnum (S754_finite sx mx ex) - SFnum (S754_finite sy my ey)) as HM.
    { unfold M. rewrite Z.mul_sub_distr_r, !aligned_num by lia. done. }
    rewrite binary_normalize_RNs by lia. by rewrite HM.
Qed.

Lemma RNs_whole64 (w : Z) :
  Z.abs w < 2 ^ 1000 → whole64 (RNs (w * 2 ^ 1074)) (round64 w).
Proof.
  intros Hw. destruct (RNs_whole w Hw) as (Hf & H0 & Hn).
  split; [apply RNs_valid | done].
Qed.

Lemma binary64_of_Z_whole64 (z : Z) :
  Z.abs z < 2 ^ 1000 → whole64 (binary64_of_Z z) (round64 z).
Proof.
  intros Hz. unfold binary64_of_Z. rewrite binary_normalize_RNs by lia.
  by apply RNs_whole64.
Qed.

Lemma SF64add_whole64 (x y : spec_float) (a b : Z) :
  whole64 x a → whole64 y b → Z.abs (a + b) < 2 ^ 1000 →
  whole64 (SF64add x y) (round64 (a + b)).
Proof.
  intros (Hx & Hfx & Hx0 & Hnx) (Hy & Hfy & Hy0 & Hny) Hab.
  rewrite SFadd_RNs, Hnx, Hny, <- Z.mul_add_distr_r by done.
  by apply RNs_whole64.
Qed.

Lemma SF64sub_whole64 (x y : spec_float) (a b : Z) :
  whole64 x a → whole64 y b → Z.abs (a - b) < 2 ^ 1000 →
  whole64 (SF64sub x y) (round64 (a - b)).
Proof.
  intros (Hx & Hfx & Hx0 & Hnx) (Hy & Hfy & Hy0 & Hny) Hab.
  rewrite SFsub_RNs, Hnx, Hny, <- Z.mul_sub_distr_r by done.
  by apply RNs_whole64.
Qed.

Lemma whole64_value (x : spec_float) (w : Z) :
  whole64 x w → Z_of_binary64 x = Some w.
Proof.
  intros (Hx & Hf & H0 & Hn). destruct x as [[]| | |s m e]; try done.
  - simpl in Hn. simpl. f_equal. lia.
  - pose proof (valid_emin _ _ _ Hx) as He. cbn [SFnum] in Hn. simpl. f_equal.
    destruct (Z.leb_spec 0 e).
    + rewrite Z.pow_add_r, Z.mul_assoc, <- cond_Zopp_mul in Hn by lia. lia.
    + assert (0 < 2 ^ (e + 1074)) by (apply Z.pow_pos_nonneg; lia).
      assert (0 < 2 ^ (- e)) by (apply Z.pow_pos_nonneg; lia).
      assert (2 ^ 1074 = 2 ^ (- e) * 2 ^ (e + 1074)) as Hp
        by (rewrite <- Z.pow_add_r by lia; f_equal; lia).
      rewrite Hp, Z.mul_assoc in Hn.
      destruct s; cbn [cond_Zopp] in *.
      * assert (Z.pos m = (- w) * 2 ^ (- e)) as -> by nia.
        rewrite Z.div_mul by lia. lia.
      * assert (Z.pos m = w * 2 ^ (- e)) as -> by nia.
        by rewrite Z.div_mul by lia.
Qed.

Lemma round64_bound (z : Z) : Z.abs (round64 z) ≤ 2 * Z.abs z.
Proof.
  unfold round64. destruct (Z.ltb_spec (Z.abs z) (2 ^ 53)) as [|Hbig]; [lia|].
  set (a := Z.abs z) in *. set (e := Z.log2 a - 52).
  assert (53 ≤ Z.log2 a) by (apply Z.log2_le_pow2; lia).
  pose proof (Z.log2_spec a ltac:(lia)) as Hlog.
  assert (0 < 2 ^ e) by (apply Z.pow_pos_nonneg; lia).
  assert (2 ^ e ≤ a).
  { etrans; [|apply Hlog]. apply Z.pow_le_mono_r; lia. }
  pose proof (Z.div_mod a (2 ^ e) ltac:(lia)).
  pose proof (Z.mod_pos_bound a (2 ^ e) ltac:(lia)).
  match goal with |- context [if ?b then _ else _] => set (up := b) end.
  set (q' := if up then a / 2 ^ e + 1 else a / 2 ^ e).
  assert (0 ≤ q' * 2 ^ e ≤ 2 * a).
  { unfold q'. destruct up; nia. }
  rewrite Z.abs_mul. destruct (Z.sgn_spec z) as [[? ->]|[[? ->]|[? ->]]]; lia.
Qed.

(** [round64] is the conversion to binary64 of the Standard Library. *)
Theorem round64_binary64_conversion (z : Z) :
  Z.abs z < 2 ^ 1000 → Z_of_binary64 (binary64_of_Z z) = Some (round64 z).
Proof. intros Hz. by apply whole64_value, binary64_of_Z_whole64. Qed.

(** The float64 label of the model is the label that the binary64
    operations of the Standard Library compute on the converted int64
    values. *)
Theorem float64_label_binary64 (m t c : Z) :
  - 2 ^ 63 ≤ m < 2 ^ 63 → - 2 ^ 63 ≤ t < 2 ^ 63 → - 2 ^ 63 ≤ c < 2 ^ 63 →
  Z_of_binary64
    (SF64sub (SF64add (binary64_of_Z m) (binary64_of_Z t)) (binary64_of_Z c))
  = test_label true (Some m) (Some t) c.
Proof.
  intros Hm Ht Hc.
  pose proof (round64_bound m). pose proof (round64_bound t).
  pose proof (round64_bound c).
  pose proof (round64_bound (round64 m + round64 t)).
  assert (2 ^ 63 * 16 < 2 ^ 1000) by done.
  change (test_label true (Some m) (Some t) c)
    with (Some (round64 (round64 (round64 m + round64 t) - round64 c))).
  apply whole64_value, SF64sub_whole64; [apply SF64add_whole64| |];
    try apply binary64_of_Z_whole64; lia.
Qed.

Lemma shr_general (mrs : shr_record) (e k : Z) :
  0 ≤ shr_m mrs →
  ∃ mrs', shr mrs e k = (mrs', e + Z.max k 0)
          ∧ shr_m mrs' = shr_m mrs / 2 ^ Z.max k 0.
Proof.
  intros Hm. unfold shr. destruct k as [|k|k].
  - exists mrs. split; [by rewrite Z.add_0_r|]. simpl. by rewrite Z.div_1_r.
  - eexists. split; [by rewrite Z.max_l by lia|].
    rewrite iter_pos_nat, shr_m_iter, positive_nat_Z by done.
    by rewrite Z.max_l by lia.
  - exists mrs. rewrite Z.max_r by lia. split; [by rewrite Z.add_0_r|].
    simpl. by rewrite Z.div_1_r.
Qed.

Lemma round_nearest_even_bounds (m : Z) (l : location) :
  m ≤ round_nearest_even m l ≤ m + 1.
Proof.
  unfold round_nearest_even. destruct l as [|[]]; try lia.
  destruct (Z.even m); lia.
Qed.

Lemma Zdigits2_le (z t : Z) : 0 ≤ z < 2 ^ t → 0 ≤ t → 0 ≤ Zdigits2 z ≤ t.
Proof.
  intros Hz Ht. destruct (decide (z = 0)) as [->|Hz0]; [simpl; lia|].
  rewrite Zdigits2_log2 by lia.
  pose proof (Z.log2_nonneg z).
  pose proof (proj1 (Z.log2_lt_pow2 z t ltac:(lia)) ltac:(lia)). lia.
Qed.

Lemma Zdigits2_ge (z : Z) : 0 < z → 2 ^ (Zdigits2 z - 1) ≤ z.
Proof.
  intros Hz. rewrite Zdigits2_log2 by done.
  replace (Z.log2 z + 1 - 1) with (Z.log2 z) by lia.
  apply Z.log2_spec. done.
Qed.

(** The rounding of a number below 1 is at most 1. *)
Lemma binary_round_aux_unit (q e : Z) (l : location) :
  0 ≤ q → e ≤ -53 → q < 2 ^ (- e) →
  let Q := binary_round_aux prec emax false q e l in
  Q ≠ S754_nan
  ∧ key_le (0, 0, 0) (SFkey Q)
  ∧ key_le (SFkey Q) (1, -52, 2 ^ 52).
Proof.
  intros Hq He Hq2. cbv zeta. unfold binary_round_aux, shr_fexp.
  assert (shr_m (shr_record_of_loc q l) = q) as Hq0 by (by destruct l as [|[]]).
  destruct (shr_general (shr_record_of_loc q l) e
              (fexp prec emax (Zdigits2 q + e) - e)) as (rec1 & -> & Hm1);
    [by rewrite Hq0|].
  rewrite Hq0 in Hm1.
  pose proof (Zdigits2_le q (- e) ltac:(lia) ltac:(lia)) as Hdq.
  set (j := Z.max (fexp prec emax (Zdigits2 q + e) - e) 0) in *.
  assert (0 ≤ j ∧ e + j ≤ -53) as [Hj HE1] by (unfold j; rewrite fexp64; lia).
  set (E1 := e + j) in *.
  assert (0 < 2 ^ j) by (apply Z.pow_pos_nonneg; lia).
  assert (0 ≤ shr_m rec1 < 2 ^ (- E1)) as Hm1b.
  { rewrite Hm1. split; [apply Z.div_pos; lia|].
    apply Z.div_lt_upper_bound; [lia|].
    rewrite <- Z.pow_add_r by lia. replace (j + - E1) with (- e) by lia. done. }
  pose proof (round_nearest_even_bounds (shr_m rec1) (loc_of_shr_record rec1)) as Hm2.
  set (m2 := round_nearest_even (shr_m rec1) (loc_of_shr_record rec1)) in *.
  assert (0 ≤ m2 ≤ 2 ^ (- E1)) as Hm2b by lia.
  destruct (shr_general (shr_record_of_loc m2 loc_Exact) E1
              (fexp prec emax (Zdigits2 m2 + E1) - E1)) as (rec3 & -> & Hm3);
    [simpl; lia|].
  simpl in Hm3.
  assert (2 ^ (- E1) < 2 ^ (- E1 + 1)) as Hpow by (apply Z.pow_lt_mono_r; lia).
  pose proof (Zdigits2_le m2 (- E1 + 1) ltac:(lia) ltac:(lia)) as Hdm2.
  set (j2 := Z.max (fexp prec emax (Zdigits2 m2 + E1) - E1) 0) in *.
  assert (0 ≤ j2 ∧ E1 + j2 ≤ -52) as [Hj2 HE3] by (unfold j2; rewrite fexp64; lia).
  assert (0 < 2 ^ j2) by (apply Z.pow_pos_nonneg; lia).
  assert (0 ≤ shr_m rec3) as Hm3pos by (rewrite Hm3; apply Z.div_pos; lia).
  assert (E1 + j2 = -52 → shr_m rec3 = 2 ^ 52) as Hone.
  { intros HE. assert (Zdigits2 m2 = 1 - E1) as Hd
      by (unfold j2 in HE; rewrite fexp64 in HE; lia).
    assert (0 < m2) as Hm2pos by (destruct (decide (m2 = 0)) as [Heq|]; [rewrite Heq in Hd; simpl in Hd; lia | lia]).
    pose proof (Zdigits2_ge m2 Hm2pos) as Hge. rewrite Hd in Hge.
    replace (1 - E1 - 1) with (- E1) in Hge by lia.
    assert (m2 = 2 ^ (- E1)) as -> by lia.
    rewrite Hm3. replace (- E1) with (52 + j2) by lia.
    rewrite Z.pow_add_r by lia. by rewrite Z.div_mul by lia. }
  destruct (shr_m rec3) as [|p|p] eqn:Hp; [| |lia].
  - unfold key_le; simpl. split; [done|]. lia.
  - destruct (Z.leb_spec (E1 + j2) (emax - prec)) as [_|Hbig];
      [|change (emax - prec) with 971 in Hbig; lia].
    split; [done|]. unfold key_le; simpl. split; [lia|].
    destruct (decide (E1 + j2 = -52)) as [HE|HE]; [|lia].
    rewrite (Hone HE). lia.
Qed.

Lemma SFdiv_diag (s : bool) (m : positive) (e : Z) :
  SF64div (S754_finite s m e) (S754_finite s m e) = S754_finite false 4503599627370496 (-52).
Proof.
  assert (Z.div_eucl (Z.shiftl (Z.pos m) 53) (Z.pos m) = (2 ^ 53, 0)) as Hdiv.
  { rewrite Z.shiftl_mul_pow2 by lia.
    pose proof (Z.div_eucl_eq (Z.pos m * 2 ^ 53) (Z.pos m)) as Heq.
    pose proof (Z.mod_pos_bound (Z.pos m * 2 ^ 53) (Z.pos m)) as Hmod.
    unfold Z.modulo, Z.div in *.
    destruct (Z.div_eucl (Z.pos m * 2 ^ 53) (Z.pos m)) as [q r]. simpl in *.
    specialize (Heq ltac:(lia)). specialize (Hmod ltac:(lia)).
    assert (q = 2 ^ 53) by nia. f_equal; nia. }
  unfold SF64div, SFdiv, SFdiv_core_binary. rewrite !Z.sub_diag.
  change (Z.min (fexp prec emax 0) 0) with (-53). change (0 - -53) with 53.
  cbv iota beta. rewrite Hdiv.
  assert (new_location (Z.pos m) 0 = loc_Exact) as ->.
  { unfold new_location, new_location_even, new_location_odd.
    by destruct (Z.even (Z.pos m)). }
  by destruct s.
Qed.

(** The quotient of two positive numbers, the first at most the second,
    lies between 0 and 1. *)
Lemma SFdiv_unit (mn md : positive) (en ed : Z) :
  valid_binary (S754_finite false mn en) = true →
  valid_binary (S754_finite false md ed) = true →
  Z.pos mn * 2 ^ (en + 1074) ≤ Z.pos md * 2 ^ (ed + 1074) →
  let Q := SF64div (S754_finite false mn en) (S754_finite false md ed) in
  Q ≠ S754_nan
  ∧ key_le (0, 0, 0) (SFkey Q)
  ∧ key_le (SFkey Q) (1, -52, 2 ^ 52).
Proof.
  intros Hn Hd Hle. cbv zeta.
  destruct (decide (Z.pos mn * 2 ^ (en + 1074) = Z.pos md * 2 ^ (ed + 1074)))
    as [Heq|Hne].
  { pose proof (proj2 (positive_key_num mn md en ed Hn Hd) ltac:(lia)) as H1.
    pose proof (proj2 (positive_key_num md mn ed en Hd Hn) ltac:(lia)) as H2.
    pose proof (key_le_antisym _ _ H1 H2) as [= -> ->].
    rewrite SFdiv_diag. unfold key_le; simpl. split; [done|]. lia. }
  assert (Z.pos mn * 2 ^ (en + 1074) < Z.pos md * 2 ^ (ed + 1074)) as Hlt by lia.
  clear Hle Hne.
  pose proof (valid_emin _ _ _ Hn) as Hen. pose proof (valid_emin _ _ _ Hd) as Hed.
  pose proof (Z.log2_spec (Z.pos mn) ltac:(lia)) as Hlogn.
  pose proof (Z.log2_spec (Z.pos md) ltac:(lia)) as Hlogd.
  assert (0 < 2 ^ (en + 1074)) by (apply Z.pow_pos_nonneg; lia).
  assert (0 < 2 ^ (ed + 1074)) by (apply Z.pow_pos_nonneg; lia).
  (* the first number is not in a binade above that of the second *)
  assert (Z.log2 (Z.pos mn) + en < Z.log2 (Z.pos md) + 1 + ed) as Hpos.
  { pose proof (Z.log2_nonneg (Z.pos mn)). pose proof (Z.log2_nonneg (Z.pos md)).
    assert (Z.log2 (Z.pos mn) + (en + 1074) < Z.succ (Z.log2 (Z.pos md)) + (ed + 1074));
      [|lia].
    apply (Z.pow_lt_mono_r_iff 2); [lia | lia|].
    rewrite (Z.pow_add_r 2 (Z.log2 (Z.pos mn))) by lia.
    rewrite (Z.pow_add_r 2 (Z.succ (Z.log2 (Z.pos md)))) by lia.
    destruct Hlogn as [Hlogn _], Hlogd as [_ Hlogd].
    set (A := 2 ^ Z.log2 (Z.pos mn)) in *. set (B := 2 ^ Z.succ (Z.log2 (Z.pos md))) in *.
    set (X := 2 ^ (en + 1074)) in *. set (Y := 2 ^ (ed + 1074)) in *.
    clearbody A B X Y. nia. }
  unfold SF64div, SFdiv, SFdiv_core_binary.
  rewrite !Zdigits2_log2 by lia.
  set (e' := Z.min _ _).
  assert (e' ≤ -53 ∧ e' ≤ en - ed) as [He' Hs] by (unfold e'; rewrite fexp64; lia).
  set (s := en - ed - e').
  assert (0 ≤ s) as Hs0 by (unfold s; lia).
  set (m' := match s with Z.pos _ => Z.shiftl (Z.pos mn) s | 0 => Z.pos mn | Z.neg _ => 0 end).
  assert (m' = Z.pos mn * 2 ^ s) as Hm'.
  { unfold m'. destruct s as [|p|p] eqn:Hsp; [simpl; lia| |lia].
    by rewrite Z.shiftl_mul_pow2. }
  pose proof (Z.div_eucl_eq m' (Z.pos md) ltac:(lia)) as Hdiv.
  pose proof (Z.mod_pos_bound m' (Z.pos md) ltac:(lia)) as Hmod.
  unfold Z.modulo in Hmod.
  destruct (Z.div_eucl m' (Z.pos md)) as [q r]. cbv iota beta.
  assert (0 < 2 ^ s) by (apply Z.pow_pos_nonneg; lia).
  assert (0 < 2 ^ (- e')) by (apply Z.pow_pos_nonneg; lia).
  assert (m' < Z.pos md * 2 ^ (- e')) as Hbound.
  { rewrite Hm'.
    assert (2 ^ s * 2 ^ (ed + 1074) = 2 ^ (en + 1074) * 2 ^ (- e')) as Hpow.
    { rewrite <- !Z.pow_add_r by lia. f_equal. unfold s. lia. }
    set (S := 2 ^ s) in *. set (T := 2 ^ (- e')) in *.
    set (X := 2 ^ (en + 1074)) in *. set (Y := 2 ^ (ed + 1074)) in *.
    clearbody S T X Y.
    apply (Z.mul_lt_mono_pos_r Y); [lia|].
    replace (Z.pos mn * S * Y) with (Z.pos mn * X * T) by nia.
    replace (Z.pos md * T * Y) with (Z.pos md * Y * T) by lia.
    apply Z.mul_lt_mono_pos_r; lia. }
  apply binary_round_aux_unit; [nia | done | nia].
Qed.

Lemma SFkey_finite (x : spec_float) :
  x ≠ S754_nan → -2 < (SFkey x).1.1 < 2 → SFfinite x = true.
Proof. destruct x as [|[]| |[]]; simpl; try done; lia. Qed.

Lemma SFfinite_key (x : spec_float) : SFfinite x = true → -2 < (SFkey x).1.1 < 2.
Proof. destruct x as [|[]| |[]]; simpl; try done; lia. Qed.

(** The numerator and the denominator of the formula, for a value
    between the statistics of its channel. *)
Lemma scale_operands (L H V E : spec_float) :
  valid_binary L = true → valid_binary H = true → valid_binary V = true →
  V ≠ S754_nan → L ≠ S754_nan → H ≠ S754_nan →
  key_le (SFkey L) (SFkey V) → key_le (SFkey V) (SFkey H) →
  valid_binary (SF64sub V L) = true → valid_binary (SF64sub H L) = true →
  valid_binary E = true → SFfinite E = true → 0 < SFnum E →
  valid_binary (SF64add (SF64sub V L) E) = true →
  valid_binary (SF64add (SF64sub H L) E) = true →
  SFfinite (SF64add (SF64sub H L) E) = true →
  ∃ mn en md ed,
    SF64add (SF64sub V L) E = S754_finite false mn en
    ∧ SF64add (SF64sub H L) E = S754_finite false md ed
    ∧ Z.pos mn * 2 ^ (en + 1074) ≤ Z.pos md * 2 ^ (ed + 1074).
Proof.
  intros HvL HvH HvV HV HL HH HLV HVH HvA HvB HvE HfE HE HvN HvD HfD.
  (* the statistics and the value are finite *)
  assert (SFfinite (SF64sub H L) = true) as HfB.
  { destruct E as [|[]| |]; try done.
    by destruct (SF64sub H L) as [|[]| |]. }
  assert (SFfinite H = true ∧ SFfinite L = true) as [HfH HfL].
  { destruct H as [|[]| |], L as [|[]| |]; simpl in HfB; try done. }
  assert (SFfinite V = true) as HfV.
  { apply SFkey_finite; [done|].
    apply SFfinite_key in HfH, HfL. unfold key_le in HLV, HVH. lia. }
  pose proof (proj1 (key_le_num L V HvL HvV HfL HfV) HLV) as HnLV.
  pose proof (proj1 (key_le_num V H HvV HvH HfV HfH) HVH) as HnVH.
  (* the two differences *)
  destruct (SFsub_value V L HvV HvL HfV HfL HnLV) as [HA HkA].
  destruct (SFsub_value H L HvH HvL HfH HfL ltac:(lia)) as [HB HkB].
  set (A := SF64sub V L) in *. set (B := SF64sub H L) in *.
  assert (key_le (SFkey A) (SFkey B)) as HAB
    by (rewrite HkA, HkB; apply RNz_mono; lia).
  assert (key_le (0, 0, 0) (SFkey A)) as HA0 by (rewrite HkA; apply RNz_nonneg).
  assert (SFfinite A = true) as HfA.
  { apply SFkey_finite; [done|]. apply SFfinite_key in HfB.
    unfold key_le in HAB, HA0. simpl in HA0. lia. }
  assert (0 ≤ SFnum A) as HnA.
  { by apply (key_le_num (S754_zero false) A). }
  pose proof (proj1 (key_le_num A B HvA HvB HfA HfB) HAB) as HnAB.
  (* the two sums *)
  pose proof (SFadd_value A E HvA HvE HfA HfE HnA HE) as HN.
  pose proof (SFadd_value B E HvB HvE HfB HfE ltac:(lia) HE) as HD.
  pose proof (RN_mono (SFnum A + SFnum E) (SFnum B + SFnum E) ltac:(lia)) as HND.
  rewrite <- HN, <- HD in HND.
  destruct (RN_cases (SFnum B + SFnum E) ltac:(lia)) as [(md & _ & _ & HDf)|[_ HDi]];
    [|by rewrite HD, HDi in HfD].
  rewrite <- HD in HDf.
  destruct (RN_cases (SFnum A + SFnum E) ltac:(lia)) as [(mn & _ & _ & HNf)|[_ HNi]];
    [|rewrite <- HN in HNi; rewrite HNi, HDf in HND; unfold key_le in HND; simpl in HND; lia].
  rewrite <- HN in HNf.
  eexists mn, _, md, _. split; [exact HNf|]. split; [exact HDf|].
  rewrite HNf in HvN. rewrite HDf in HvD. rewrite HNf, HDf in HND.
  by apply positive_key_num.
Qed.

(** ** Binary64 numbers *)

Section Binary64.
#[local] Open Scope float_scope.

Lemma Prim2SF_nan (x : float) : Prim2SF x = S754_nan ↔ is_nan x = true.
Proof.
  unfold Prim2SF. destruct (is_nan x); [done|].
  destruct (is_zero x); [done|]. destruct (is_infinity x); [done|].
  destruct (Z.frexp x) as [r ex]. destruct (shr_fexp _ _ _ _ _) as [sh e'].
  by destruct (shr_m sh).
Qed.

Lemma Prim2SF_not_nan (x : float) : is_nan x = false → Prim2SF x ≠ S754_nan.
Proof. rewrite Prim2SF_nan. congruence. Qed.

Lemma leb_key (x y : float) :
  is_nan x = false → is_nan y = false →
  ((x <=? y) = true ↔ key_le (SFkey (Prim2SF x)) (SFkey (Prim2SF y))).
Proof.
  intros Hx Hy. rewrite leb_spec. by apply SFleb_key; apply Prim2SF_not_nan.
Qed.

Lemma eqb_key (x y : float) :
  is_nan x = false → is_nan y = false →
  ((x =? y) = true ↔ SFkey (Prim2SF x) = SFkey (Prim2SF y)).
Proof.
  intros Hx Hy. rewrite eqb_spec. by apply SFeqb_key; apply Prim2SF_not_nan.
Qed.

(** The comparison of binary64 orders the numbers that are not NaN. *)
#[export] Instance binary64_ordered : Ordered float.
Proof.
  split.
  - intros a b Ha Hb. simpl in *. rewrite !leb_key by done. unfold key_le. lia.
  - intros a b c Ha Hb Hc. simpl in *. rewrite !leb_key by done. unfold key_le. lia.
Qed.

Lemma same_number_refl (x : float) : is_nan x = false → same_number x x.
Proof. by intros Hx. Qed.

Lemma same_number_sym (x y : float) : same_number x y → same_number y x.
Proof. by intros (? & ? & ?). Qed.

Lemma same_number_trans (x y z : float) :
  same_number x y → same_number y z → same_number x z.
Proof. intros (? & ? & Hxy) (? & ? & Hyz). split; [done|]. split; [done | congruence]. Qed.

Lemma leb_antisym (x y : float) :
  is_nan x = false → is_nan y = false →
  (x <=? y) = true → (y <=? x) = true → same_number x y.
Proof.
  intros Hx Hy. rewrite !leb_key by done.
  intros Hxy Hyx. split; [done|]. split; [done|]. by apply key_le_antisym.
Qed.

(** The least value of a channel is one number, and so is the greatest. *)
Lemma channel_min_same {E} (df : frame float E) (j : nat) (a b : float) :
  channel_min df j a → channel_min df j b → same_number a b.
Proof.
  intros (Ha & (ra & Hra & Hca) & Hale) (Hb & (rb & Hrb & Hcb) & Hble).
  apply leb_antisym; [done | done | |].
  - exact (Hale rb b Hrb Hcb Hb).
  - exact (Hble ra a Hra Hca Ha).
Qed.

Lemma channel_max_same {E} (df : frame float E) (j : nat) (a b : float) :
  channel_max df j a → channel_max df j b → same_number a b.
Proof.
  intros (Ha & (ra & Hra & Hca) & Hale) (Hb & (rb & Hrb & Hcb) & Hble).
  apply leb_antisym; [done | done | |].
  - exact (Hble ra a Hra Hca Ha).
  - exact (Hale rb b Hrb Hcb Hb).
Qed.

Lemma Prim2SF_eps : Prim2SF eps = S754_finite false 4722366482869645 (-72).
Proof. vm_compute. reflexivity. Qed.

(** [x - y + eps] takes [x] and [y] as numbers: the sign of a zero does
    not show in it. *)
Lemma SF_sub_add_eps (x x' y y' : spec_float) :
  x ≠ S754_nan → x' ≠ S754_nan → y ≠ S754_nan → y' ≠ S754_nan →
  SFkey x = SFkey x' → SFkey y = SFkey y' →
  SF64add (SF64sub x y) (Prim2SF eps) = SF64add (SF64sub x' y') (Prim2SF eps).
Proof.
  intros Hx Hx' Hy Hy' Hxx Hyy. rewrite Prim2SF_eps.
  destruct (SFkey_inj x x' Hx Hx' Hxx) as [->|(s1 & s1' & -> & ->)];
    destruct (SFkey_inj y y' Hy Hy' Hyy) as [->|(s2 & s2' & -> & ->)].
  - done.
  - destruct x' as [[]|[]| |]; destruct s2, s2'; done.
  - destruct y' as [[]|[]| |]; destruct s1, s1'; done.
  - destruct s1, s1', s2, s2'; done.
Qed.

Lemma sub_add_eps_same (x x' y y' : float) :
  same_number x x' → same_number y y' → x - y + eps = x' - y' + eps.
Proof.
  intros (Hx & Hx' & Hxx) (Hy & Hy' & Hyy). apply Prim2SF_inj.
  rewrite !add_spec, !sub_spec.
  by apply SF_sub_add_eps; try apply Prim2SF_not_nan.
Qed.

(** The formula takes the statistics and the value as numbers. *)
Lemma scale_same (lo lo' hi hi' v v' : float) :
  same_number lo lo' → same_number hi hi' → same_number v v' →
  scale lo hi v = scale lo' hi' v'.
Proof.
  intros Hlo Hhi Hv.
  change (scale lo hi v) with ((v - lo + eps) / (hi - lo + eps)).
  change (scale lo' hi' v') with ((v' - lo' + eps) / (hi' - lo' + eps)).
  by rewrite (sub_add_eps_same v v' lo lo'), (sub_add_eps_same hi hi' lo lo').
Qed.

Lemma finite_binary64 (v : float) :
  is_finite v = true →
  (∃ s, Prim2SF v = S754_zero s) ∨ (∃ s m e, Prim2SF v = S754_finite s m e).
Proof.
  unfold is_finite. intros [Hnan Hinf]%negb_true_iff%orb_false_iff.
  unfold Prim2SF. rewrite Hnan, Hinf.
  destruct (is_zero v); [left; eauto|].
  destruct (Z.frexp v) as [r ex].
  destruct (shr_fexp _ _ _ _ _) as [sh e'].
  destruct (shr_m sh); [left | right | left]; eauto.
Qed.

Lemma finite_not_nan (v : float) : is_finite v = true → is_nan v = false.
Proof. unfold is_finite. by intros [Hnan _]%negb_true_iff%orb_false_iff. Qed.

Lemma finite_nonzero_binary64 (v : float) :
  is_finite v = true → is_zero v = false →
  ∃ s m e, Prim2SF v = S754_finite s m e.
Proof.
  intros Hfin Hzero. destruct (finite_binary64 v Hfin) as [[s Hs]|Hv]; [|done].
  unfold is_zero in Hzero. rewrite eqb_spec, Hs in Hzero. by destruct s.
Qed.

(** [v - v] is [+0] for every number that is neither infinite nor NaN. *)
Lemma sub_diag_binary64 (v : float) : is_finite v = true → v - v = 0.
Proof.
  intros Hv. apply Prim2SF_inj. rewrite sub_spec.
  destruct (finite_binary64 v Hv) as [[s ->]|(s & m & e & ->)].
  - by destruct s.
  - unfold SF64sub, SFsub. by rewrite Z.sub_diag.
Qed.

(** [x / x] is 1 for every number that is neither infinite, nor NaN, nor
    zero. *)
Lemma div_diag_binary64 (x : float) :
  is_finite x = true → is_zero x = false → x / x = 1.
Proof.
  intros Hfin Hzero.
  destruct (finite_nonzero_binary64 x Hfin Hzero) as (s & m & e & Hx).
  apply Prim2SF_inj. rewrite div_spec, Hx. apply SFdiv_diag.
Qed.

Lemma finite_SFfinite (v : float) : is_finite v = true → SFfinite (Prim2SF v) = true.
Proof. by intros [[s ->]|(s & m & e & ->)]%finite_binary64. Qed.


Lemma leb_not_nan (x y : float) :
  (x <=? y) = true → is_nan x = false ∧ is_nan y = false.
Proof.
  rewrite leb_spec. intros Hle.
  split; apply not_true_is_false; intros Hnan%Prim2SF_nan; rewrite Hnan in Hle;
    [done | by destruct (Prim2SF x) as [|[]| |[]]].
Qed.

(** In binary64 a value between the least and the greatest value of its
    channel is normalised to a number between 0 and 1, when the
    denominator is finite; the denominator is then not zero. *)
Lemma scale_unit_interval (lo hi v : float) :
  (lo <=? v) = true → (v <=? hi) = true →
  is_finite (hi - lo + eps) = true →
  (0 <=? scale lo hi v) = true ∧ (scale lo hi v <=? 1) = true
  ∧ is_zero (hi - lo + eps) = false.
Proof.
  intros Hlov Hvhi Hfin.
  destruct (leb_not_nan _ _ Hlov) as [Hlo Hv].
  destruct (leb_not_nan _ _ Hvhi) as [_ Hhi].
  apply leb_key in Hlov, Hvhi; [|done..].
  apply finite_SFfinite in Hfin.
  assert (valid_binary (SF64sub (Prim2SF v) (Prim2SF lo)) = true) as HvA
    by (rewrite <- sub_spec; apply Prim2SF_valid).
  assert (valid_binary (SF64sub (Prim2SF hi) (Prim2SF lo)) = true) as HvB
    by (rewrite <- sub_spec; apply Prim2SF_valid).
  assert (valid_binary (SF64add (SF64sub (Prim2SF v) (Prim2SF lo)) (Prim2SF eps)) = true)
    as HvN by (rewrite <- sub_spec, <- add_spec; apply Prim2SF_valid).
  assert (valid_binary (SF64add (SF64sub (Prim2SF hi) (Prim2SF lo)) (Prim2SF eps)) = true)
    as HvD by (rewrite <- sub_spec, <- add_spec; apply Prim2SF_valid).
  assert (SFfinite (SF64add (SF64sub (Prim2SF hi) (Prim2SF lo)) (Prim2SF eps)) = true)
    as HfD by (by rewrite <- sub_spec, <- add_spec).
  assert (SFfinite (Prim2SF eps) = true ∧ (0 < SFnum (Prim2SF eps))%Z) as [HfE HE]
    by (by rewrite Prim2SF_eps).
  destruct (scale_operands (Prim2SF lo) (Prim2SF hi) (Prim2SF v) (Prim2SF eps)
              (Prim2SF_valid lo) (Prim2SF_valid hi) (Prim2SF_valid v)
              (Prim2SF_not_nan v Hv) (Prim2SF_not_nan lo Hlo) (Prim2SF_not_nan hi Hhi)
              Hlov Hvhi HvA HvB (Prim2SF_valid eps) HfE HE HvN HvD HfD)
    as (mn & en & md & ed & HN & HD & Hle).
  rewrite <- !sub_spec, <- !add_spec in HN, HD.
  assert (valid_binary (S754_finite false mn en) = true) as HvN'
    by (rewrite <- HN; apply Prim2SF_valid).
  assert (valid_binary (S754_finite false md ed) = true) as HvD'
    by (rewrite <- HD; apply Prim2SF_valid).
  destruct (SFdiv_unit mn md en ed HvN' HvD' Hle) as (Hnan & H0 & H1).
  rewrite <- HN, <- HD, <- div_spec in Hnan, H0, H1.
  change ((v - lo + eps) / (hi - lo + eps)) with (scale lo hi v) in Hnan, H0, H1.
  assert (is_nan (scale lo hi v) = false) as Hw.
  { apply not_true_is_false. by intros ?%Prim2SF_nan. }
  split; [|split].
  - by apply leb_key.
  - by apply leb_key.
  - unfold is_zero. by rewrite eqb_spec, HD.
Qed.

(** NaN stays NaN. *)
Lemma is_nan_eq (x : float) : is_nan x = true → x = nan.
Proof. intros Hx%Prim2SF_nan. apply Prim2SF_inj. by rewrite Hx. Qed.

Lemma scale_nan (lo hi : float) : scale lo hi nan = nan.
Proof.
  unfold scale. simpl. apply Prim2SF_inj.
  rewrite div_spec, add_spec, sub_spec.
  change (Prim2SF nan) with S754_nan. done.
Qed.

(** C3, in the arithmetic of the notebook: normalisation replaces the
    value [v] of any row in any channel by
    [(v - lo + eps) / (hi - lo + eps)], every operation that of binary64
    and [eps] the binary64 number [0.000001], where [lo] and [hi] are what
    [min()] and [max()] give for that channel over all the rows of the
    frame that is normalised: the frame of the variant (train, line 76) or
    its labelled frame (test, line 128), never one run.  They are the
    least and the greatest number of the channel, NaN cells left aside,
    and NaN for a channel that holds nothing else. *)
Theorem normalize_formula {E} (df : frame float E) (i j : nat) (v : float) :
  cell df i j = Some v →
  eps = 0x1.0c6f7a0b5ed8dp-20
  ∧ ∃ lo hi,
      cell (normalize df) i j = Some ((v - lo + eps) / (hi - lo + eps))
      ∧ (channel_min df j lo ∧ channel_max df j hi
         ∨ (∀ r x, r ∈ df → chans r !! j = Some x → is_nan x = true)
           ∧ lo = nan ∧ hi = nan).
Proof.
  intros Hcell. split; [done|].
  destruct (normalize_cell df i j v Hcell) as [(lo & hi & Hlo & Hhi & Hnew)|[Hnan Hnew]].
  - exists lo, hi. split; [done|]. by left.
  - exists nan, nan. split; [|by right].
    apply cell_Some in Hcell as (r & Hi & Hc).
    assert (v = nan) as ->.
    { apply is_nan_eq, (Hnan r); [by eapply list_elem_of_lookup_2 | done]. }
    rewrite Hnew. reflexivity.
Qed.

(** C6, in the arithmetic of the notebook: in a channel whose denominator
    [hi - lo + eps], as binary64 computes it, is finite, every row that
    holds a number is normalised to a number between 0 and 1, and a value
    that is the greatest of its channel becomes exactly 1. *)
Theorem normalize_unit_interval {E} (df : frame float E)
    (i j : nat) (lo hi v : float) :
  cell df i j = Some v → is_nan v = false →
  channel_min df j lo → channel_max df j hi →
  is_finite (hi - lo + eps) = true →
  ∃ w,
    cell (normalize df) i j = Some w
    ∧ (0 <=? w) = true ∧ (w <=? 1) = true
    ∧ (channel_max df j v → w = 1).
Proof.
  intros Hcell Hv Hlo Hhi Hfin.
  pose proof Hcell as (r & Hi & Hc)%cell_Some.
  assert (r ∈ df) as Hr by (by eapply list_elem_of_lookup_2).
  assert ((lo <=? v) = true) as Hlov
    by (destruct Hlo as (_ & _ & Hle); exact (Hle r v Hr Hc Hv)).
  assert ((v <=? hi) = true) as Hvhi
    by (destruct Hhi as (_ & _ & Hge); exact (Hge r v Hr Hc Hv)).
  destruct (scale_unit_interval lo hi v Hlov Hvhi Hfin) as (H0 & H1 & Hzero).
  exists (scale lo hi v). split; [|split; [done|split; [done|]]].
  - destruct (normalize_cell df i j v Hcell)
      as [(lo' & hi' & Hlo' & Hhi' & ->)|[Hnan _]].
    + f_equal. apply scale_same.
      * by apply (channel_min_same df j).
      * by apply (channel_max_same df j).
      * by apply same_number_refl.
    + pose proof (Hnan r v Hr Hc) as Hv'. simpl in *. congruence.
  - intros Hmax.
    rewrite (scale_same lo lo hi hi v hi).
    + change (scale lo hi hi) with ((hi - lo + eps) / (hi - lo + eps)).
      by apply div_diag_binary64.
    + apply same_number_refl. by destruct Hlo.
    + apply same_number_refl. by destruct Hhi.
    + by apply (channel_max_same df j).
Qed.

(** C8, in the arithmetic of the notebook: in a channel whose least and
    greatest numbers are equal, and finite, every row that holds a number
    is normalised to [eps / eps], which is exactly 1: the division is by
    [eps], not by zero. *)
Theorem normalize_degenerate_channel {E} (df : frame float E)
    (i j : nat) (lo hi v : float) :
  channel_min df j lo → channel_max df j hi → (lo =? hi) = true →
  is_finite lo = true →
  cell df i j = Some v → is_nan v = false →
  cell (normalize df) i j = Some (eps / eps) ∧ eps / eps = 1.
Proof.
  intros Hlo Hhi Heq Hfin Hcell Hv. split; [|done].
  assert (same_number lo hi) as Hlohi.
  { destruct Hlo as (Hlonan & _), Hhi as (Hhinan & _).
    split; [done|]. split; [done|]. by apply eqb_key. }
  assert (same_number v lo) as Hvlo.
  { pose proof Hcell as (r & Hi & Hc)%cell_Some.
    assert (r ∈ df) as Hr by (by eapply list_elem_of_lookup_2).
    destruct Hlo as (Hlonan & _ & Hle), Hhi as (Hhinan & _ & Hge).
    pose proof (Hle r v Hr Hc Hv) as Hlov. pose proof (Hge r v Hr Hc Hv) as Hvhi.
    simpl in Hlonan, Hhinan, Hlov, Hvhi.
    apply leb_key in Hlov; [|done..]. apply leb_key in Hvhi; [|done..].
    destruct Hlohi as (_ & _ & Hkey). rewrite <- Hkey in Hvhi.
    split; [done|]. split; [done|]. by apply key_le_antisym. }
  destruct (normalize_cell df i j v Hcell)
    as [(lo' & hi' & Hlo' & Hhi' & ->)|[Hnan _]].
  - f_equal.
    rewrite (scale_same lo' lo hi' lo v lo).
    + unfold scale. simpl. by rewrite sub_diag_binary64.
    + by apply (channel_min_same df j).
    + apply same_number_trans with hi; [|by apply same_number_sym].
      by apply (channel_max_same df j).
    + done.
  - apply cell_Some in Hcell as (r & Hi & Hc).
    assert (nisnan v = true) as Hv'
      by (apply (Hnan r); [by eapply list_elem_of_lookup_2 | done]).
    simpl in *. congruence.
Qed.

End Binary64.

(** * The properties on the small folder *)

Example channels_24 : length channels = 24%nat.
Proof. reflexivity. Qed.

(** One run of three cycles: the labels are 2, 1, 0. *)
Example train_rul_three_cycles :
  ext <$> train_rul (normalize fd_train_3) = [Some 2; Some 1; Some 0].
Proof. vm_compute. reflexivity. Qed.

(** A run cut at cycle 120 with 30 cycles left: the label is 30 at cycle
    120 and 50 at cycle 100; run 3 has no reference and no label. *)
Example test_rul_truncated :
  ext <$> test_rul fd_rul fd_test = [Some 50; Some 5; Some 30; None].
Proof. vm_compute. reflexivity. Qed.

(** [round64] is the conversion of the Standard Library on whole numbers
    around the powers of two from [2^53] on, where the spacing of binary64
    doubles, and so is a sum and a difference of the model of float64. *)
Example round64_binary64 :
  Forall (λ z, Z_of_binary64 (binary64_of_Z z) = Some (round64 z))
    [0; 1; -1; 2 ^ 53 - 1; 2 ^ 53; 2 ^ 53 + 1; 2 ^ 53 + 2; 2 ^ 53 + 3;
     - (2 ^ 53 + 1); - (2 ^ 53 + 3); 2 ^ 54 + 2; 2 ^ 54 + 6; 2 ^ 54 + 7;
     2 ^ 62 + 511; 2 ^ 62 + 512; 2 ^ 62 + 513; 2 ^ 63 - 1; - 2 ^ 63; 2 ^ 64 - 1].
Proof. repeat constructor. Qed.

Example float64_binary64 :
  Z_of_binary64
    (SF64sub (SF64add (binary64_of_Z (2 ^ 53 + 1)) (binary64_of_Z 0))
             (binary64_of_Z 1))
  = float64_sub (float64_add (astype_float64 (Some (2 ^ 53 + 1)))
                             (astype_float64 (Some 0)))
                (astype_float64 (Some 1)).
Proof. vm_compute. reflexivity. Qed.



Lemma test_rul_label_witness :
  length (test_rul fd_rul fd_test) = length fd_test
  ∧ ∃ max_cycle,
      is_max_cycle fd_test 1 max_cycle
      ∧ test_rul fd_rul fd_test !! 0%nat
        = Some (Row 1 100 [10; 5]%float
                  (Some (if missing_reference fd_rul fd_test
                         then round64 (round64 (round64 max_cycle + round64 30)
                                       - round64 100)
                         else wrap64 (wrap64 (max_cycle + 30) - 100))))
      ∧ (0 ≤ 100 → 0 ≤ 30 → max_cycle + 30 < 2 ^ 53 →
         test_rul fd_rul fd_test !! 0%nat
         = Some (Row 1 100 [10; 5]%float (Some (max_cycle + 30 - 100)))).
Proof.
  exact (test_rul_label fd_rul fd_test 0 (Row 1 100 [10; 5]%float tt) 30
           eq_refl eq_refl).
Defined.


Lemma train_rul_order_independent_witness :
  train_rul fd_train ≡ₚ train_rul (reverse fd_train)
  ∧ ∀ i j r, fd_train !! i = Some r → reverse fd_train !! j = Some r →
             train_rul fd_train !! i = train_rul (reverse fd_train) !! j.
Proof.
  apply (train_rul_order_independent fd_train (reverse fd_train)).
  symmetry. apply reverse_Permutation.
Defined.

Lemma test_variant_missing_reference_witness :
  ∃ out r',
    test_variant folder 1 = Ok out
    ∧ length out = length fd_test
    ∧ out !! 3%nat = Some r'
    ∧ id r' = 3 ∧ cycle r' = 7 ∧ ext r' = None.
Proof.
  exact (test_variant_missing_reference folder 1 fd_test fd_rul 3
           (Row 3 7 [12; 5]%float tt) eq_refl eq_refl eq_refl eq_refl).
Defined.


Lemma normalize_frame_property_witness :
  ∃ out, test_variant folder 1 = Ok out
         ∧ id <$> out = id <$> test_rul fd_rul fd_test
         ∧ cycle <$> out = cycle <$> test_rul fd_rul fd_test
         ∧ ext <$> out = ext <$> test_rul fd_rul fd_test.
Proof.
  exact (proj2 normalize_frame_property folder 1%nat fd_test fd_rul eq_refl eq_refl).
Defined.

(** The statistics of the two channels of [fd_train]. *)
Lemma fd_train_channel_0 :
  channel_min fd_train 0 10%float ∧ channel_max fd_train 0 30%float.
Proof.
  split.
  - split; [reflexivity|]. split.
    + exists (Row 1 1 [10; 5]%float tt). split; [left | reflexivity].
    + intros r x Hr Hx _.
      repeat (apply elem_of_cons in Hr as [->|Hr]; [by injection Hx as <-|]).
      by apply elem_of_nil in Hr.
  - split; [reflexivity|]. split.
    + exists (Row 1 3 [30; 5]%float tt).
      split; [apply (list_elem_of_lookup_2 _ 3%nat) |]; reflexivity.
    + intros r x Hr Hx _.
      repeat (apply elem_of_cons in Hr as [->|Hr]; [by injection Hx as <-|]).
      by apply elem_of_nil in Hr.
Qed.

Lemma fd_train_channel_1 :
  channel_min fd_train 1 5%float ∧ channel_max fd_train 1 5%float.
Proof.
  split.
  - split; [reflexivity|]. split.
    + exists (Row 1 1 [10; 5]%float tt). split; [left | reflexivity].
    + intros r x Hr Hx _.
      repeat (apply elem_of_cons in Hr as [->|Hr]; [by injection Hx as <-|]).
      by apply elem_of_nil in Hr.
  - split; [reflexivity|]. split.
    + exists (Row 1 1 [10; 5]%float tt). split; [left | reflexivity].
    + intros r x Hr Hx _.
      repeat (apply elem_of_cons in Hr as [->|Hr]; [by injection Hx as <-|]).
      by apply elem_of_nil in Hr.
Qed.

Lemma normalize_formula_witness :
  eps = 0x1.0c6f7a0b5ed8dp-20%float
  ∧ ∃ lo hi,
      cell (normalize fd_train) 1 0 = Some ((20 - lo + eps) / (hi - lo + eps))%float
      ∧ (channel_min fd_train 0 lo ∧ channel_max fd_train 0 hi
         ∨ (∀ r x, r ∈ fd_train → chans r !! 0%nat = Some x → is_nan x = true)
           ∧ lo = nan ∧ hi = nan).
Proof. exact (normalize_formula fd_train 1 0 20%float eq_refl). Defined.

Lemma normalize_unit_interval_witness :
  ∃ w,
    cell (normalize fd_train) 3 0 = Some w
    ∧ (0 <=? w)%float = true ∧ (w <=? 1)%float = true
    ∧ (channel_max fd_train 0 30%float → w = 1%float).
Proof.
  apply (normalize_unit_interval fd_train 3 0 10%float 30%float 30%float).
  - reflexivity.
  - reflexivity.
  - exact (proj1 fd_train_channel_0).
  - exact (proj2 fd_train_channel_0).
  - reflexivity.
Defined.

Lemma normalize_degenerate_channel_witness :
  cell (normalize fd_train) 2 1 = Some (eps / eps)%float
  ∧ (eps / eps)%float = 1%float.
Proof.
  apply (normalize_degenerate_channel fd_train 2 1 5%float 5%float 5%float).
  - exact (proj1 fd_train_channel_1).
  - exact (proj2 fd_train_channel_1).
  - reflexivity.
  - reflexivity.
  - reflexivity.
  - reflexivity.
Defined.

(** * Where the notebook departs from the specification *)


(** C2 as the specification has it fails: in [fd_large] run 3 has no
    reference value, so that the labels are computed in float64; run 1
    ends at cycle [2^53 + 1] with the reference value 0, and its record at
    cycle 1 is labelled [2^53 - 1], not [2^53]. *)
Lemma test_rul_label_rounds :
  is_max_cycle fd_large 1 (2 ^ 53 + 1)
  ∧ reference_of fd_large_rul 1 = Some 0
  ∧ fd_large !! 0%nat = Some (Row 1 1 [] tt)
  ∧ test_rul fd_large_rul fd_large !! 0%nat
    = Some (Row 1 1 [] (Some (2 ^ 53 - 1)))
  ∧ 2 ^ 53 - 1 ≠ (2 ^ 53 + 1) + 0 - 1.
Proof.
  split; [|split; [reflexivity|split; [reflexivity|split; [vm_compute; reflexivity | lia]]]].
  split.
  - exists (Row 1 (2 ^ 53 + 1) [] tt).
    split; [apply (list_elem_of_lookup_2 _ 1%nat); reflexivity | split; reflexivity].
  - intros r Hr Hid.
    repeat (apply elem_of_cons in Hr as [->|Hr]; [simpl in *; lia|]).
    by apply elem_of_nil in Hr.
Qed.

(** C4 as the specification has it fails: run 3 of [fd_test] has no entry
    in [fd_rul], and the variant is labelled without an exception; its
    record has no label. *)
Lemma missing_reference_raises_nothing :
  test_FD folder 1 = Ok fd_test
  ∧ RUL_FD folder 1 = Ok fd_rul
  ∧ Row 3 7 [12; 5]%float tt ∈ fd_test
  ∧ reference_of fd_rul 3 = None
  ∧ test_variant folder 1 ≠ Raise (MissingRulReferenceError 3)
  ∧ ∃ out, test_variant folder 1 = Ok out
           ∧ ext <$> out = [Some 50; Some 5; Some 30; None].
Proof.
  split; [reflexivity|]. split; [reflexivity|].
  split; [apply (list_elem_of_lookup_2 _ 3%nat); reflexivity|].
  split; [reflexivity|]. split; [discriminate|].
  eexists. split; [reflexivity|]. vm_compute. reflexivity.
Qed.


(** C6 as the specification has it fails: the range of the channel of
    [fd_wide] is above the largest binary64 number, and the row that
    holds the greatest value of the channel is normalised to NaN, which
    is neither 1 nor a number between 0 and 1.  So is the row of [fd_nan]
    that holds NaN. *)
Lemma normalize_range_overflows :
  cell fd_wide 0 0 = Some 0x1.1ccf385ebc8ap+1023%float
  ∧ channel_max fd_wide 0 0x1.1ccf385ebc8ap+1023%float
  ∧ chans <$> normalize fd_wide = [[nan]; [0%float]; [0%float]]
  ∧ (∃ w, cell (normalize fd_nan) 1 0 = Some w ∧ w = nan)
  ∧ (0 <=? nan)%float = false ∧ (nan <=? 1)%float = false.
Proof.
  split; [reflexivity|].
  split; [|split; [vm_compute; reflexivity | split; [by exists nan | done]]].
  split; [reflexivity|]. split.
  - exists (Row 1 1 [0x1.1ccf385ebc8ap+1023%float] tt). split; [left | reflexivity].
  - intros r x Hr Hx _.
    repeat (apply elem_of_cons in Hr as [->|Hr]; [by injection Hx as <-|]).
    by apply elem_of_nil in Hr.
Qed.


(** C8 as the specification has it fails: the channel of [fd_infinity]
    holds one value in every row, its least and greatest values are
    equal, and every row is normalised to NaN, not to 1.  So is the row
    of [fd_constant_nan] that holds NaN, in a channel whose numbers are
    all equal. *)
Lemma normalize_infinite_channel :
  channel_min fd_infinity 0 infinity ∧ channel_max fd_infinity 0 infinity
  ∧ (infinity =? infinity)%float = true
  ∧ chans <$> normalize fd_infinity = [[nan]; [nan]]
  ∧ chans <$> normalize fd_constant_nan = [[1%float]; [nan]; [1%float]].
Proof.
  split; [|split; [|split; [reflexivity | split; vm_compute; reflexivity]]].
  - split; [reflexivity|]. split.
    + exists (Row 1 1 [infinity] tt). split; [left | reflexivity].
    + intros r x Hr Hx _.
      repeat (apply elem_of_cons in Hr as [->|Hr]; [by injection Hx as <-|]).
      by apply elem_of_nil in Hr.
  - split; [reflexivity|]. split.
    + exists (Row 1 1 [infinity] tt). split; [left | reflexivity].
    + intros r x Hr Hx _.
      repeat (apply elem_of_cons in Hr as [->|Hr]; [by injection Hx as <-|]).
      by apply elem_of_nil in Hr.
Qed.

(** * Further properties of the labelling *)

Section Labelling_properties.
Context {num : Type} `{Arith num}.

Lemma reference_of_None (df_rul : list Z) (k : Z) :
  reference_of df_rul k = None ↔ k < 1 ∨ Z.of_nat (length df_rul) < k.
Proof.
  unfold reference_of. case_decide as Hk.
  - rewrite lookup_ge_None. lia.
  - split; [lia | done].
Qed.

Lemma test_rul_lookup (df_rul : list Z) (df : frame num unit) (i : nat) :
  test_rul df_rul df !! i
  = (λ r, Row (id r) (cycle r) (chans r)
            (test_label (missing_reference df_rul df)
               (group_max df !! id r) (reference_of df_rul (id r)) (cycle r)))
      <$> df !! i.
Proof. by rewrite test_rul_rows, list_lookup_fmap. Qed.

(** X1: the frame [rul] of lines 81-82 and 121-122 has one row per run of
    [df] and no other: its ids are all different, an id is among them
    exactly when [df] has a row of that run, and the row of run [k] holds
    the largest cycle of the run. *)
Theorem reset_index_group_max {E} (df : frame num E) :
  NoDup (reset_index (group_max df)).*1
  ∧ (∀ k, k ∈ (reset_index (group_max df)).*1 ↔ ∃ r, r ∈ df ∧ id r = k)
  ∧ (∀ k m, (k, m) ∈ reset_index (group_max df) ↔ is_max_cycle df k m).
Proof.
  unfold reset_index. split; [apply NoDup_fst_map_to_list|]. split.
  - intros k. rewrite list_elem_of_fmap. split.
    + intros ([k' m] & -> & Hkm%elem_of_map_to_list). simpl.
      apply group_max_Some in Hkm as [(r & Hr & Hid & _) _]. eauto.
    + intros (r & Hr & <-). destruct (group_max_is_Some df r Hr) as [m Hm].
      exists (id r, m). split; [done|]. by apply elem_of_map_to_list.
  - intros k m. rewrite elem_of_map_to_list. apply group_max_Some.
Qed.

(** X2: in the test variant a record is left without a label (NaN)
    exactly when its run id is not a position of the reference file:
    below 1 or above the number of entries. *)
Theorem test_rul_nan_iff (df_rul : list Z) (df : frame num unit)
    (i : nat) (r : row num unit) :
  df !! i = Some r →
  ∃ r', test_rul df_rul df !! i = Some r'
        ∧ (ext r' = None ↔ id r < 1 ∨ Z.of_nat (length df_rul) < id r).
Proof.
  intros Hi. rewrite test_rul_lookup, Hi. simpl. eexists. split; [done|]. simpl.
  rewrite <- reference_of_None.
  destruct (group_max_is_Some df r) as [m ->]; [by eapply list_elem_of_lookup_2|].
  destruct (reference_of df_rul (id r)); [|by rewrite test_label_None].
  unfold test_label. by destruct (missing_reference df_rul df).
Qed.

(** X3: when every run of the series has a reference value, the test
    label of a record is its train label plus the reference value of its
    run, in int64: the test labelling is the train labelling followed by
    the addition of [RUL_end]. *)
Theorem test_rul_from_train_rul (df_rul : list Z) (df : frame num unit) :
  missing_reference df_rul df = false →
  test_rul df_rul df
  = (λ r, Row (id r) (cycle r) (chans r)
            (int64_add (ext r) (reference_of df_rul (id r)))) <$> train_rul df.
Proof.
  intros Hall. rewrite test_rul_rows, train_rul_rows, <- list_fmap_compose, Hall.
  apply list_fmap_ext. intros i r Hi. simpl. f_equal.
  destruct (group_max df !! id r) as [m|]; [|done].
  destruct (reference_of df_rul (id r)) as [t|]; [|done].
  unfold test_label, int64_sub, int64_add, nan_lift. csimpl. f_equal.
  rewrite wrap64_sub_l, wrap64_add_l. f_equal. lia.
Qed.

(** X4: in a test-labelled frame, of two records of one run that has a
    reference value the one at the later cycle has the smaller or equal
    label; no label is below the reference value, and a label equals it
    exactly at the last recorded cycle of the run.  The cycles and the
    reference value are not negative, and the last cycle and the
    reference value together are below [2^53]. *)
Theorem test_rul_monotone (df_rul : list Z) (df : frame num unit)
    (r1 r2 : row num (option Z)) (true_rul max_cycle : Z) :
  r1 ∈ test_rul df_rul df → r2 ∈ test_rul df_rul df →
  id r1 = id r2 → cycle r1 ≤ cycle r2 →
  reference_of df_rul (id r1) = Some true_rul →
  is_max_cycle df (id r1) max_cycle →
  0 ≤ cycle r1 → 0 ≤ true_rul → max_cycle + true_rul < 2 ^ 53 →
  ∃ rul1 rul2,
    ext r1 = Some rul1 ∧ ext r2 = Some rul2
    ∧ true_rul ≤ rul2 ≤ rul1
    ∧ (rul1 = true_rul ↔ cycle r1 = max_cycle)
    ∧ (rul2 = true_rul ↔ cycle r2 = max_cycle).
Proof.
  rewrite test_rul_rows.
  intros (s1 & -> & Hs1)%list_elem_of_fmap (s2 & -> & Hs2)%list_elem_of_fmap.
  simpl. intros Hid Hcycle Href Hmax%group_max_Some Hc Ht Hsmall.
  pose proof (proj1 (group_max_Some df _ _) Hmax) as [_ Hle].
  pose proof (Hle s1 Hs1 eq_refl). pose proof (Hle s2 Hs2 (eq_sym Hid)).
  exists (max_cycle + true_rul - cycle s1), (max_cycle + true_rul - cycle s2).
  rewrite <- Hid, Hmax, Href. rewrite !test_label_exact by lia.
  repeat split; lia.
Qed.

(** X5: the test labels do not depend on the order of the rows either. *)
Theorem test_rul_order_independent (df_rul : list Z) (df df' : frame num unit) :
  df ≡ₚ df' →
  test_rul df_rul df ≡ₚ test_rul df_rul df'
  ∧ ∀ i j r, df !! i = Some r → df' !! j = Some r →
             test_rul df_rul df !! i = test_rul df_rul df' !! j.
Proof.
  intros Hperm. rewrite !test_rul_rows.
  rewrite <- (group_max_Permutation df df' Hperm).
  rewrite <- (missing_reference_ext df_rul df_rul df df').
  - split.
    + by apply fmap_Permutation.
    + intros i j r Hi Hj. by rewrite !list_lookup_fmap, Hi, Hj.
  - intros k. split; intros (r & Hr & Hid); exists r; split; try done.
    + by rewrite <- Hperm.
    + by rewrite Hperm.
  - done.
Qed.

(** X6: the test labelling reads the reference file only at the positions
    of the run ids of the series: two reference files that agree there
    give the same labelled frame, so that entries beyond the runs of the
    series are ignored. *)
Theorem test_rul_reference_positions (a b : list Z) (df : frame num unit) :
  (∀ r, r ∈ df → reference_of a (id r) = reference_of b (id r)) →
  test_rul a df = test_rul b df.
Proof.
  intros Hagree. rewrite !test_rul_rows.
  rewrite (missing_reference_ext a b df df) by done.
  apply list_fmap_ext.
  intros i r Hi. by rewrite (Hagree r) by (by eapply list_elem_of_lookup_2).
Qed.

Lemma column_fmap {E F} (f : row num E → row num F) (df : frame num E) (j : nat) :
  (∀ r, chans (f r) = chans r) → column j (f <$> df) = column j df.
Proof.
  intros Hf. unfold column. induction df as [|r df IH]; [done|].
  csimpl. rewrite Hf, IH. done.
Qed.

Lemma normalize_fmap {E F} (f : row num E → row num F) (g : row num E → F)
    (df : frame num E) :
  (∀ r, f r = Row (id r) (cycle r) (chans r) (g r)) →
  normalize (f <$> df)
  = (λ r, Row (id r) (cycle r) (imap (scale_cell df) (chans r)) (g r)) <$> df.
Proof.
  intros Hf.
  assert (∀ j v, scale_cell (f <$> df) j v = scale_cell df j v) as Hcell.
  { intros j v. unfold scale_cell. rewrite column_fmap; [done|].
    intros r. by rewrite Hf. }
  unfold normalize. rewrite <- list_fmap_compose.
  apply list_fmap_ext. intros i r _. unfold compose. rewrite Hf. simpl. f_equal.
  apply imap_ext. intros j v _. apply Hcell.
Qed.

Lemma missing_reference_normalize {E} (df_rul : list Z) (df : frame num E) :
  missing_reference df_rul (normalize df) = missing_reference df_rul df.
Proof.
  apply missing_reference_ext; [|done]. intros k. unfold normalize.
  split.
  - intros (r & (r' & -> & Hr')%list_elem_of_fmap & Hid). by exists r'.
  - intros (r & Hr & Hid).
    exists (Row (id r) (cycle r) (imap (scale_cell df) (chans r)) (ext r)).
    split; [|done]. apply list_elem_of_fmap. by exists r.
Qed.

(** X7: labelling and normalisation commute.  The training cell
    normalises and then labels, the test cell labels and then normalises;
    either order gives the same frame. *)
Theorem labelling_commutes_with_normalize (df_rul : list Z) (df : frame num unit) :
  train_rul (normalize df) = normalize (train_rul df)
  ∧ test_rul df_rul (normalize df) = normalize (test_rul df_rul df).
Proof.
  assert (group_max (normalize df) = group_max df) as Hmax
    by (by apply group_max_fmap).
  split.
  - rewrite (train_rul_rows df), (normalize_fmap _ _ _ (λ r, eq_refl)).
    rewrite train_rul_rows, Hmax. unfold normalize.
    rewrite <- list_fmap_compose. by apply list_fmap_ext.
  - rewrite (test_rul_rows _ df), (normalize_fmap _ _ _ (λ r, eq_refl)).
    rewrite test_rul_rows, Hmax, missing_reference_normalize. unfold normalize.
    rewrite <- list_fmap_compose. by apply list_fmap_ext.
Qed.

(** X9: the column [RUL] of a train-labelled frame is an int64 column: no
    record is without a label, and every label lies in [[-2^63, 2^63)]. *)
Theorem train_rul_int64 (df : frame num unit) (r : row num (option Z)) :
  r ∈ train_rul df →
  ∃ rul, ext r = Some rul ∧ - 2 ^ 63 ≤ rul < 2 ^ 63.
Proof.
  rewrite train_rul_rows. intros (s & -> & Hs)%list_elem_of_fmap. simpl.
  destruct (group_max_is_Some df s Hs) as [m ->]. simpl.
  eexists. split; [done|]. apply wrap64_range.
Qed.

End Labelling_properties.

(** * Normalisation in exact arithmetic *)

Section Exact_arithmetic.
#[local] Open Scope Q_scope.

(** The rationals in their order. *)
#[export] Instance Q_ordered : Ordered Q.
Proof.
  split.
  - intros a b _ _. simpl. rewrite !Qle_bool_iff.
    destruct (Qlt_le_dec a b); [left; lra | by right].
  - intros a b c _ _ _. simpl. rewrite !Qle_bool_iff. lra.
Qed.

Lemma channel_min_unique {E} (df : frame Q E) (j : nat) (a b : Q) :
  channel_min df j a → channel_min df j b → a == b.
Proof.
  intros (_ & (ra & Hra & Ha) & Hale) (_ & (rb & Hrb & Hb) & Hble).
  specialize (Hale _ _ Hrb Hb eq_refl). specialize (Hble _ _ Hra Ha eq_refl).
  simpl in *. apply Qle_bool_iff in Hale, Hble. lra.
Qed.

Lemma channel_max_unique {E} (df : frame Q E) (j : nat) (a b : Q) :
  channel_max df j a → channel_max df j b → a == b.
Proof.
  intros (_ & (ra & Hra & Ha) & Hale) (_ & (rb & Hrb & Hb) & Hble).
  specialize (Hale _ _ Hrb Hb eq_refl). specialize (Hble _ _ Hra Ha eq_refl).
  simpl in *. apply Qle_bool_iff in Hale, Hble. lra.
Qed.

Lemma scale_proper (lo lo' hi hi' v : Q) :
  lo == lo' → hi == hi' → scale lo hi v == scale lo' hi' v.
Proof. intros Hlo Hhi. unfold scale. simpl. by rewrite Hlo, Hhi. Qed.

(** X10: the normalised value of a record does not depend on the order of
    the rows: in a frame that holds the same rows in another order the
    record has the same normalised values. *)
Theorem normalize_order_independent {E} (df df' : frame Q E)
    (i i' j : nat) (r : row Q E) (v : Q) :
  df ≡ₚ df' →
  df !! i = Some r → df' !! i' = Some r → chans r !! j = Some v →
  ∃ w w',
    cell (normalize df) i j = Some w
    ∧ cell (normalize df') i' j = Some w'
    ∧ w == w'.
Proof.
  intros Hperm Hi Hi' Hv.
  assert (r ∈ df) as Hr by (by eapply list_elem_of_lookup_2).
  assert (r ∈ df') as Hr' by (by eapply list_elem_of_lookup_2).
  destruct (normalize_cell df i j v) as [(lo & hi & Hmin & Hmax & Hw)|[Hnan _]];
    [apply cell_Some; eauto | | by specialize (Hnan r v Hr Hv)].
  destruct (normalize_cell df' i' j v) as [(lo' & hi' & Hmin' & Hmax' & Hw')|[Hnan _]];
    [apply cell_Some; eauto | | by specialize (Hnan r v Hr' Hv)].
  exists (scale lo hi v), (scale lo' hi' v).
  split; [done|]. split; [done|].
  assert (channel_min df j lo') as Hmin2.
  { destruct Hmin' as (Hnan & (r0 & Hr0 & Hc0) & Hle). split; [done|]. split.
    - exists r0. by rewrite Hperm.
    - intros r1 x Hr1. apply Hle. by rewrite <- Hperm. }
  assert (channel_max df j hi') as Hmax2.
  { destruct Hmax' as (Hnan & (r0 & Hr0 & Hc0) & Hle). split; [done|]. split.
    - exists r0. by rewrite Hperm.
    - intros r1 x Hr1. apply Hle. by rewrite <- Hperm. }
  apply scale_proper.
  - apply (channel_min_unique df j _ _ Hmin Hmin2).
  - apply (channel_max_unique df j _ _ Hmax Hmax2).
Qed.

End Exact_arithmetic.

(** * Further properties of the normalisation *)

Section Binary64_channels.
#[local] Open Scope float_scope.
#[local] Existing Instance binary64_ordered.

(** X8: a NaN cell stays NaN: normalisation leaves it out of the
    statistics of its channel and does not fill it. *)
Theorem normalize_nan_cell {E} (df : frame float E) (i j : nat) (v : float) :
  cell df i j = Some v → is_nan v = true →
  cell (normalize df) i j = Some nan.
Proof.
  intros Hcell Hv%is_nan_eq. subst v.
  destruct (normalize_cell df i j nan Hcell) as [(lo & hi & _ & _ & ->)|[_ ->]];
    [|done].
  by rewrite scale_nan.
Qed.

(** X17: the degenerate channel of C8 in the arithmetic of the notebook: when
    every row holds the same finite number in a channel, each is
    normalised to [(0 + eps) / (0 + eps)], and that is 1 in binary64. *)
Lemma normalize_degenerate_binary64 {E} (df : frame float E)
    (i j : nat) (v : float) :
  (∀ r x, r ∈ df → chans r !! j = Some x → x = v) →
  is_finite v = true →
  cell df i j = Some v →
  cell (normalize df) i j = Some 1.
Proof.
  intros Hconst Hv Hcell.
  assert (nisnan v = false) as Hnan by (by apply finite_not_nan).
  rewrite (normalize_constant_channel df i j v Hnan Hconst Hcell).
  unfold scale. simpl. by rewrite sub_diag_binary64.
Qed.

(** X18: a frame with a single row, of finite numbers, is normalised to
    a row of ones: every channel of it is degenerate. *)
Theorem normalize_single_row_binary64 {E} (r : row float E) :
  (∀ x, x ∈ chans r → is_finite x = true) →
  normalize [r] = [Row (id r) (cycle r) ((λ _, 1) <$> chans r) (ext r)].
Proof.
  intros Hfinite. unfold normalize. simpl. do 2 f_equal.
  apply list_eq. intros j. rewrite list_lookup_imap, list_lookup_fmap.
  destruct (chans r !! j) as [v|] eqn:Hv; simpl; [|done]. f_equal.
  assert (is_finite v = true) as Hfin
    by (apply Hfinite; by eapply list_elem_of_lookup_2).
  destruct (col_statistics_constant (column j [r]) v) as [Hmin Hmax].
  - by apply finite_not_nan.
  - unfold column. simpl. rewrite Hv. left.
  - unfold column. simpl. rewrite Hv. by intros x ->%list_elem_of_singleton.
  - unfold scale_cell. rewrite Hmin, Hmax.
    unfold scale. simpl. by rewrite sub_diag_binary64.
Qed.

End Binary64_channels.

(** The channel [10, 20, 30] of the specification on binary64 numbers: the
    greatest value becomes 1, the others lie between 0 and 1. *)
Example binary64_channel :
  let out := chans <$> normalize [Row 1 1 [10%float] tt; Row 1 2 [20%float] tt;
                                  Row 1 3 [30%float] tt] in
  out !! 2%nat = Some [1%float]
  ∧ forallb (forallb (λ w, (0 <=? w)%float && (w <=? 1)%float)) out = true.
Proof. vm_compute. split; reflexivity. Qed.

(** The degenerate channel on binary64 numbers. *)
Example binary64_degenerate :
  chans <$> normalize [Row 1 1 [5%float] tt; Row 1 2 [5%float] tt]
  = [[1%float]; [1%float]].
Proof. vm_compute. reflexivity. Qed.

(** A NaN cell is left aside by the statistics: the two other rows are
    normalised as they are without it. *)
Example binary64_nan_cell :
  chans <$> normalize fd_nan
  = [[scale 10 30 10]; [nan]; [1]]%float.
Proof. vm_compute. reflexivity. Qed.

(** * Further properties of the cells *)

Section Cell_properties.
Context {num : Type} `{Arith num}.

(** What a loop that appends leaves: the frames of the variants, in order,
    up to the first one that raises. *)
Lemma for_append_shape {B} (body : nat → result B) (l : list nat)
    (acc res : list B) (e : option exn) :
  for_append body l acc = (res, e) →
  ∃ outs,
    res = acc ++ outs
    ∧ Forall2 (λ i out, body i = Ok out) (take (length outs) l) outs
    ∧ match e with
      | None => length outs = length l
      | Some e => ∃ k, l !! length outs = Some k ∧ body k = Raise e
      end.
Proof.
  revert acc. induction l as [|i l IH]; intros acc; simpl.
  - intros [= <- <-]. exists []. by rewrite app_nil_r.
  - destruct (body i) as [df|e0] eqn:Hi.
    + intros (outs & -> & Hall & He)%IH. exists (df :: outs).
      rewrite <- app_assoc. split; [done|]. simpl. split; [by constructor|].
      destruct e; [done|]. by rewrite He.
    + intros [= <- <-]. exists []. rewrite app_nil_r. split; [done|].
      split; [constructor|]. by exists i.
Qed.

Lemma Forall2_through {A B C} (P : A → B → Prop) (g : B → C)
    (l : list A) (outs : list C) :
  Forall2 (λ i out, ∃ o, P i o ∧ out = g o) l outs →
  ∃ os, Forall2 P l os ∧ outs = g <$> os.
Proof.
  induction 1 as [|i out l outs (o & Ho & ->) _ (os & Hos & ->)].
  - by exists [].
  - exists (o :: os). split; [by constructor | done].
Qed.

Lemma train_variant_Ok (d : data_folder num) (i : nat) (out : frame num unit) :
  train_variant d i = Ok out ↔ ∃ df, train_FD d i = Ok df ∧ out = normalize df.
Proof.
  unfold train_variant. destruct (train_FD d i) as [df|e]; simpl.
  - split; [intros [= <-]; eauto | by intros (? & [= <-] & ->)].
  - split; [done | by intros (? & ? & _)].
Qed.

(** X11: the training cell runs to its end exactly when the four training
    files load, and [train_df] then holds four frames: the frame at index
    [n] is the labelled, normalised frame of variant [n + 1]. *)
Theorem train_cell_Done (d : data_folder num) (train_df : list (frame num (option Z))) :
  train_cell d = Done train_df
  ↔ Forall2 (λ i out, ∃ df, train_FD d i = Ok df
                          ∧ out = train_rul (normalize df))
      variants train_df.
Proof.
  split.
  - unfold train_cell.
    destruct (for_append (train_variant d) variants []) as [outs e] eqn:Hloop.
    apply for_append_shape in Hloop as (outs' & -> & Hall & He).
    destruct e as [e|]; [done|]. intros [= <-].
    rewrite He, take_ge in Hall by done. simpl.
    apply Forall2_fmap_r. eapply Forall2_impl; [exact Hall|].
    intros i out (df & Hdf & ->)%train_variant_Ok. eauto.
  - intros Hall.
    destruct (Forall2_through
                (λ i o, train_variant d i = Ok o) train_rul variants train_df)
      as (os & Hos & ->).
    { eapply Forall2_impl; [exact Hall|]. intros i out (df & Hdf & ->).
      exists (normalize df). split; [|done]. apply train_variant_Ok. eauto. }
    by apply train_cell_all_variants.
Qed.

(** X12: however the test cell ends, [test_df] holds at index [n] the
    frame of variant [n + 1].  Without an exception there are four; with
    one there are fewer, and the exception is that of the variant after
    the last one in the list. *)
Theorem test_cell_shape (d : data_folder num)
    (test_df : list (frame num (option Z))) (e : option exn) :
  test_cell d = (test_df, e) →
  (∀ n out, test_df !! n = Some out → test_variant d (S n) = Ok out)
  ∧ match e with
    | None => length test_df = 4%nat
    | Some e => (length test_df < 4)%nat
                ∧ test_variant d (S (length test_df)) = Raise e
    end.
Proof.
  unfold test_cell. intros (outs & -> & Hall & He)%for_append_shape. simpl.
  assert (length outs ≤ 4)%nat as Hlen.
  { pose proof (Forall2_length _ _ _ Hall) as Htake.
    rewrite length_take in Htake.
    assert (length variants = 4%nat) as Hfour by done. lia. }
  split.
  - intros n out Hn.
    destruct (Forall2_lookup_r _ _ _ _ _ Hall Hn) as (i & Hi & Hbody).
    apply lookup_take_Some in Hi as [Hi _]. unfold variants in Hi.
    apply lookup_seq in Hi as [-> _]. done.
  - destruct e as [e|]; [|done]. destruct He as (k & Hk & Hraise).
    unfold variants in Hk. apply lookup_seq in Hk as [-> Hlt]. done.
Qed.

End Cell_properties.

(** * Properties of the upload cell *)

Section Upload_properties.
Context {num : Type} (to_csv : frame num (option Z) → string).

Lemma startswith_app (s p : string) :
  startswith s p = true → ∃ rest, s = p +:+ rest.
Proof.
  unfold startswith. revert s. induction p as [|a p IH]; intros s; simpl.
  - by exists s.
  - destruct s as [|b s]; simpl; [done|].
    destruct (Ascii.ascii_dec a b) as [->|]; [|done].
    intros [rest ->]%IH. by exists rest.
Qed.

Lemma startswith_app_true (p rest : string) : startswith (p +:+ rest) p = true.
Proof.
  unfold startswith. induction p as [|a p IH]; simpl; [by destruct rest|].
  by destruct (Ascii.ascii_dec a a).
Qed.

Lemma s3_test_file_key (i : nat) :
  s3_test_file i = "pred-maintenance-artifacts/data/test-" +:+ pretty i +:+ ".csv".
Proof. reflexivity. Qed.

Lemma s3_train_file_key (i : nat) :
  s3_train_file i = "pred-maintenance-artifacts/train/train-" +:+ pretty i +:+ ".csv".
Proof. reflexivity. Qed.

Lemma raw_key (full_path : string) :
  startswith full_path "data/" = true →
  path_join prefix [full_path] = "pred-maintenance-artifacts/" +:+ full_path.
Proof. intros [rest ->]%startswith_app. reflexivity. Qed.

Lemma string_length_app (s t : string) :
  String.length (s +:+ t) = (String.length s + String.length t)%nat.
Proof. induction s as [|a s IH]; simpl; [done | by rewrite IH]. Qed.

Lemma string_app_inv_tail (s1 s2 t : string) : s1 +:+ t = s2 +:+ t → s1 = s2.
Proof.
  revert s2. induction s1 as [|a s1 IH]; intros [|b s2] Heq; simpl in Heq.
  - done.
  - apply (f_equal String.length) in Heq.
    rewrite !string_length_app in Heq. simpl in Heq. lia.
  - apply (f_equal String.length) in Heq.
    rewrite !string_length_app in Heq. simpl in Heq. lia.
  - injection Heq as -> Heq. f_equal. by apply IH.
Qed.

(** Names built around the number of a frame are different for different
    numbers. *)
Lemma csv_name_inj (a : string) (i j : nat) :
  a +:+ pretty i +:+ ".csv" = a +:+ pretty j +:+ ".csv" → i = j.
Proof.
  intros Heq%(inj (String.app a))%string_app_inv_tail. by apply (inj pretty).
Qed.

(** One upload loop over frames, for any numbers [l] of frames. *)
Lemma for_each_frames (local_file s3_file : nat → string)
    (dfs : list (frame num (option Z))) (l : list nat) (st : store) :
  Inj (=) (=) local_file → Inj (=) (=) s3_file →
  NoDup l → (∀ i, i ∈ l → is_Some (dfs !! i)) →
  ∃ st',
    for_each (λ i st,
        match dfs !! i with
        | Some df =>
            let st := Store (<[local_file i := to_csv df]> (disk st)) (s3 st) in
            upload_file (s3_file i) (local_file i) st
        | None => Raise IndexError
        end) l st = Ok st'
    ∧ (∀ q, (∀ i, i ∈ l → q ≠ local_file i) → disk st' !! q = disk st !! q)
    ∧ (∀ k, (∀ i, i ∈ l → k ≠ s3_file i) → s3 st' !! k = s3 st !! k)
    ∧ (∀ i df, i ∈ l → dfs !! i = Some df →
               disk st' !! local_file i = Some (to_csv df)
               ∧ s3 st' !! s3_file i = Some (to_csv df)).
Proof.
  intros Hlocal Hs3. revert st.
  induction l as [|i l IH]; intros st Hnodup Hin; simpl.
  - exists st. split; [done|]. split; [done|]. split; [done|].
    intros i df Hi. by apply elem_of_nil in Hi.
  - apply NoDup_cons in Hnodup as [Hi Hnodup].
    destruct (Hin i) as [df Hdf]; [left|]. rewrite Hdf. simpl.
    unfold upload_file at 1. simpl. rewrite lookup_insert_eq. simpl.
    set (st1 := Store (<[local_file i := to_csv df]> (disk st))
                      (<[s3_file i := to_csv df]> (s3 st))).
    destruct (IH st1 Hnodup) as (st' & Hrun & Hdisk & Hbucket & Hnew).
    { intros i' Hi'. apply Hin. by right. }
    exists st'. split; [done|]. split; [|split].
    + intros q Hq. rewrite Hdisk by (intros i' Hi'; apply Hq; by right).
      simpl. apply lookup_insert_ne. apply not_eq_sym, Hq. left.
    + intros k Hk. rewrite Hbucket by (intros i' Hi'; apply Hk; by right).
      simpl. apply lookup_insert_ne. apply not_eq_sym, Hk. left.
    + intros i' df' [->|Hi']%elem_of_cons Hdf'; [|by apply Hnew].
      assert (df' = df) as -> by congruence.
      rewrite Hdisk, Hbucket; simpl.
      * by rewrite !lookup_insert_eq.
      * intros i' Hi' Heq%(inj s3_file). by subst.
      * intros i' Hi' Heq%(inj local_file). by subst.
Qed.

Lemma upload_frames_spec (local_file s3_file : nat → string)
    (dfs : list (frame num (option Z))) (st : store) :
  Inj (=) (=) local_file → Inj (=) (=) s3_file →
  ∃ st',
    upload_frames to_csv local_file s3_file dfs st = Ok st'
    ∧ (∀ q, (∀ i, (i < length dfs)%nat → q ≠ local_file i) →
            disk st' !! q = disk st !! q)
    ∧ (∀ k, (∀ i, (i < length dfs)%nat → k ≠ s3_file i) →
            s3 st' !! k = s3 st !! k)
    ∧ (∀ i df, dfs !! i = Some df →
               disk st' !! local_file i = Some (to_csv df)
               ∧ s3 st' !! s3_file i = Some (to_csv df)).
Proof.
  intros Hlocal Hs3. unfold upload_frames.
  destruct (for_each_frames local_file s3_file dfs (seq 0 (length dfs)) st)
    as (st' & Hrun & Hdisk & Hbucket & Hnew); try done.
  { apply NoDup_seq. }
  { intros i [_ Hi]%elem_of_seq. by apply lookup_lt_is_Some. }
  exists st'. split; [done|]. split; [|split].
  - intros q Hq. apply Hdisk. intros i [_ Hi]%elem_of_seq. apply Hq. lia.
  - intros k Hk. apply Hbucket. intros i [_ Hi]%elem_of_seq. apply Hk. lia.
  - intros i df Hdf. apply Hnew; [|done].
    apply elem_of_seq. apply lookup_lt_Some in Hdf. lia.
Qed.

Lemma for_each_cons {A} (body : A → store → result store) (x : A) (l : list A)
    (st : store) :
  for_each body (x :: l) st = bind (body x st) (for_each body l).
Proof. reflexivity. Qed.

(** The loop over the files that the walk finds. *)
Lemma for_each_raw (l : list string) (st : store) :
  (∀ p, p ∈ l → is_Some (disk st !! p) ∧ startswith p "data/" = true) →
  ∃ st',
    for_each (λ full_path, upload_file (path_join prefix [full_path]) full_path)
      l st = Ok st'
    ∧ disk st' = disk st
    ∧ (∀ k, (∀ p, p ∈ l → k ≠ "pred-maintenance-artifacts/" +:+ p) →
            s3 st' !! k = s3 st !! k)
    ∧ (∀ p, p ∈ l →
            s3 st' !! ("pred-maintenance-artifacts/" +:+ p) = disk st !! p).
Proof.
  revert st. induction l as [|p l IH]; intros st Hl.
  - exists st. split; [done|]. split; [done|]. split; [done|].
    intros p Hp. by apply elem_of_nil in Hp.
  - destruct (Hl p) as [[text Htext] Hdata]; [left|].
    rewrite for_each_cons, (raw_key p Hdata).
    unfold upload_file at 1. rewrite Htext. simpl.
    set (st1 := Store (disk st)
                      (<["pred-maintenance-artifacts/" +:+ p := text]> (s3 st))).
    destruct (IH st1) as (st' & Hrun & Hdisk & Hbucket & Hnew).
    { intros p' Hp'. apply Hl. by right. }
    exists st'. split; [done|]. split; [done|]. split.
    + intros k Hk. rewrite Hbucket by (intros p' Hp'; apply Hk; by right).
      simpl. apply lookup_insert_ne. apply not_eq_sym, Hk. left.
    + intros p' Hp'. destruct (decide (p' ∈ l)) as [Hin|Hout]; [by apply Hnew|].
      apply elem_of_cons in Hp' as [->|Hp']; [|done].
      rewrite Hbucket; simpl.
      * by rewrite lookup_insert_eq.
      * intros p' Hp' Heq%(inj (String.app _)). by subst.
Qed.

Lemma elem_of_walk (st : store) (p : string) :
  p ∈ walk st ↔ is_Some (disk st !! p) ∧ startswith p "data/" = true.
Proof.
  unfold walk. rewrite list_elem_of_fmap. split.
  - intros ([p' text] & -> & Hp%elem_of_map_to_list). simpl.
    apply map_lookup_filter_Some in Hp as [Hp Hdata]. eauto.
  - intros [[text Hp] Hdata]. exists (p, text). split; [done|].
    apply elem_of_map_to_list, map_lookup_filter_Some. done.
Qed.

Lemma upload_raw_spec (st : store) :
  ∃ st',
    upload_raw st = Ok st'
    ∧ disk st' = disk st
    ∧ (∀ k, (∀ p, is_Some (disk st !! p) → startswith p "data/" = true →
                  k ≠ "pred-maintenance-artifacts/" +:+ p) →
            s3 st' !! k = s3 st !! k)
    ∧ (∀ p, is_Some (disk st !! p) → startswith p "data/" = true →
            s3 st' !! ("pred-maintenance-artifacts/" +:+ p) = disk st !! p).
Proof.
  unfold upload_raw.
  destruct (for_each_raw (walk st) st) as (st' & Hrun & Hdisk & Hbucket & Hnew).
  { intros p Hp. by apply elem_of_walk. }
  exists st'. split; [done|]. split; [done|]. split.
  - intros k Hk. apply Hbucket. intros p [Hp Hdata]%elem_of_walk. by apply Hk.
  - intros p Hp Hdata. apply Hnew. by apply elem_of_walk.
Qed.

#[local] Instance local_test_file_inj : Inj (=) (=) local_test_file.
Proof. intros i j. apply csv_name_inj. Qed.
#[local] Instance local_train_file_inj : Inj (=) (=) local_train_file.
Proof. intros i j. apply csv_name_inj. Qed.
#[local] Instance s3_test_file_inj : Inj (=) (=) s3_test_file.
Proof. intros i j. rewrite !s3_test_file_key. apply csv_name_inj. Qed.
#[local] Instance s3_train_file_inj : Inj (=) (=) s3_train_file.
Proof. intros i j. rewrite !s3_train_file_key. apply csv_name_inj. Qed.

(** What the cell writes below [data/] of the bucket is not below
    [train/], and the other way round; the same for the two kinds of local
    file. *)
Lemma test_key_not_train_key (i j : nat) : s3_test_file i ≠ s3_train_file j.
Proof.
  intros Heq%(f_equal (λ k, startswith k "pred-maintenance-artifacts/train/")).
  rewrite s3_test_file_key, s3_train_file_key in Heq. by lazy in Heq.
Qed.

Lemma local_test_not_local_train (i j : nat) : local_test_file i ≠ local_train_file j.
Proof. intros Heq%(f_equal (λ k, startswith k "data/tr")). by lazy in Heq. Qed.

(** The three loops of the cell, one after the other. *)
Lemma upload_cell_loops (test_df train_df : list (frame num (option Z))) (st : store) :
  ∃ st1 st2 st3,
    upload_raw st = Ok st1
    ∧ upload_frames to_csv local_test_file s3_test_file test_df st1 = Ok st2
    ∧ upload_frames to_csv local_train_file s3_train_file train_df st2 = Ok st3
    ∧ upload_cell to_csv test_df train_df st = Ok st3.
Proof.
  destruct (upload_raw_spec st) as (st1 & Hraw & _).
  destruct (upload_frames_spec local_test_file s3_test_file test_df st1)
    as (st2 & Htest & _); [apply _ .. |].
  destruct (upload_frames_spec local_train_file s3_train_file train_df st2)
    as (st3 & Htrain & _); [apply _ .. |].
  exists st1, st2, st3. unfold upload_cell. rewrite Hraw. simpl.
  by rewrite Htest.
Qed.

(** X13: when the upload cell runs to its end it has stored every frame
    where it is looked for: the file [data/test-n.csv] and the object
    [prefix/data/test-n.csv] hold the text of [test_df[n]], and
    [data/train-n.csv] and [prefix/train/train-n.csv] the text of
    [train_df[n]]; no frame is overwritten by another one. *)
Theorem upload_cell_objects (test_df train_df : list (frame num (option Z)))
    (st st' : store) :
  upload_cell to_csv test_df train_df st = Ok st' →
  (∀ n df, test_df !! n = Some df →
           disk st' !! local_test_file n = Some (to_csv df)
           ∧ s3 st' !! s3_test_file n = Some (to_csv df))
  ∧ (∀ n df, train_df !! n = Some df →
             disk st' !! local_train_file n = Some (to_csv df)
             ∧ s3 st' !! s3_train_file n = Some (to_csv df)).
Proof.
  intros Hrun.
  destruct (upload_cell_loops test_df train_df st)
    as (st1 & st2 & st3 & Hraw & Htest & Htrain & Hcell).
  assert (st3 = st') as -> by congruence.
  destruct (upload_frames_spec local_test_file s3_test_file test_df st1)
    as (st2' & Htest' & _ & _ & Hnew2); [apply _ .. |].
  destruct (upload_frames_spec local_train_file s3_train_file train_df st2)
    as (st3' & Htrain' & Hdisk3 & Hbucket3 & Hnew3); [apply _ .. |].
  assert (st2' = st2) as -> by congruence.
  assert (st3' = st') as -> by congruence.
  split; [|done].
  intros n df Hn. destruct (Hnew2 n df Hn) as [Hfile Hobject].
  rewrite Hdisk3, Hbucket3; [done | |].
  - intros i _. apply test_key_not_train_key.
  - intros i _. apply local_test_not_local_train.
Qed.

(** X14: below the training location [s3_train_data] the cell writes the
    objects [train-0.csv], ..., one per frame of [train_df], and nothing
    else: no raw file and no test frame.  Every other key below
    [prefix/train/] holds what it held before. *)
Theorem upload_cell_train_location (test_df train_df : list (frame num (option Z)))
    (st st' : store) (k : string) :
  upload_cell to_csv test_df train_df st = Ok st' →
  startswith k "pred-maintenance-artifacts/train/" = true →
  (∀ n, (n < length train_df)%nat → k ≠ s3_train_file n) →
  s3 st' !! k = s3 st !! k
  ∧ ∀ n, "s3://" +:+ bucket +:+ "/" +:+ s3_train_file n
         = s3_train_data +:+ "/train-" +:+ pretty n +:+ ".csv".
Proof.
  intros Hrun Hk Hother. split; [|done].
  destruct (upload_cell_loops test_df train_df st)
    as (st1 & st2 & st3 & Hraw & Htest & Htrain & Hcell).
  assert (st3 = st') as -> by congruence.
  destruct (upload_raw_spec st) as (st1' & Hraw' & _ & Hbucket1 & _).
  destruct (upload_frames_spec local_test_file s3_test_file test_df st1)
    as (st2' & Htest' & _ & Hbucket2 & _); [apply _ .. |].
  destruct (upload_frames_spec local_train_file s3_train_file train_df st2)
    as (st3' & Htrain' & _ & Hbucket3 & _); [apply _ .. |].
  assert (st1' = st1) as -> by congruence.
  assert (st2' = st2) as -> by congruence.
  assert (st3' = st') as -> by congruence.
  rewrite Hbucket3 by done. rewrite Hbucket2, Hbucket1; [done | |].
  - intros p _ [rest ->]%startswith_app ->. by lazy in Hk.
  - intros i _ ->. rewrite s3_test_file_key in Hk. by lazy in Hk.
Qed.

(** X15: the cell writes objects only below [prefix/] and files only
    below [data/]: every other key of the bucket and every other path of
    the disk holds what it held before. *)
Theorem upload_cell_elsewhere (test_df train_df : list (frame num (option Z)))
    (st st' : store) :
  upload_cell to_csv test_df train_df st = Ok st' →
  (∀ k, startswith k "pred-maintenance-artifacts/" = false →
        s3 st' !! k = s3 st !! k)
  ∧ (∀ q, startswith q "data/" = false → disk st' !! q = disk st !! q).
Proof.
  intros Hrun.
  destruct (upload_cell_loops test_df train_df st)
    as (st1 & st2 & st3 & Hraw & Htest & Htrain & Hcell).
  assert (st3 = st') as -> by congruence.
  destruct (upload_raw_spec st) as (st1' & Hraw' & Hdisk1 & Hbucket1 & _).
  destruct (upload_frames_spec local_test_file s3_test_file test_df st1)
    as (st2' & Htest' & Hdisk2 & Hbucket2 & _); [apply _ .. |].
  destruct (upload_frames_spec local_train_file s3_train_file train_df st2)
    as (st3' & Htrain' & Hdisk3 & Hbucket3 & _); [apply _ .. |].
  assert (st1' = st1) as -> by congruence.
  assert (st2' = st2) as -> by congruence.
  assert (st3' = st') as -> by congruence.
  split.
  - intros k Hk. rewrite Hbucket3, Hbucket2, Hbucket1; [done | | |].
    + intros p _ _ ->. by rewrite startswith_app_true in Hk.
    + intros i _ ->. rewrite s3_test_file_key in Hk. by lazy in Hk.
    + intros i _ ->. rewrite s3_train_file_key in Hk. by lazy in Hk.
  - intros q Hq. rewrite Hdisk3, Hdisk2, Hdisk1; [done | |].
    + intros i _ ->. by lazy in Hq.
    + intros i _ ->. by lazy in Hq.
Qed.

(** X16: the cell is not idempotent on the bucket.  A second run finds
    the files [data/train-n.csv] that the first one wrote and uploads
    them with the raw data, so that the text of [train_df[n]] is also
    stored as [prefix/data/train-n.csv]; the first run leaves that key
    as it was when the file was not there. *)
Theorem upload_cell_twice (test_df train_df : list (frame num (option Z)))
    (st st1 : store) (n : nat) (df : frame num (option Z)) :
  upload_cell to_csv test_df train_df st = Ok st1 →
  train_df !! n = Some df →
  let key := "pred-maintenance-artifacts/data/train-" +:+ pretty n +:+ ".csv" in
  (disk st !! local_train_file n = None → s3 st1 !! key = s3 st !! key)
  ∧ ∃ st2, upload_cell to_csv test_df train_df st1 = Ok st2
           ∧ s3 st2 !! key = Some (to_csv df).
Proof.
  intros Hrun Hn key.
  assert (key = "pred-maintenance-artifacts/" +:+ local_train_file n) as Hkey by done.
  assert (∀ i, key ≠ s3_test_file i) as Htest_key.
  { intros i Heq%(f_equal (λ k, startswith k "pred-maintenance-artifacts/data/tr")).
    rewrite s3_test_file_key in Heq. by lazy in Heq. }
  assert (∀ i, key ≠ s3_train_file i) as Htrain_key.
  { intros i Heq%(f_equal (λ k, startswith k "pred-maintenance-artifacts/train/")).
    rewrite s3_train_file_key in Heq. by lazy in Heq. }
  assert (∀ s (ts tr : list (frame num (option Z))) s',
             upload_cell to_csv ts tr s = Ok s' →
             (is_Some (disk s !! local_train_file n) →
              s3 s' !! key = disk s !! local_train_file n)
             ∧ (disk s !! local_train_file n = None → s3 s' !! key = s3 s !! key)
             ∧ (∀ i d, tr !! i = Some d → disk s' !! local_train_file i = Some (to_csv d)))
    as Hrun_spec.
  { intros s ts tr s' Hs.
    destruct (upload_cell_loops ts tr s)
      as (s1 & s2 & s3' & Hraw & Htest & Htrain & Hcell).
    assert (s3' = s') as -> by congruence.
    destruct (upload_raw_spec s) as (s1' & Hraw' & Hdisk1 & Hbucket1 & Hnew1).
    destruct (upload_frames_spec local_test_file s3_test_file ts s1)
      as (s2' & Htest' & _ & Hbucket2 & _); [apply _ .. |].
    destruct (upload_frames_spec local_train_file s3_train_file tr s2)
      as (s3'' & Htrain' & _ & Hbucket3 & Hnew3); [apply _ .. |].
    assert (s1' = s1) as -> by congruence.
    assert (s2' = s2) as -> by congruence.
    assert (s3'' = s') as -> by congruence.
    split; [|split].
    - intros Hfile.
      rewrite Hbucket3, Hbucket2; [by rewrite Hkey; apply Hnew1 | |].
      + intros i _. apply Htest_key.
      + intros i _. apply Htrain_key.
    - intros Hnone. rewrite Hbucket3, Hbucket2, Hbucket1; [done | | |].
      + intros p Hp _ Heq. rewrite Hkey in Heq.
        apply (inj (String.app _)) in Heq as <-.
        rewrite Hnone in Hp. by destruct Hp.
      + intros i _. apply Htest_key.
      + intros i _. apply Htrain_key.
    - intros i d Hi. by apply Hnew3. }
  destruct (Hrun_spec st test_df train_df st1 Hrun) as (_ & Hfirst & Hfiles).
  split; [done|].
  destruct (upload_cell_loops test_df train_df st1)
    as (s1 & s2 & st2 & _ & _ & _ & Hsecond).
  exists st2. split; [done|].
  destruct (Hrun_spec st1 test_df train_df st2 Hsecond) as (Hraw & _ & _).
  rewrite Hraw; rewrite (Hfiles n df Hn); eauto.
Qed.

End Upload_properties.

(** * From the files to the bucket *)

Section Pipeline.
Context {num : Type} `{Arith num} (to_csv : frame num (option Z) → string).

#[local] Existing Instances local_test_file_inj local_train_file_inj
  s3_test_file_inj s3_train_file_inj.

(** X19: when the two data cells end without an exception and the upload
    cell runs, the object [prefix/train/train-n.csv] holds the labelled,
    normalised frame of the training file of variant [n + 1], the object
    [prefix/data/test-n.csv] that of the test file of variant [n + 1],
    and [num-datasets] is 4, the number of training objects. *)
Theorem files_to_bucket (d : data_folder num)
    (train_df test_df : list (frame num (option Z))) (st : store) :
  train_cell d = Done train_df →
  test_cell d = (test_df, None) →
  ∃ st',
    upload_cell to_csv test_df train_df st = Ok st'
    ∧ num_datasets train_df = 4%nat
    ∧ ∀ n, (n < 4)%nat →
        (∃ df, train_FD d (S n) = Ok df
               ∧ s3 st' !! s3_train_file n
                 = Some (to_csv (train_rul (normalize df))))
        ∧ (∃ df df_rul, test_FD d (S n) = Ok df ∧ RUL_FD d (S n) = Ok df_rul
               ∧ s3 st' !! s3_test_file n
                 = Some (to_csv (normalize (test_rul df_rul df)))).
Proof.
  unfold train_cell, test_cell.
  destruct (for_append (train_variant d) variants []) as [outs e] eqn:Htrain.
  apply for_append_shape in Htrain as (outs' & -> & Hall_train & He).
  destruct e as [e|]; [done|]. intros [= <-].
  intros (tests & -> & Hall_test & Hlen)%for_append_shape. simpl in *.
  rewrite He, take_ge in Hall_train by done.
  rewrite Hlen, take_ge in Hall_test by done.
  destruct (upload_cell_loops to_csv tests (train_rul <$> outs') st)
    as (st1 & st2 & st3 & Hraw & Htest & Htrain & Hcell).
  destruct (upload_frames_spec to_csv local_test_file s3_test_file tests st1)
    as (st2' & Htest' & _ & _ & Hnew2); [apply _ .. |].
  destruct (upload_frames_spec to_csv local_train_file s3_train_file
              (train_rul <$> outs') st2)
    as (st3' & Htrain' & _ & Hbucket3 & Hnew3); [apply _ .. |].
  assert (st2' = st2) as -> by congruence.
  assert (st3' = st3) as -> by congruence.
  exists st3. split; [done|]. split.
  { unfold num_datasets. by rewrite length_fmap, He. }
  intros n Hn.
  assert (variants !! n = Some (S n)) as Hvariant.
  { unfold variants. apply lookup_seq. lia. }
  split.
  - destruct (Forall2_lookup_l _ _ _ _ _ Hall_train Hvariant)
      as (out & Hout & (df & Hdf & ->)%train_variant_Ok).
    exists df. split; [done|]. apply Hnew3.
    by rewrite list_lookup_fmap, Hout.
  - destruct (Forall2_lookup_l _ _ _ _ _ Hall_test Hvariant)
      as (out & Hout & Hvar).
    unfold test_variant in Hvar.
    destruct (test_FD d (S n)) as [df|]; [|done].
    destruct (RUL_FD d (S n)) as [df_rul|]; [|done].
    simpl in Hvar. injection Hvar as <-.
    exists df, df_rul. split; [done|]. split; [done|].
    rewrite Hbucket3 by (intros i _; apply test_key_not_train_key).
    by apply Hnew2.
Qed.

End Pipeline.

(** * The further properties on the small folder *)

Lemma train_cell_Done_witness :
  train_cell folder_ok
  = Done (replicate 4 (train_rul (normalize fd_train))).
Proof.
  apply (proj2 (train_cell_Done folder_ok
                  (replicate 4 (train_rul (normalize fd_train))))).
  repeat constructor; by exists fd_train.
Defined.

Lemma test_rul_nan_iff_witness :
  ∃ r', test_rul fd_rul fd_test !! 3%nat = Some r'
        ∧ (ext r' = None ↔ 3 < 1 ∨ Z.of_nat (length fd_rul) < 3).
Proof.
  exact (test_rul_nan_iff fd_rul fd_test 3 (Row 3 7 [12; 5]%float tt) eq_refl).
Defined.

Lemma test_rul_from_train_rul_witness :
  test_rul fd_rul fd_test_2
  = (λ r, Row (id r) (cycle r) (chans r)
            (int64_add (ext r) (reference_of fd_rul (id r)))) <$> train_rul fd_test_2.
Proof. apply (test_rul_from_train_rul fd_rul fd_test_2). reflexivity. Defined.

Lemma test_rul_monotone_witness :
  let r1 : row float (option Z) := Row 1 100 [10; 5]%float (Some 50) in
  let r2 : row float (option Z) := Row 1 120 [30; 5]%float (Some 30) in
  ∃ rul1 rul2,
    ext r1 = Some rul1 ∧ ext r2 = Some rul2
    ∧ 30 ≤ rul2 ≤ rul1
    ∧ (rul1 = 30 ↔ cycle r1 = 120)
    ∧ (rul2 = 30 ↔ cycle r2 = 120).
Proof.
  intros r1 r2. apply (test_rul_monotone fd_rul fd_test r1 r2 30 120).
  - apply (list_elem_of_lookup_2 _ 0%nat). vm_compute. reflexivity.
  - apply (list_elem_of_lookup_2 _ 2%nat). vm_compute. reflexivity.
  - reflexivity.
  - simpl. lia.
  - reflexivity.
  - split.
    + exists (Row 1 120 [30; 5]%float tt).
      split; [apply (list_elem_of_lookup_2 _ 2%nat); reflexivity | split; reflexivity].
    + intros r Hr Hid.
      repeat (apply elem_of_cons in Hr as [->|Hr]; [simpl in *; lia|]).
      by apply elem_of_nil in Hr.
  - simpl. lia.
  - lia.
  - lia.
Defined.

Lemma test_rul_order_independent_witness :
  test_rul fd_rul fd_test ≡ₚ test_rul fd_rul (reverse fd_test)
  ∧ ∀ i j r, fd_test !! i = Some r → reverse fd_test !! j = Some r →
             test_rul fd_rul fd_test !! i = test_rul fd_rul (reverse fd_test) !! j.
Proof.
  apply (test_rul_order_independent fd_rul fd_test (reverse fd_test)).
  symmetry. apply reverse_Permutation.
Defined.

Lemma test_rul_reference_positions_witness :
  test_rul fd_rul fd_test_3 = test_rul [30; 5; 99] fd_test_3.
Proof.
  apply (test_rul_reference_positions fd_rul [30; 5; 99] fd_test_3).
  intros r Hr.
  repeat (apply elem_of_cons in Hr as [->|Hr]; [reflexivity|]).
  by apply elem_of_nil in Hr.
Defined.

Lemma train_rul_int64_witness :
  ∃ rul, Some 1 = Some rul ∧ - 2 ^ 63 ≤ rul < 2 ^ 63.
Proof.
  apply (train_rul_int64 fd_train (Row 1 2 [20; 5]%float (Some 1))).
  apply (list_elem_of_lookup_2 _ 1%nat). vm_compute. reflexivity.
Defined.

Lemma normalize_nan_cell_witness :
  cell (normalize fd_nan) 1 0 = Some nan.
Proof. apply (normalize_nan_cell fd_nan 1 0 nan); reflexivity. Defined.

Lemma normalize_order_independent_witness :
  ∃ w w',
    cell (normalize fd_exact) 0 0 = Some w
    ∧ cell (normalize (reverse fd_exact)) 4 0 = Some w'
    ∧ (w == w')%Q.
Proof.
  apply (normalize_order_independent fd_exact (reverse fd_exact) 0 4 0
           (Row 1 1 [10; 5]%Q tt) 10%Q);
    [symmetry; apply reverse_Permutation | reflexivity ..].
Defined.

Lemma test_cell_shape_witness :
  (∀ n out, [normalize (test_rul fd_rul fd_test)] !! n = Some out →
            test_variant folder (S n) = Ok out)
  ∧ (1 < 4)%nat
  ∧ test_variant folder 2 = Raise ParserError.
Proof.
  exact (test_cell_shape folder [normalize (test_rul fd_rul fd_test)]
           (Some ParserError) eq_refl).
Defined.

Lemma upload_cell_objects_witness :
  (∀ n df, [] !! n = Some df →
           disk store_after_run !! local_test_file n = Some (row_count_text df)
           ∧ s3 store_after_run !! s3_test_file n = Some (row_count_text df))
  ∧ (∀ n df, [train_rul fd_train] !! n = Some df →
             disk store_after_run !! local_train_file n = Some (row_count_text df)
             ∧ s3 store_after_run !! s3_train_file n = Some (row_count_text df)).
Proof.
  apply (upload_cell_objects row_count_text [] [train_rul fd_train] fresh_store).
  vm_compute. reflexivity.
Defined.

Lemma upload_cell_train_location_witness :
  s3 store_after_run !! "pred-maintenance-artifacts/train/notes.txt"%string
  = s3 fresh_store !! "pred-maintenance-artifacts/train/notes.txt"%string
  ∧ ∀ n, "s3://" +:+ bucket +:+ "/" +:+ s3_train_file n
         = s3_train_data +:+ "/train-" +:+ pretty n +:+ ".csv".
Proof.
  apply (upload_cell_train_location row_count_text [] [train_rul fd_train]
           fresh_store store_after_run).
  - vm_compute. reflexivity.
  - reflexivity.
  - intros n Hn. simpl in Hn. assert (n = 0%nat) as -> by lia.
    vm_compute. discriminate.
Defined.

Lemma upload_cell_elsewhere_witness :
  (∀ k, startswith k "pred-maintenance-artifacts/" = false →
        s3 store_after_run !! k = s3 fresh_store !! k)
  ∧ (∀ q, startswith q "data/" = false →
          disk store_after_run !! q = disk fresh_store !! q).
Proof.
  apply (upload_cell_elsewhere row_count_text [] [train_rul fd_train]).
  vm_compute. reflexivity.
Defined.

Lemma upload_cell_twice_witness :
  let key := "pred-maintenance-artifacts/data/train-" +:+ pretty 0%nat +:+ ".csv" in
  (disk fresh_store !! local_train_file 0 = None →
   s3 store_after_run !! key = s3 fresh_store !! key)
  ∧ ∃ st2, upload_cell row_count_text [] [train_rul fd_train] store_after_run = Ok st2
           ∧ s3 st2 !! key = Some (row_count_text (train_rul fd_train)).
Proof.
  apply (upload_cell_twice row_count_text [] [train_rul fd_train]
           fresh_store store_after_run 0 (train_rul fd_train)).
  - vm_compute. reflexivity.
  - reflexivity.
Defined.

Lemma normalize_degenerate_binary64_witness :
  cell (normalize fd_binary64) 1 0 = Some 1%float.
Proof.
  apply (normalize_degenerate_binary64 fd_binary64 1 0 5%float).
  - intros r x Hr Hx.
    repeat (apply elem_of_cons in Hr as [->|Hr]; [by injection Hx as <-|]).
    by apply elem_of_nil in Hr.
  - reflexivity.
  - reflexivity.
Defined.

Lemma normalize_single_row_binary64_witness :
  normalize [Row 1 1 [5; 7]%float tt] = [Row 1 1 [1; 1]%float tt].
Proof.
  apply (normalize_single_row_binary64 (Row 1 1 [5; 7]%float tt)).
  intros x Hx.
  repeat (apply elem_of_cons in Hx as [->|Hx]; [reflexivity|]).
  by apply elem_of_nil in Hx.
Defined.

Lemma files_to_bucket_witness :
  let train_df := replicate 4 (train_rul (normalize fd_train)) in
  let test_df := replicate 4 (normalize (test_rul fd_rul fd_test)) in
  ∃ st',
    upload_cell row_count_text test_df train_df fresh_store = Ok st'
    ∧ num_datasets train_df = 4%nat
    ∧ ∀ n, (n < 4)%nat →
        (∃ df, train_FD folder_ok (S n) = Ok df
               ∧ s3 st' !! s3_train_file n
                 = Some (row_count_text (train_rul (normalize df))))
        ∧ (∃ df df_rul, test_FD folder_ok (S n) = Ok df
               ∧ RUL_FD folder_ok (S n) = Ok df_rul
               ∧ s3 st' !! s3_test_file n
                 = Some (row_count_text (normalize (test_rul df_rul df)))).
Proof.
  intros train_df test_df.
  apply (files_to_bucket row_count_text folder_ok train_df test_df fresh_store);
    reflexivity.
Defined.
